(** * Google Maps scraper: a shallow embedding of [content.js]

    The engine of the extension is the class [GoogleMapsScraper] and the
    message listener that drives it.  This development embeds, as
    executable functions, the parts of it that own state or decide an
    outcome: the URL canonicaliser, the name and phone extractors with
    their regular expressions, the detail-panel poll, [scrapeCard], the
    traversal loop of [start], [stop], [reset], the CSV generator and the
    message listener.

    The host page is not part of the program.  Each read of the DOM is
    an observation supplied by an environment record ([Document], [Card],
    [CardEnv], [CycleEnv], [RunEnv]); the functions below are total in
    these observations, so every theorem quantifies over every page the
    engine could be shown.

    The engine is cooperative.  Between two [await]s nothing else
    runs; at an [await] the listener may handle commands.  The first
    part follows one traversal from [start] to its end, with the stop
    and reset commands that arrive at its awaits listed in the
    environment records as [Interrupt]s, and no other traversal at
    work on the instance.  A [startScraping] that arrives after a
    stop, while the first loop is still suspended, is accepted by the
    listener and begins a second traversal on the same instance: the
    part on traversals in progress cuts a traversal at its awaits and
    lets the stretches of several traversals and the commands of the
    listener alternate in any order. *)

From Stdlib Require Import NArith Ascii String Sorted.
From Equations Require Import Equations.
From stdpp Require Import base decidable option list gmap sets strings.

(** ** JavaScript strings

    A JavaScript string is a sequence of UTF-16 code units. *)

Abbreviation jsstring := (list N).

Section Strings.
Local Open Scope N_scope.

(** An ASCII literal as code units. *)
Definition js (s : string) : jsstring :=
  N_of_ascii <$> list_ascii_of_string s.

(** [s.length > 0], also the truthiness of a string. *)
Definition nonempty (s : jsstring) : bool :=
  match s with [] => false | _ :: _ => true end.

Definition jsstring_eqb (a b : jsstring) : bool := bool_decide (a = b).

(** [a || b] on strings. *)
Definition orElse (a b : jsstring) : jsstring :=
  if nonempty a then a else b.

(** [\d] *)
Definition is_digit (c : N) : bool := (48 <=? c) && (c <=? 57).

(** [\s], which is also the set [String.prototype.trim] strips:
    ECMAScript WhiteSpace and LineTerminator. *)
Definition is_space (c : N) : bool :=
  ((9 <=? c) && (c <=? 13)) || (c =? 32) || (c =? 160) || (c =? 5760)
  || ((8192 <=? c) && (c <=? 8202)) || (c =? 8232) || (c =? 8233)
  || (c =? 8239) || (c =? 8287) || (c =? 12288) || (c =? 65279).

Fixpoint takeWhile (p : N -> bool) (s : jsstring) : jsstring :=
  match s with
  | [] => []
  | c :: r => if p c then c :: takeWhile p r else []
  end.

Fixpoint dropWhile (p : N -> bool) (s : jsstring) : jsstring :=
  match s with
  | [] => []
  | c :: r => if p c then dropWhile p r else s
  end.

(** Removes the longest suffix made of [p] characters:
    [s.replace(/[p]+$/, '')]. *)
Definition dropWhileEnd (p : N -> bool) (s : jsstring) : jsstring :=
  rev (dropWhile p (rev s)).

(** [s.trim()] *)
Definition trim (s : jsstring) : jsstring :=
  dropWhileEnd is_space (dropWhile is_space s).

(** [s.startsWith(p)] *)
Fixpoint startsWith (p s : jsstring) : bool :=
  match p, s with
  | [], _ => true
  | _ :: _, [] => false
  | a :: p', b :: s' => (a =? b) && startsWith p' s'
  end.

(** [s.includes(p)] *)
Fixpoint includes (p s : jsstring) : bool :=
  startsWith p s ||
  match s with
  | [] => false
  | _ :: r => includes p r
  end.

(** [s.split(sep)[0]] for a one-character separator: the text before
    the first [sep], the whole string when there is none. *)
Definition splitHead (sep : N) (s : jsstring) : jsstring :=
  takeWhile (fun c => negb (c =? sep)) s.

Definition QUESTION : N := 63.
Definition QUOTE : N := 34.
Definition COMMA : N := 44.
Definition NEWLINE : N := 10.
Definition SPACE : N := 32.

(** ** [getUniqueUrl] *)

Definition getUniqueUrl (url : jsstring) : jsstring :=
  if negb (nonempty url) then [] else splitHead QUESTION url.

(** ** Regular expressions of the phone extractors *)

(** [[\+\(]] *)
Definition is_lead (c : N) : bool := (c =? 43) || (c =? 40).

(** [[\d\s\-\(\)]] *)
Definition is_phone_body (c : N) : bool :=
  is_digit c || is_space c || (c =? 45) || (c =? 40) || (c =? 41).

(** [[\d\s\-\(\)\.]] *)
Definition is_clean_body (c : N) : bool :=
  is_phone_body c || (c =? 46).

(** [[\s\-\.]] *)
Definition is_trailer (c : N) : bool :=
  is_space c || (c =? 45) || (c =? 46).

(** [\d[\d\s\-\(\)]{6,}] anchored at the head of [s]; the greedy
    quantifier takes the whole run, nothing follows it in the pattern. *)
Definition phoneCoreAt (s : jsstring) : option jsstring :=
  match s with
  | d :: r =>
      if is_digit d then
        let run := takeWhile is_phone_body r in
        if (6 <=? length run)%nat then Some (d :: run) else None
      else None
  | [] => None
  end.

(** [/[\+\(]?\d[\d\s\-\(\)]{6,}/] anchored at the head of [s]: the
    optional lead is tried first, then skipped on backtracking. *)
Definition phonePatternAt (s : jsstring) : option jsstring :=
  match s with
  | c :: r =>
      if is_lead c then
        match phoneCoreAt r with
        | Some m => Some (c :: m)
        | None => phoneCoreAt s
        end
      else phoneCoreAt s
  | [] => None
  end.

(** [text.match(/[\+\(]?\d[\d\s\-\(\)]{6,}/)]: the leftmost match,
    [match[0]]. *)
Fixpoint phonePattern (text : jsstring) : option jsstring :=
  match phonePatternAt text with
  | Some m => Some m
  | None =>
      match text with
      | [] => None
      | _ :: r => phonePattern r
      end
  end.

(** [[\d\s\-\(\)\.]{7,}] anchored at the head of [s]. *)
Definition cleanCoreAt (s : jsstring) : option jsstring :=
  let run := takeWhile is_clean_body s in
  if (7 <=? length run)%nat then Some run else None.

Definition cleanPatternAt (s : jsstring) : option jsstring :=
  match s with
  | c :: r =>
      if is_lead c then
        match cleanCoreAt r with
        | Some m => Some (c :: m)
        | None => cleanCoreAt s
        end
      else cleanCoreAt s
  | [] => None
  end.

(** [text.match(/[\+\(]?[\d\s\-\(\)\.]{7,}/)] *)
Fixpoint cleanPattern (text : jsstring) : option jsstring :=
  match cleanPatternAt text with
  | Some m => Some m
  | None =>
      match text with
      | [] => None
      | _ :: r => cleanPattern r
      end
  end.

(** ** [cleanPhone] *)

Definition cleanPhone (text : jsstring) : jsstring :=
  if negb (nonempty text) then []
  else
    match cleanPattern text with
    | Some m => trim (dropWhileEnd is_trailer m)
    | None => []
    end.

(** Case-insensitive comparison of a code unit with an ASCII letter
    given in upper case, as the [i] flag does for these letters. *)
Definition eq_nocase (upper c : N) : bool :=
  (c =? upper) || (c =? upper + 32).

(** [label.replace(/^Phone:\s*/i, '')] *)
Definition stripPhonePrefix (label : jsstring) : jsstring :=
  match label with
  | p :: h :: o :: n :: e :: colon :: r =>
      if eq_nocase 80 p && eq_nocase 72 h && eq_nocase 79 o
         && eq_nocase 78 n && eq_nocase 69 e && (colon =? 58)
      then dropWhile is_space r
      else label
  | _ => label
  end.

End Strings.

(** ** The observed page *)

(** A [button] element: its [data-item-id] and [aria-label] attributes
    ([None] when absent) and its [textContent]. *)
Record Button := {
  btn_dataItemId : option jsstring;
  btn_ariaLabel : option jsstring;
  btn_text : jsstring
}.

(** What the engine reads of the document at one instant.
    [h1s] are the [textContent] of the elements matched by the heading
    selector list, in document order; [mainLabel] is the [aria-label] of
    [div[role="main"]] ([None] when the region or the attribute is
    absent); [buttons] are all [button] elements in document order;
    [hasTabs] and [hasHotelClass] tell whether [div[role="tablist"]] and
    [.DUwDvf] match.  The website, address, rating and review extractors
    are not unfolded: the record carries the value each returns on this
    document. *)
Record Document := {
  h1s : list jsstring;
  mainLabel : option jsstring;
  buttons : list Button;
  hasTabs : bool;
  hasHotelClass : bool;
  extractWebsite : jsstring;
  extractAddress : jsstring;
  extractRating : jsstring;
  extractReviews : jsstring
}.

(** The container of a feed entry,
    [card.closest('[data-result-index]') || card.parentElement]: the
    [textContent] of its [span] descendants and the [aria-label] of the
    first descendant matching [[aria-label*="Phone"]]. *)
Record Container := {
  spans : list jsstring;
  ariaPhone : option jsstring
}.

(** A feed entry: an anchor with its [href] and its container. *)
Record Card := {
  href : jsstring;
  container : option Container
}.

(** ** [extractName] *)

Definition isPlaceholder (text : jsstring) : bool :=
  jsstring_eqb text (js "Results") || jsstring_eqb text (js "Google Maps").

Definition validH1 (h1 : jsstring) : bool :=
  let text := trim h1 in
  nonempty text && negb (isPlaceholder text)
  && negb (includes (js "found") text).

Definition extractName (d : Document) : jsstring :=
  match List.find validH1 (h1s d) with
  | Some h1 => trim h1
  | None =>
      match mainLabel d with
      | Some label =>
          if nonempty label && negb (isPlaceholder label) then label else []
      | None => []
      end
  end.

(** ** [extractPhone] *)

Definition attrOrEmpty (a : option jsstring) : jsstring :=
  match a with Some v => v | None => [] end.

(** [button[data-item-id*="phone"]] *)
Definition isPhoneButton (b : Button) : bool :=
  match btn_dataItemId b with
  | Some id => includes (js "phone") id
  | None => false
  end.

(** [button[aria-label^="Phone"]] *)
Definition isPhoneLabelled (b : Button) : bool :=
  match btn_ariaLabel b with
  | Some l => startsWith (js "Phone") l
  | None => false
  end.

(** Method 3, the scan of all buttons for a phone-number pattern. *)
Fixpoint scanButtons (bs : list Button) : jsstring :=
  match bs with
  | [] => []
  | btn :: rest =>
      let text := btn_text btn ++ [SPACE] ++ attrOrEmpty (btn_ariaLabel btn) in
      match phonePattern text with
      | Some m => trim m
      | None => scanButtons rest
      end
  end.

Definition extractPhone (d : Document) : jsstring :=
  let phone1 :=
    match List.find isPhoneButton (buttons d) with
    | Some phoneBtn =>
        let label := attrOrEmpty (btn_ariaLabel phoneBtn) in
        orElse (trim (stripPhonePrefix label)) (trim (btn_text phoneBtn))
    | None => []
    end in
  let phone2 :=
    if negb (nonempty phone1) then
      match List.find isPhoneLabelled (buttons d) with
      | Some byLabel =>
          trim (stripPhonePrefix (attrOrEmpty (btn_ariaLabel byLabel)))
      | None => phone1
      end
    else phone1 in
  let phone3 :=
    if negb (nonempty phone2) then scanButtons (buttons d) else phone2 in
  cleanPhone phone3.

(** ** [extractPhoneFromCard] *)

(** [/[\+\(]?\d[\d\s\-\(\)]{6,}/.test(text)] *)
Definition phoneTest (text : jsstring) : bool :=
  match phonePattern text with Some _ => true | None => false end.

Fixpoint scanSpans (ss : list jsstring) : option jsstring :=
  match ss with
  | [] => None
  | span :: rest =>
      let text := trim span in
      if phoneTest text then Some (cleanPhone text) else scanSpans rest
  end.

Definition extractPhoneFromCard (card : Card) : jsstring :=
  match container card with
  | None => []
  | Some c =>
      match scanSpans (spans c) with
      | Some phone => phone
      | None =>
          match ariaPhone c with
          | Some label => cleanPhone (stripPhonePrefix label)
          | None => []
          end
      end
  end.

(** ** [waitForDetailPanel] *)

(** Milliseconds. *)
Definition DETAIL_TIMEOUT : N := 3000.
Definition POLL_INTERVAL : N := 100.

(** The title test of the poll: non-empty, not a placeholder, and
    different from the previous place name. *)
Definition freshH1 (previousName h1 : jsstring) : bool :=
  let text := trim h1 in
  nonempty text && negb (isPlaceholder text)
  && negb (jsstring_eqb text previousName).

Definition findDetailH1 (previousName : jsstring) (d : Document)
  : option jsstring :=
  List.find (freshH1 previousName) (h1s d).

(** [button[data-item-id]] *)
Definition hasActionButtons (d : Document) : bool :=
  existsb (fun b => match btn_dataItemId b with Some _ => true | None => false end)
          (buttons d).

Definition detailReady (previousName : jsstring) (d : Document) : bool :=
  match findDetailH1 previousName d with
  | Some _ => hasActionButtons d || hasTabs d || hasHotelClass d
  | None => false
  end.

Definition truthy {A} (o : option A) : bool :=
  match o with Some _ => true | None => false end.

(** The interval callback, iterated.  [docs k] is the document seen by
    the [k]-th firing, [elapsed] the value of the counter before it.
    The promise settles at the first [resolve]; a firing that meets the
    ready condition therefore wins over the timeout test that follows
    it in the same callback. *)
#[local] Unset Equations With Funext.

Equations? pollDetail (previousName : jsstring) (docs : nat -> Document)
    (tick : nat) (elapsed : N) : bool
    by wf (N.to_nat (DETAIL_TIMEOUT - elapsed)) lt :=
  pollDetail previousName docs tick elapsed
    with detailReady previousName (docs tick) => {
    | true := true
    | false with decide (DETAIL_TIMEOUT <= elapsed + POLL_INTERVAL)%N => {
      | left _ := truthy (findDetailH1 previousName (docs tick))
      | right _ :=
          pollDetail previousName docs (S tick) (elapsed + POLL_INTERVAL)
      }
    }.
Proof. unfold DETAIL_TIMEOUT, POLL_INTERVAL in *. lia. Qed.

Definition waitForDetailPanel (previousName : jsstring)
    (docs : nat -> Document) : bool :=
  pollDetail previousName docs 1 0.

(** ** Engine state *)

(** One scraped listing, the object [extractAllData] builds and
    [scrapeCard] completes with [url] and [scrapedAt]. *)
Record Place := {
  name : jsstring;
  phone : jsstring;
  website : jsstring;
  address : jsstring;
  rating : jsstring;
  reviews : jsstring;
  url : jsstring;
  scrapedAt : jsstring
}.

Inductive Progress :=
| ProcessingVisible (count : nat)
| ScrapingCardOf (index total : nat)
| ScrollingForMore
| StoppedByUser.

Inductive ErrorText :=
| NoSearchResults
| ErrorWith (message : jsstring).

(** Messages pushed with [chrome.runtime.sendMessage]. *)
Inductive Push :=
| updateCount (count : nat)
| updateProgress (message : Progress)
| scrapingComplete (count : nat)
| scrapingError (message : ErrorText).

(** Lines written by [log]. *)
Inductive LogLine :=
| LogAlreadyRunning
| LogStarted
| LogNotLoaded (uniqueUrl : jsstring)
| LogDuplicateContent (previousName : jsstring)
| LogScraped (data : Place)
| LogCardError (message : jsstring)
| LogReachedEnd
| LogNoNewCards (attempt : nat)
| LogMaxScroll
| LogFatal (message : jsstring)
| LogComplete (total : nat)
| LogStopped
| LogReset
| LogExported (what : jsstring).

Inductive FileContent :=
| TextFile (text : jsstring)
| JsonOf (data : list Place).

(** A call of [downloadFile]. *)
Record Download := {
  dl_content : FileContent;
  dl_filename : jsstring;
  dl_mimeType : jsstring
}.

(** The fields of the [GoogleMapsScraper] instance, with the three
    sinks the engine writes to: the messages pushed to the popup, the
    console, and the files handed to the browser. *)
Record Scraper := {
  scrapedData : list Place;
  scrapedUrls : gset jsstring;
  isRunning : bool;
  outbox : list Push;
  console : list LogLine;
  downloads : list Download
}.

(** [new GoogleMapsScraper()] *)
Definition newScraper : Scraper :=
  {| scrapedData := []; scrapedUrls := ∅; isRunning := false;
     outbox := []; console := []; downloads := [] |}.

Definition MAX_SCROLL_FAILS : nat := 3.

Definition setStore (data : list Place) (urls : gset jsstring)
    (s : Scraper) : Scraper :=
  {| scrapedData := data; scrapedUrls := urls; isRunning := isRunning s;
     outbox := outbox s; console := console s; downloads := downloads s |}.

Definition setRunning (b : bool) (s : Scraper) : Scraper :=
  {| scrapedData := scrapedData s; scrapedUrls := scrapedUrls s;
     isRunning := b; outbox := outbox s; console := console s;
     downloads := downloads s |}.

Definition send (m : Push) (s : Scraper) : Scraper :=
  {| scrapedData := scrapedData s; scrapedUrls := scrapedUrls s;
     isRunning := isRunning s; outbox := outbox s ++ [m];
     console := console s; downloads := downloads s |}.

Definition log (l : LogLine) (s : Scraper) : Scraper :=
  {| scrapedData := scrapedData s; scrapedUrls := scrapedUrls s;
     isRunning := isRunning s; outbox := outbox s;
     console := console s ++ [l]; downloads := downloads s |}.

Definition downloadFile (f : Download) (s : Scraper) : Scraper :=
  {| scrapedData := scrapedData s; scrapedUrls := scrapedUrls s;
     isRunning := isRunning s; outbox := outbox s;
     console := console s; downloads := downloads s ++ [f] |}.

Definition sendCount (s : Scraper) : Scraper :=
  send (updateCount (length (scrapedData s))) s.

Definition sendProgress (message : Progress) (s : Scraper) : Scraper :=
  send (updateProgress message) s.

Definition sendComplete (s : Scraper) : Scraper :=
  send (scrapingComplete (length (scrapedData s))) s.

Definition sendError (message : ErrorText) (s : Scraper) : Scraper :=
  send (scrapingError message) s.

(** ** [stop] and [reset] *)

Definition stop (s : Scraper) : Scraper :=
  sendProgress StoppedByUser (log LogStopped (setRunning false s)).

Definition reset (s : Scraper) : Scraper :=
  log LogReset (setStore [] ∅ s).

(** A stop or a reset the listener handles while the traversal is
    suspended at an [await].  [getStatus] and [export] leave the
    fields of the instance as they are, and [startScraping] answers
    [already_running] while [isRunning] holds.  A [startScraping]
    that arrives after a stop is accepted and begins another
    traversal; it is not an [Interrupt]: the functions that take
    [Interrupt]s follow one traversal with no other at work, and
    [deliver], [resume] and [play] below take the general case. *)
Inductive Interrupt := IStop | IReset.

Definition interrupt (s : Scraper) (i : Interrupt) : Scraper :=
  match i with
  | IStop => stop s
  | IReset => reset s
  end.

Definition interrupts (cmds : list Interrupt) (s : Scraper) : Scraper :=
  foldl interrupt s cmds.

(** ** [extractAllData] *)

(** The object has no [url] and no [scrapedAt] yet; both read as the
    empty string until [scrapeCard] sets them. *)
Definition extractAllData (d : Document) : Place :=
  {| name := extractName d; phone := extractPhone d;
     website := extractWebsite d; address := extractAddress d;
     rating := extractRating d; reviews := extractReviews d;
     url := []; scrapedAt := [] |}.

(** [data.phone = p] *)
Definition withPhone (p : jsstring) (d : Place) : Place :=
  {| name := name d; phone := p; website := website d;
     address := address d; rating := rating d; reviews := reviews d;
     url := url d; scrapedAt := scrapedAt d |}.

(** [data.url = rawUrl; data.scrapedAt = new Date().toISOString()] *)
Definition withSource (rawUrl stamp : jsstring) (d : Place) : Place :=
  {| name := name d; phone := phone d; website := website d;
     address := address d; rating := rating d; reviews := reviews d;
     url := rawUrl; scrapedAt := stamp |}.

(** ** [scrapeCard] *)

(** Everything one call of [scrapeCard] observes: the entry, the
    document before the click, whether the click throws, the documents
    seen by the poll, the document after the settle delay, the clock,
    and the commands that arrive during each of the two waits. *)
Record CardEnv := {
  card : Card;
  docBefore : Document;
  clickThrows : option jsstring;
  ticks : nat -> Document;
  duringDetailWait : list Interrupt;
  duringSettle : list Interrupt;
  docAfter : Document;
  now : jsstring;
  duringDelay : list Interrupt
}.

Inductive Completion :=
| Returns (scraped : bool)
| Throws (message : jsstring).

(** The commit of step 8: push the record, mark the clean URL, log,
    send the count. *)
Definition commit (uniqueUrl : jsstring) (data : Place) (s : Scraper)
  : Scraper :=
  sendCount
    (log (LogScraped data)
       (setStore (scrapedData s ++ [data])
                 ({[uniqueUrl]} ∪ scrapedUrls s) s)).

Definition scrapeCard (e : CardEnv) (s : Scraper) : Completion * Scraper :=
  let rawUrl := href (card e) in
  let uniqueUrl := getUniqueUrl rawUrl in
  if bool_decide (uniqueUrl ∈ scrapedUrls s) then (Returns false, s)
  else
    let previousName := extractName (docBefore e) in
    let outerPhone := extractPhoneFromCard (card e) in
    match clickThrows e with
    | Some message => (Throws message, s)
    | None =>
        let loaded := waitForDetailPanel previousName (ticks e) in
        let s := interrupts (duringDetailWait e) s in
        let s := if loaded then s else log (LogNotLoaded uniqueUrl) s in
        let s := interrupts (duringSettle e) s in
        let currentName := extractName (docAfter e) in
        if jsstring_eqb currentName previousName && nonempty previousName
        then (Returns false, log (LogDuplicateContent previousName) s)
        else
          let data := extractAllData (docAfter e) in
          let data :=
            if negb (nonempty (phone data)) && nonempty outerPhone
            then withPhone outerPhone data else data in
          if nonempty (name data)
          then (Returns true,
                commit uniqueUrl (withSource rawUrl (now e) data) s)
          else (Returns false, s)
    end.

(** ** The traversal loop of [start] *)

(** A record of what the loop did to its cursor, kept beside the state
    for the proofs only: the cycle-start test with the cursor before,
    the number of visible cards and the cursor after; each assignment
    [lastProcessedIndex = i + 1] with the loop index and the cursor
    before and after; each call of [scrapeCard] with the loop index and
    the cursor at that moment. *)
Inductive Event :=
| CycleStart (cursorBefore visible cursorAfter : nat)
| Advance (index cursorBefore cursorAfter : nat)
| Attempt (index cursorNow : nat).

(** The instance together with the locals of [start]. *)
Record Loop := {
  engine : Scraper;
  consecutiveScrollFails : nat;
  lastProcessedIndex : nat;
  history : list Event
}.

Definition onEngine (f : Scraper -> Scraper) (st : Loop) : Loop :=
  {| engine := f (engine st);
     consecutiveScrollFails := consecutiveScrollFails st;
     lastProcessedIndex := lastProcessedIndex st;
     history := history st |}.

Definition setCursor (n : nat) (ev : Event) (st : Loop) : Loop :=
  {| engine := engine st;
     consecutiveScrollFails := consecutiveScrollFails st;
     lastProcessedIndex := n;
     history := history st ++ [ev] |}.

Definition note (ev : Event) (st : Loop) : Loop :=
  {| engine := engine st;
     consecutiveScrollFails := consecutiveScrollFails st;
     lastProcessedIndex := lastProcessedIndex st;
     history := history st ++ [ev] |}.

Definition setFails (n : nat) (st : Loop) : Loop :=
  {| engine := engine st;
     consecutiveScrollFails := n;
     lastProcessedIndex := lastProcessedIndex st;
     history := history st |}.

(** The [for] loop over the snapshot.  [rest] holds the cards from
    index [i] on, so [i < cards.length] is [rest] being non-empty;
    [total] is [cards.length]; the result carries [newDataThisRound]. *)
Fixpoint forLoop (i : nat) (rest : list CardEnv) (total : nat)
    (newDataThisRound : nat) (st : Loop) : Loop * nat :=
  match rest with
  | [] => (st, newDataThisRound)
  | e :: rest' =>
      if negb (isRunning (engine st)) then (st, newDataThisRound)
      else
        let st := setCursor (i + 1)
                    (Advance i (lastProcessedIndex st) (i + 1)) st in
        let uniqueUrl := getUniqueUrl (href (card e)) in
        if bool_decide (uniqueUrl ∈ scrapedUrls (engine st))
        then forLoop (S i) rest' total newDataThisRound st
        else
          let st := onEngine (sendProgress (ScrapingCardOf (i + 1) total)) st in
          let st := note (Attempt i (lastProcessedIndex st)) st in
          let '(result, eng) := scrapeCard e (engine st) in
          let st := onEngine (fun _ => eng) st in
          let '(st, newDataThisRound) :=
            match result with
            | Returns true => (st, S newDataThisRound)
            | Returns false => (st, newDataThisRound)
            | Throws message =>
                (onEngine (log (LogCardError message)) st, newDataThisRound)
            end in
          let st := onEngine (interrupts (duringDelay e)) st in
          forLoop (S i) rest' total newDataThisRound st
  end.

(** Everything one pass of the [while] body observes: the snapshot of
    [getCards()] with what each card will show when scraped, an
    exception raised outside the per-card guard (taken at the
    end-of-list test), the end marker, the two card counts around the
    scroll and the commands arriving while the scroll settles. *)
Record CycleEnv := {
  cards : list CardEnv;
  fault : option jsstring;
  hasReachedEnd : bool;
  beforeCount : nat;
  duringScroll : list Interrupt;
  afterCount : nat
}.

(** How the [while] loop was left. [Pending] is not a state of the
    program: the script of observations ended while the loop was still
    running. *)
Inductive Terminal :=
| Exhausted
| Stalled
| UserStop
| FatalError (message : jsstring)
| Pending.

(** The first half of the [while] body: the snapshot, the cursor
    reset, the progress message and the [for] loop. *)
Definition processVisible (c : CycleEnv) (st : Loop) : Loop * nat :=
  let visible := length (cards c) in
  let cursor := lastProcessedIndex st in
  let cursor' := if visible <? cursor then 0 else cursor in
  let st := setCursor cursor' (CycleStart cursor visible cursor') st in
  let st := onEngine (sendProgress (ProcessingVisible visible)) st in
  forLoop cursor' (drop cursor' (cards c)) visible 0 st.

(** One pass of the [while] body; [None] when control returns to the
    loop test. *)
Definition cycle (c : CycleEnv) (st : Loop) : Loop * option Terminal :=
  let '(st, newDataThisRound) := processVisible c st in
  match fault c with
  | Some message => (st, Some (FatalError message))
  | None =>
      if hasReachedEnd c
      then (onEngine (log LogReachedEnd) st, Some Exhausted)
      else
        let st := onEngine (sendProgress ScrollingForMore) st in
        let st := onEngine (interrupts (duringScroll c)) st in
        if (afterCount c <=? beforeCount c) && (newDataThisRound =? 0)
        then
          let fails := consecutiveScrollFails st + 1 in
          let st := setFails fails st in
          let st := onEngine (log (LogNoNewCards fails)) st in
          if MAX_SCROLL_FAILS <=? fails
          then (onEngine (log LogMaxScroll) st, Some Stalled)
          else (st, None)
        else (setFails 0 st, None)
  end.

(** [while (this.isRunning) { ... }] over a script of cycles. *)
Fixpoint whileLoop (cs : list CycleEnv) (st : Loop) : Loop * Terminal :=
  if negb (isRunning (engine st)) then (st, UserStop)
  else
    match cs with
    | [] => (st, Pending)
    | c :: cs' =>
        match cycle c st with
        | (st, Some t) => (st, t)
        | (st, None) => whileLoop cs' st
        end
    end.

(** A run as the page plays it: whether [div[role="feed"]] exists when
    [start] is called, and the cycles that follow. *)
Record RunEnv := {
  feed : bool;
  cycles : list CycleEnv
}.

Inductive StartOutcome :=
| WasRunning
| MissingFeed
| Ended (how : Terminal).

Record Run := {
  final : Scraper;
  outcome : StartOutcome;
  steps : list Event;
  failsAtEnd : nat
}.

(** [let consecutiveScrollFails = 0; let lastProcessedIndex = 0;] *)
Definition enterLoop (s : Scraper) : Loop :=
  {| engine := s; consecutiveScrollFails := 0;
     lastProcessedIndex := 0; history := [] |}.

Definition start (env : RunEnv) (s : Scraper) : Run :=
  if isRunning s then
    {| final := log LogAlreadyRunning s; outcome := WasRunning;
       steps := []; failsAtEnd := 0 |}
  else if negb (feed env) then
    {| final := sendError NoSearchResults s; outcome := MissingFeed;
       steps := []; failsAtEnd := 0 |}
  else
    let s := log LogStarted (setRunning true s) in
    let '(st, t) := whileLoop (cycles env) (enterLoop s) in
    let s := engine st in
    let s :=
      match t with
      | Pending => s
      | FatalError message =>
          let s := sendError (ErrorWith message) (log (LogFatal message) s) in
          sendComplete
            (log (LogComplete (length (scrapedData s))) (setRunning false s))
      | _ =>
          sendComplete
            (log (LogComplete (length (scrapedData s))) (setRunning false s))
      end in
    {| final := s; outcome := Ended t; steps := history st;
       failsAtEnd := consecutiveScrollFails st |}.

(** ** Export *)

Definition orEmpty (v : jsstring) : jsstring := orElse v [].

Definition headers : list jsstring :=
  [js "Name"; js "Phone"; js "Website"; js "Address"; js "Rating";
   js "Reviews"; js "URL"].

Definition rowOf (d : Place) : list jsstring :=
  [orEmpty (name d); orEmpty (phone d); orEmpty (website d);
   orEmpty (address d); orEmpty (rating d); orEmpty (reviews d);
   orEmpty (url d)].

(** The global replace of [String(cell)]: every double quote becomes
    two. *)
Fixpoint doubleQuotes (cell : jsstring) : jsstring :=
  match cell with
  | [] => []
  | c :: r =>
      if (c =? QUOTE)%N then QUOTE :: QUOTE :: doubleQuotes r
      else c :: doubleQuotes r
  end.

Definition quoteCell (cell : jsstring) : jsstring :=
  [QUOTE] ++ doubleQuotes cell ++ [QUOTE].

(** [parts.join(sep)] *)
Fixpoint join (sep : jsstring) (parts : list jsstring) : jsstring :=
  match parts with
  | [] => []
  | [x] => x
  | x :: rest => x ++ sep ++ join sep rest
  end.

Definition csvLine (row : list jsstring) : jsstring :=
  join [COMMA] (quoteCell <$> row).

Definition csvOf (table : list (list jsstring)) : jsstring :=
  join [NEWLINE] (csvLine <$> table).

Definition generateCSVContent (s : Scraper) : jsstring :=
  csvOf (headers :: (rowOf <$> scrapedData s)).

Definition BOM : N := 65279%N.

Definition exportCSV (s : Scraper) : Scraper :=
  log (LogExported (js "CSV"))
    (downloadFile
       {| dl_content := TextFile (generateCSVContent s);
          dl_filename := js "google-maps-data.csv";
          dl_mimeType := js "text/csv;charset=utf-8" |} s).

Definition exportExcelCSV (s : Scraper) : Scraper :=
  log (LogExported (js "Excel CSV"))
    (downloadFile
       {| dl_content := TextFile (BOM :: generateCSVContent s);
          dl_filename := js "google-maps-data-excel.csv";
          dl_mimeType := js "text/csv;charset=utf-8" |} s).

Definition exportJSON (s : Scraper) : Scraper :=
  log (LogExported (js "JSON"))
    (downloadFile
       {| dl_content := JsonOf (scrapedData s);
          dl_filename := js "google-maps-data.json";
          dl_mimeType := js "application/json" |} s).

(** ** The message listener *)

Inductive Format := FormatCsv | FormatExcel | FormatJson | FormatOther.

Inductive Request :=
| startScraping
| stopScraping
| resetData
| getStatus
| export (format : Format)
| otherAction.

Inductive Response :=
| status_started
| status_already_running
| status_stopped (count : nat)
| status_reset (count : nat)
| status_is (running : bool) (count : nat)
| status_no_data
| status_exported
| status_unknown_action.

(** The listener, with each traversal left alone until it is over.
    [start] is asynchronous: the response is sent when its first
    [await] is reached, and the state returned here is the one the
    instance has once the run described by [env] is over (or, for a
    script that ends early, where that script leaves it), no other
    command being handled meanwhile than the stops and resets [env]
    lists.  [deliver] is the listener with traversals in progress. *)
Definition onMessage (request : Request) (env : RunEnv) (s : Scraper)
  : Response * Scraper :=
  match request with
  | startScraping =>
      if isRunning s then (status_already_running, s)
      else (status_started, final (start env s))
  | stopScraping =>
      let s := stop s in
      (status_stopped (length (scrapedData s)), s)
  | resetData => (status_reset 0, reset s)
  | getStatus => (status_is (isRunning s) (length (scrapedData s)), s)
  | export format =>
      if (length (scrapedData s) =? 0) then (status_no_data, s)
      else
        let s :=
          match format with
          | FormatCsv => exportCSV s
          | FormatExcel => exportExcelCSV s
          | FormatJson => exportJSON s
          | FormatOther => s
          end in
        (status_exported, s)
  | otherAction => (status_unknown_action, s)
  end.

(** The states the instance can be in when every traversal is left
    alone until it is over: the fresh instance, and whatever a command
    leaves behind. *)
Inductive reachable : Scraper -> Prop :=
| reachable_new : reachable newScraper
| reachable_step request env s :
    reachable s -> reachable (snd (onMessage request env s)).

(** ** Notions used to state the properties *)

(** The canonical key of a committed record. *)
Definition keyOf (d : Place) : jsstring := getUniqueUrl (url d).

(** The instance when the two waits of [scrapeCard] are over. *)
Definition afterWaits (e : CardEnv) (s : Scraper) : Scraper :=
  let previousName := extractName (docBefore e) in
  let s := interrupts (duringDetailWait e) s in
  let s :=
    if waitForDetailPanel previousName (ticks e) then s
    else log (LogNotLoaded (getUniqueUrl (href (card e)))) s in
  interrupts (duringSettle e) s.

(** The record [scrapeCard] holds when it tests the name. *)
Definition candidate (e : CardEnv) : Place :=
  let data := extractAllData (docAfter e) in
  let outerPhone := extractPhoneFromCard (card e) in
  if negb (nonempty (phone data)) && nonempty outerPhone
  then withPhone outerPhone data else data.

(** [scrapeCard] gets as far as the test of the name: the key is new,
    the click does not throw, and the panel shows another name than
    before the click (or showed none). *)
Definition reachesNameTest (e : CardEnv) (s : Scraper) : bool :=
  negb (bool_decide (getUniqueUrl (href (card e)) ∈ scrapedUrls s))
  && negb (truthy (clickThrows e))
  && negb (jsstring_eqb (extractName (docAfter e)) (extractName (docBefore e))
           && nonempty (extractName (docBefore e))).

(** The number of count messages in an outbox: one is pushed by each
    commit and by nothing else. *)
Fixpoint countCommits (out : list Push) : nat :=
  match out with
  | [] => 0
  | updateCount _ :: t => S (countCommits t)
  | _ :: t => countCommits t
  end.

Definition commitsAnnounced (s : Scraper) : nat := countCommits (outbox s).

(** A cycle that gets to the comparison after the scroll, sees no more
    cards than before it and has committed nothing. *)
Definition stalls (c : CycleEnv) (st : Loop) : bool :=
  negb (truthy (fault c)) && negb (hasReachedEnd c)
  && (afterCount c <=? beforeCount c)
  && (snd (processVisible c st) =? 0).

(** A cycle that gets to the comparison and either sees more cards or
    has committed a record. *)
Definition progresses (c : CycleEnv) (st : Loop) : bool :=
  negb (truthy (fault c)) && negb (hasReachedEnd c)
  && negb ((afterCount c <=? beforeCount c)
           && (snd (processVisible c st) =? 0)).

(** The loop is running at its head and each cycle of [cs], taken in
    turn, stalls. *)
Fixpoint stallRun (cs : list CycleEnv) (st : Loop) : bool :=
  match cs with
  | [] => true
  | c :: cs' =>
      isRunning (engine st) && stalls c st && stallRun cs' (fst (cycle c st))
  end.

(** The loop state [start] enters the [while] loop with. *)
Definition loopEntry (s : Scraper) : Loop :=
  enterLoop (log LogStarted (setRunning true s)).

(** The cursor discipline, read off a history.  The reader keeps the
    value of the cursor and whether the last thing that happened to it
    was an assignment in the [for] loop that no call of [scrapeCard]
    has followed yet. *)
Definition stepTo (state : nat * bool) (ev : Event) : nat * bool :=
  match ev with
  | CycleStart _ _ after => (after, false)
  | Advance _ _ after => (after, true)
  | Attempt _ _ => (fst state, false)
  end.

(** A cycle start keeps the cursor, or sets it to 0 exactly when fewer
    cards are visible than the cursor says; an assignment in the [for]
    loop is made at the index the cursor points to and moves it one up;
    a call of [scrapeCard] for index [i] comes right after the
    assignment that set the cursor to [i + 1]. *)
Definition stepOk (state : nat * bool) (ev : Event) : Prop :=
  match ev with
  | CycleStart before visible after =>
      before = fst state
      /\ after = (if visible <? fst state then 0 else fst state)
  | Advance index before after =>
      before = fst state /\ index = fst state /\ after = index + 1
  | Attempt index cursorNow =>
      snd state = true /\ cursorNow = fst state /\ fst state = index + 1
  end.

Fixpoint discipline (state : nat * bool) (h : list Event) : Prop :=
  match h with
  | [] => True
  | ev :: t => stepOk state ev /\ discipline (stepTo state ev) t
  end.

Definition replay (state : nat * bool) (h : list Event) : nat * bool :=
  foldl stepTo state h.

(** The history of a loop state obeys the discipline from the start of
    the run and ends with the cursor where the loop state has it. *)
Definition tracked (armed : bool) (st : Loop) : Prop :=
  discipline (0, false) (history st)
  /\ replay (0, false) (history st) = (lastProcessedIndex st, armed).

Definition isReset (ev : Event) : bool :=
  match ev with
  | CycleStart before visible _ => visible <? before
  | _ => false
  end.

(** The indices handed to [scrapeCard], in order. *)
Fixpoint attempts (h : list Event) : list nat :=
  match h with
  | [] => []
  | Attempt i _ :: t => i :: attempts t
  | _ :: t => attempts t
  end.

Definition countDigits (s : jsstring) : nat :=
  length (filter (fun c => is_digit c = true) s).

(** The shape of a match of the phone pattern: an optional [+] or [(],
    a digit, then six or more characters that are digits, white space,
    hyphens or parentheses. *)
Definition coreShape (m : jsstring) : bool :=
  match m with
  | d :: rest =>
      is_digit d && forallb is_phone_body rest && (6 <=? length rest)
  | [] => false
  end.

Definition phoneShape (m : jsstring) : bool :=
  match m with
  | c :: r => if is_lead c then coreShape r else coreShape m
  | [] => false
  end.

(** A title that is non-empty and not a placeholder, whatever the
    previous name. *)
Definition validTitle (h1 : jsstring) : bool :=
  nonempty (trim h1) && negb (isPlaceholder (trim h1)).

(** The number of the firing at which the poll gives up. *)
Definition lastTick : nat := 30.

(** The counter before the firing number [tick]. *)
Definition elapsedBefore (tick : nat) : N :=
  (POLL_INTERVAL * N.of_nat (tick - 1))%N.

(** *** Reading the tabular format back

    The reader follows the quoting rule of the format: a field is
    wrapped in double quotes, a doubled quote inside it stands for one
    quote, a comma ends a field and a line feed ends a row. *)
Inductive ReaderMode := FieldStart | InQuotes | QuoteSeen.

Fixpoint readFrom (mode : ReaderMode) (rows : list (list jsstring))
    (row : list jsstring) (field : jsstring) (input : jsstring)
  : option (list (list jsstring)) :=
  match input with
  | [] =>
      match mode with
      | QuoteSeen => Some (rows ++ [row ++ [field]])
      | _ => None
      end
  | c :: r =>
      match mode with
      | FieldStart =>
          if (c =? QUOTE)%N then readFrom InQuotes rows row [] r else None
      | InQuotes =>
          if (c =? QUOTE)%N then readFrom QuoteSeen rows row field r
          else readFrom InQuotes rows row (field ++ [c]) r
      | QuoteSeen =>
          if (c =? QUOTE)%N then readFrom InQuotes rows row (field ++ [QUOTE]) r
          else if (c =? COMMA)%N
               then readFrom FieldStart rows (row ++ [field]) [] r
          else if (c =? NEWLINE)%N
               then readFrom FieldStart (rows ++ [row ++ [field]]) [] [] r
          else None
      end
  end.

Definition readCSV (text : jsstring) : option (list (list jsstring)) :=
  readFrom FieldStart [] [] [] text.

(** The fields of a record as the export lists them. *)
Definition fieldsOf (d : Place) : list jsstring :=
  [name d; phone d; website d; address d; rating d; reviews d; url d].

(** The assignment [lastProcessedIndex = i + 1]. *)
Definition advance (i : nat) (st : Loop) : Loop :=
  setCursor (i + 1) (Advance i (lastProcessedIndex st) (i + 1)) st.

(** [if (scraped) newDataThisRound++] *)
Definition tally (result : Completion) (newDataThisRound : nat) : nat :=
  match result with
  | Returns true => S newDataThisRound
  | _ => newDataThisRound
  end.

(** The loop state when the iteration for a card that is not yet in
    the dedup set is over, the cursor being already advanced. *)
Definition afterCard (i : nat) (e : CardEnv) (total : nat) (st : Loop)
  : Loop :=
  let st := onEngine (sendProgress (ScrapingCardOf (i + 1) total)) st in
  let st := note (Attempt i (lastProcessedIndex st)) st in
  let r := scrapeCard e (engine st) in
  let st := onEngine (fun _ => snd r) st in
  let st :=
    match fst r with
    | Throws message => onEngine (log (LogCardError message)) st
    | Returns _ => st
    end in
  onEngine (interrupts (duringDelay e)) st.

(** The result of [scrapeCard] in that iteration. *)
Definition resultOfCard (i : nat) (e : CardEnv) (total : nat) (st : Loop)
  : Completion :=
  fst (scrapeCard e
         (engine (onEngine (sendProgress (ScrapingCardOf (i + 1) total)) st))).

(** A property of the record list and the dedup set, read on an
    instance. *)
Definition onStore (J : list Place -> gset jsstring -> Prop) (s : Scraper)
  : Prop :=
  J (scrapedData s) (scrapedUrls s).

(** The record list holds no canonical key twice and the dedup set is
    the set of its keys. *)
Definition keysConsistent (data : list Place) (urls : gset jsstring) : Prop :=
  NoDup (keyOf <$> data)
  /\ forall k, k ∈ urls <-> k ∈ keyOf <$> data.

Definition storeConsistent : Scraper -> Prop := onStore keysConsistent.

Definition namesPresent (data : list Place) (urls : gset jsstring) : Prop :=
  Forall (fun d => name d <> []) data.

Definition allNamed : Scraper -> Prop := onStore namesPresent.

(** ** Sample pages

    Concrete observations on which the statements below are run. *)

Definition blankPage : Document :=
  {| h1s := []; mainLabel := None; buttons := []; hasTabs := false;
     hasHotelClass := false; extractWebsite := []; extractAddress := [];
     extractRating := []; extractReviews := [] |}.

(** A detail view with one heading and a tab strip. *)
Definition pageTitled (title : jsstring) : Document :=
  {| h1s := [title]; mainLabel := None; buttons := []; hasTabs := true;
     hasHotelClass := false; extractWebsite := []; extractAddress := [];
     extractRating := []; extractReviews := [] |}.

(** An entry whose click turns a blank panel into [pageTitled title],
    with no command arriving meanwhile. *)
Definition quietCard (link title : jsstring) : CardEnv :=
  {| card := {| href := link; container := None |};
     docBefore := blankPage; clickThrows := None;
     ticks := fun _ => pageTitled title;
     duringDetailWait := []; duringSettle := [];
     docAfter := pageTitled title; now := js "2024-01-01T00:00:00.000Z";
     duringDelay := [] |}.

Definition placeA_en : CardEnv :=
  quietCard (js "https://www.google.com/maps/place/A?hl=en") (js "Cafe A").

Definition placeA_fr : CardEnv :=
  quietCard (js "https://www.google.com/maps/place/A?hl=fr") (js "Cafe A").

(** An entry whose detail view never shows a heading. *)
Definition placeNameless : CardEnv :=
  {| card := {| href := js "https://www.google.com/maps/place/N";
                container := None |};
     docBefore := blankPage; clickThrows := None;
     ticks := fun _ => blankPage;
     duringDetailWait := []; duringSettle := [];
     docAfter := blankPage; now := js "2024-01-01T00:00:00.000Z";
     duringDelay := [] |}.

(** A cycle over the given cards that finds no end marker and no new
    card after the scroll. *)
Definition quietCycle (cs : list CardEnv) : CycleEnv :=
  {| cards := cs; fault := None; hasReachedEnd := false;
     beforeCount := length cs; duringScroll := [];
     afterCount := length cs |}.

(** The instance after one run over the two links to place A. *)
Definition storeWithA : Scraper :=
  snd (onMessage startScraping
         {| feed := true; cycles := [quietCycle [placeA_en; placeA_fr]] |}
         newScraper).

(** A run whose first cycle commits place A and whose next three find
    nothing new. *)
Definition stallingRun : RunEnv :=
  {| feed := true;
     cycles := [quietCycle [placeA_en]; quietCycle [placeA_en];
                quietCycle [placeA_en]; quietCycle [placeA_en]] |}.

Definition placeB : CardEnv :=
  quietCard (js "https://www.google.com/maps/place/B") (js "Bakery B").

Definition placeC : CardEnv :=
  quietCard (js "https://www.google.com/maps/place/C") (js "Clinic C").

Definition placeD : CardEnv :=
  quietCard (js "https://www.google.com/maps/place/D") (js "Diner D").

(** A run in which the feed shows three cards, then only one. *)
Definition shrinkingRun : RunEnv :=
  {| feed := true;
     cycles := [quietCycle [placeA_en; placeB; placeC]; quietCycle [placeD]] |}.

(** An entry whose click throws. *)
Definition placeBroken : CardEnv :=
  {| card := {| href := js "https://www.google.com/maps/place/X";
                container := None |};
     docBefore := blankPage; clickThrows := Some (js "detached");
     ticks := fun _ => blankPage;
     duringDetailWait := []; duringSettle := [];
     docAfter := blankPage; now := js "2024-01-01T00:00:00.000Z";
     duringDelay := [] |}.

(** Place B, with the stop command arriving during the delay that
    follows its scrape. *)
Definition placeB_thenStop : CardEnv :=
  {| card := card placeB; docBefore := docBefore placeB;
     clickThrows := None; ticks := ticks placeB;
     duringDetailWait := []; duringSettle := [];
     docAfter := docAfter placeB; now := now placeB;
     duringDelay := [IStop] |}.

(** A run with a throwing card, then a stop, then a card never
    reached. *)
Definition roughRun : RunEnv :=
  {| feed := true;
     cycles := [quietCycle [placeBroken; placeB_thenStop; placeC];
                quietCycle [placeBroken; placeB_thenStop; placeC]] |}.

(** A button and a card that show a price range, and a detail view
    whose only button is that one. *)
Definition priceButton : Button :=
  {| btn_dataItemId := None; btn_ariaLabel := None;
     btn_text := js "100 - 200" |}.

Definition pageWithPrice : Document :=
  {| h1s := [js "Cafe A"]; mainLabel := None; buttons := [priceButton];
     hasTabs := true; hasHotelClass := false; extractWebsite := [];
     extractAddress := []; extractRating := []; extractReviews := [] |}.

Definition cardWithPrice : Card :=
  {| href := js "https://www.google.com/maps/place/A";
     container := Some {| spans := [js "100 - 200"]; ariaPhone := None |} |}.

(** A panel that keeps showing place A at every firing of the poll. *)
Definition stuckPanel : nat -> Document :=
  fun _ => pageTitled (js "Cafe A").

(** The instance in the middle of a run: place A is committed and the
    loop is back at its head, still running. *)
Definition runningWithA : Scraper :=
  snd (onMessage startScraping
         {| feed := true; cycles := [quietCycle [placeA_en]] |}
         newScraper).

(** A page without a result feed. *)
Definition noFeed : RunEnv := {| feed := false; cycles := [] |}.

(** ** Further notions

    Used to state what the functions above do beyond the claims. *)

(** The characters a cleaned phone number can contain: a leading [+]
    or [(], digits, white space, hyphens, parentheses and dots. *)
Definition phoneChar (c : N) : bool := is_lead c || is_clean_body c.

(** The same observations, with other documents shown to the poll. *)
Definition withTicks (docs : nat -> Document) (e : CardEnv) : CardEnv :=
  {| card := card e; docBefore := docBefore e;
     clickThrows := clickThrows e; ticks := docs;
     duringDetailWait := duringDetailWait e;
     duringSettle := duringSettle e; docAfter := docAfter e;
     now := now e; duringDelay := duringDelay e |}.

(** Two instances that differ at most in what was written to the
    console. *)
Definition sameButConsole (s s' : Scraper) : Prop :=
  scrapedData s = scrapedData s' /\ scrapedUrls s = scrapedUrls s'
  /\ isRunning s = isRunning s' /\ outbox s = outbox s'
  /\ downloads s = downloads s'.

(** No reset among the commands. *)
Definition resetFree (cmds : list Interrupt) : bool :=
  forallb (fun i => match i with IReset => false | IStop => true end) cmds.

Definition cardResetFree (e : CardEnv) : bool :=
  resetFree (duringDetailWait e) && resetFree (duringSettle e)
  && resetFree (duringDelay e).

Definition cycleResetFree (c : CycleEnv) : bool :=
  forallb cardResetFree (cards c) && resetFree (duringScroll c).

Definition runResetFree (env : RunEnv) : bool :=
  forallb cycleResetFree (cycles env).

(** The store of [s'] extends the store of [s]: the records of [s]
    are still there, in place, and so are its keys. *)
Definition grownFrom (s s' : Scraper) : Prop :=
  scrapedData s `prefix_of` scrapedData s'
  /\ scrapedUrls s ⊆ scrapedUrls s'.

(** ** The other extractors of the detail panel

    [extractAllData] above takes the website, the address, the rating
    and the review count as observed values.  Here the four extractors
    and the end-of-list test are unfolded over what they read of the
    page.  They live in a module of their own because [Document]
    already uses their names for those observed values. *)

(** ASCII upper case of a code unit: how the [i] flag compares a code
    unit with an ASCII character of the pattern. *)
Definition upcase (c : N) : N :=
  if ((97 <=? c) && (c <=? 122))%N then (c - 32)%N else c.

(** [s] starts with [pat], letters compared without case; the rest of
    [s] after it. *)
Fixpoint afterPrefixNoCase (pat s : jsstring) : option jsstring :=
  match pat, s with
  | [], _ => Some s
  | _ :: _, [] => None
  | a :: pat', b :: s' =>
      if (upcase a =? upcase b)%N then afterPrefixNoCase pat' s' else None
  end.

(** [s] starts with [pat], compared exactly; the rest of [s]. *)
Fixpoint afterPrefix (pat s : jsstring) : option jsstring :=
  match pat, s with
  | [], _ => Some s
  | _ :: _, [] => None
  | a :: pat', b :: s' =>
      if (a =? b)%N then afterPrefix pat' s' else None
  end.

(** [label.replace(/^Word:\s*/i, '')], [word] holding the pattern up
    to and including the colon. *)
Definition stripLabelPrefix (word label : jsstring) : jsstring :=
  match afterPrefixNoCase word label with
  | Some rest => dropWhile is_space rest
  | None => label
  end.

(** [/([cls]+)\s*word/] anchored at the head of [s], with or without
    the [i] flag; the result is the first group.  The classes used
    below hold neither white space nor the first letter of the word,
    so a shorter run can never succeed where the longest fails. *)
Definition runBeforeWordAt (cls : N -> bool) (nocase : bool)
    (word s : jsstring) : option jsstring :=
  let run := takeWhile cls s in
  if nonempty run then
    let rest := dropWhile is_space (dropWhile cls s) in
    match (if nocase then afterPrefixNoCase word rest
           else afterPrefix word rest) with
    | Some _ => Some run
    | None => None
    end
  else None.

(** [text.match(/([cls]+)\s*word/)], the leftmost match, group 1. *)
Fixpoint runBeforeWord (cls : N -> bool) (nocase : bool)
    (word text : jsstring) : option jsstring :=
  match runBeforeWordAt cls nocase word text with
  | Some m => Some m
  | None =>
      match text with
      | [] => None
      | _ :: r => runBeforeWord cls nocase word r
      end
  end.

(** [[\d.]] *)
Definition is_rating_char (c : N) : bool := is_digit c || (c =? 46)%N.

(** [[\d,]] *)
Definition is_count_char (c : N) : bool := is_digit c || (c =? 44)%N.

(** [/^\d\.\d$/.test(text)] *)
Definition isDigitDotDigit (text : jsstring) : bool :=
  match text with
  | [a; dot; b] => is_digit a && (dot =? 46)%N && is_digit b
  | _ => false
  end.

(** [m.replace(/,/g, '')] *)
Definition stripCommas (m : jsstring) : jsstring :=
  List.filter (fun c => negb (c =? COMMA)%N) m.

(** [text.match(/^\(?([\d,]+)\)?$/)], group 1. *)
Definition bareCount (text : jsstring) : option jsstring :=
  let inner :=
    match text with
    | c :: r => if (c =? 40)%N then r else text
    | [] => text
    end in
  let run := takeWhile is_count_char inner in
  if nonempty run then
    match dropWhile is_count_char inner with
    | [] => Some run
    | [c] => if (c =? 41)%N then Some run else None
    | _ => None
    end
  else None.

(** [parseInt(digits) > 0] for a string of decimal digits: the empty
    string parses to NaN, and a number is positive when one of its
    digits is not 0. *)
Definition parsesPositive (digits : jsstring) : bool :=
  existsb (fun c => negb (c =? 48)%N) digits.

(** [/https?:\/\/[^\s]+/] anchored at the head of [s]. *)
Definition urlAt (s : jsstring) : option jsstring :=
  match afterPrefix (js "http") s with
  | Some rest =>
      let '(scheme, rest) :=
        match rest with
        | c :: r => if (c =? 115)%N then (js "https", r) else (js "http", rest)
        | [] => (js "http", rest)
        end in
      match afterPrefix (js "://") rest with
      | Some tail =>
          let run := takeWhile (fun c => negb (is_space c)) tail in
          if nonempty run then Some (scheme ++ js "://" ++ run) else None
      | None => None
      end
  | None => None
  end.

(** [label.match(/https?:\/\/[^\s]+/)], [match[0]]. *)
Fixpoint urlIn (label : jsstring) : option jsstring :=
  match urlAt label with
  | Some m => Some m
  | None =>
      match label with
      | [] => None
      | _ :: r => urlIn r
      end
  end.

(** A line terminator, which the dot of a pattern does not match. *)
Definition isLineTerminator (c : N) : bool :=
  ((c =? 10) || (c =? 13) || (c =? 8232) || (c =? 8233))%N.

(** [/you.ve reached the end/i] anchored at the head of [s]. *)
Definition endPhraseAt (s : jsstring) : bool :=
  match afterPrefixNoCase (js "you") s with
  | Some (c :: r) =>
      negb (isLineTerminator c)
      && truthy (afterPrefixNoCase (js "ve reached the end") r)
  | _ => false
  end.

(** [/you.ve reached the end/i.test(text)] *)
Fixpoint endPhrase (text : jsstring) : bool :=
  endPhraseAt text ||
  match text with
  | [] => false
  | _ :: r => endPhrase r
  end.

(** An [a] element: its [data-item-id], its [href] attribute, the
    resolved [href] property, and whether it lies inside
    [div[role="main"]]. *)
Record Anchor := {
  a_dataItemId : option jsstring;
  a_hrefAttr : option jsstring;
  a_href : jsstring;
  a_inMain : bool
}.

(** What the rating, review and website extractors and the end-of-list
    test read besides the buttons: the [aria-label] of the first
    [div] (else [span]) with [role="img"] and a label containing
    "star"; the text of the first [span[aria-hidden="true"]]; the
    labels of the spans whose label contains "reviews"; the text of
    every span; every anchor; the text of the first [p > span > span]
    and of the first [div.m6QErb span]. *)
Record Details := {
  starLabel : option jsstring;
  hiddenSpan : option jsstring;
  reviewLabels : list jsstring;
  spanTexts : list jsstring;
  anchors : list Anchor;
  endEl : option jsstring;
  endAlt : option jsstring
}.

Module Panel.

Definition idIs (word : jsstring) (id : option jsstring) : bool :=
  match id with Some v => jsstring_eqb v word | None => false end.

Definition idHas (word : jsstring) (id : option jsstring) : bool :=
  match id with Some v => includes word v | None => false end.

(** [querySelector('button[data-item-id="w"]') ||
    querySelector('button[data-item-id*="w"]')] *)
Definition buttonFor (word : jsstring) (bs : list Button) : option Button :=
  match List.find (fun b => idIs word (btn_dataItemId b)) bs with
  | Some b => Some b
  | None => List.find (fun b => idHas word (btn_dataItemId b)) bs
  end.

Definition anchorFor (word : jsstring) (l : list Anchor) : option Anchor :=
  match List.find (fun a => idIs word (a_dataItemId a)) l with
  | Some a => Some a
  | None => List.find (fun a => idHas word (a_dataItemId a)) l
  end.

Definition extractAddress (bs : list Button) : jsstring :=
  match buttonFor (js "address") bs with
  | Some addressBtn =>
      let label := attrOrEmpty (btn_ariaLabel addressBtn) in
      orElse (trim (stripLabelPrefix (js "Address:") label))
             (trim (btn_text addressBtn))
  | None => []
  end.

Definition extractRating (v : Details) : jsstring :=
  match starLabel v with
  | Some label =>
      match runBeforeWord is_rating_char true (js "star") label with
      | Some m => m
      | None => []
      end
  | None =>
      match hiddenSpan v with
      | Some span =>
          let text := trim span in
          if isDigitDotDigit text then text else []
      | None => []
      end
  end.

Fixpoint reviewsFromLabels (labels : list jsstring) : option jsstring :=
  match labels with
  | [] => None
  | label :: rest =>
      match runBeforeWord is_count_char false (js "reviews") label with
      | Some m => Some (stripCommas m)
      | None => reviewsFromLabels rest
      end
  end.

Fixpoint reviewsFromSpans (texts : list jsstring) : option jsstring :=
  match texts with
  | [] => None
  | span :: rest =>
      match bareCount (trim span) with
      | Some m =>
          if parsesPositive (stripCommas m) then Some (stripCommas m)
          else reviewsFromSpans rest
      | None => reviewsFromSpans rest
      end
  end.

Definition extractReviews (v : Details) : jsstring :=
  let fromStars :=
    match starLabel v with
    | Some label =>
        match runBeforeWord is_count_char true (js "review") label with
        | Some m => Some (stripCommas m)
        | None => None
        end
    | None => None
    end in
  match fromStars with
  | Some r => r
  | None =>
      match reviewsFromLabels (reviewLabels v) with
      | Some r => r
      | None =>
          match reviewsFromSpans (spanTexts v) with
          | Some r => r
          | None => []
          end
      end
  end.

(** The test of method 3 on one link. *)
Definition isExternal (href : jsstring) : bool :=
  nonempty href && negb (includes (js "google.com") href)
  && negb (includes (js "gstatic.com") href)
  && startsWith (js "http") href.

(** [actionArea.querySelectorAll('a[href]')], scanned for the first
    external link. *)
Fixpoint firstExternal (l : list Anchor) : jsstring :=
  match l with
  | [] => []
  | link :: rest =>
      if a_inMain link && truthy (a_hrefAttr link) && isExternal (a_href link)
      then a_href link
      else firstExternal rest
  end.

Definition extractWebsite (bs : list Button) (v : Details) : jsstring :=
  match anchorFor (js "authority") (anchors v) with
  | Some authorityLink =>
      orElse (a_href authorityLink) (attrOrEmpty (a_hrefAttr authorityLink))
  | None =>
      match buttonFor (js "authority") bs with
      | Some authorityBtn =>
          let label := attrOrEmpty (btn_ariaLabel authorityBtn) in
          match urlIn label with
          | Some url => url
          | None => trim (stripLabelPrefix (js "Website:") label)
          end
      | None => firstExternal (anchors v)
      end
  end.

(** The test of one of the two candidate elements. *)
Definition showsEnd (el : option jsstring) : bool :=
  match el with
  | Some text => endPhrase text
  | None => false
  end.

Definition hasReachedEnd (v : Details) : bool :=
  if showsEnd (endEl v) then true
  else if showsEnd (endAlt v) then true
  else false.

End Panel.

(** ** The popup ([popup.js])

    The popup sends the commands and shows what the engine pushes.
    Its handlers are asynchronous; each step below is one of their
    synchronous stretches, between two [await]s, so any interleaving of
    the handlers is a sequence of steps. *)

Inductive StatusLine :=
| StatusInitial
| InProgress
| ReadyToScrape
| DoneWith (count : nat).

Inductive ProgressLine :=
| ProgressInitial
| ProgressBlank
| ProgressStarting
| ProgressText (message : Progress).

Inductive WarningLine :=
| NavigateFirst
| CannotConnect
| FailedToStart
| ErrorShown (message : ErrorText).

(** The variable [isRunning] of the popup and what it shows.
    [resetButton] is [None] when the page has no reset button, else
    whether the button is hidden; [countShown] is what [parseInt] reads
    of the count element, [None] for not-a-number; [warningShown] is
    the last text given to [showWarning] (the timer that hides it after
    five seconds is left out). *)
Record Popup := {
  p_isRunning : bool;
  startHidden : bool;
  stopHidden : bool;
  resetButton : option bool;
  csvDisabled : bool;
  excelDisabled : bool;
  jsonDisabled : bool;
  countShown : option nat;
  statusShown : StatusLine;
  progressShown : ProgressLine;
  warningShown : option WarningLine
}.

Definition showWarning (message : WarningLine) (p : Popup) : Popup :=
  {| p_isRunning := p_isRunning p; startHidden := startHidden p;
     stopHidden := stopHidden p; resetButton := resetButton p;
     csvDisabled := csvDisabled p; excelDisabled := excelDisabled p;
     jsonDisabled := jsonDisabled p; countShown := countShown p;
     statusShown := statusShown p; progressShown := progressShown p;
     warningShown := Some message |}.

Definition setResetHidden (hidden : bool) (p : Popup) : Popup :=
  {| p_isRunning := p_isRunning p; startHidden := startHidden p;
     stopHidden := stopHidden p;
     resetButton := match resetButton p with
                    | Some _ => Some hidden
                    | None => None
                    end;
     csvDisabled := csvDisabled p; excelDisabled := excelDisabled p;
     jsonDisabled := jsonDisabled p; countShown := countShown p;
     statusShown := statusShown p; progressShown := progressShown p;
     warningShown := warningShown p |}.

Definition updateResetButton (hasData : bool) (p : Popup) : Popup :=
  if hasData && negb (p_isRunning p) then setResetHidden false p
  else setResetHidden true p.

(** [parseInt(countEl.textContent, 10) > 0] *)
Definition countPositive (p : Popup) : bool :=
  match countShown p with
  | Some n => 0 <? n
  | None => false
  end.

Definition setRunningState (running : bool) (p : Popup) : Popup :=
  let p :=
    {| p_isRunning := running; startHidden := running;
       stopHidden := negb running; resetButton := resetButton p;
       csvDisabled := csvDisabled p; excelDisabled := excelDisabled p;
       jsonDisabled := jsonDisabled p; countShown := countShown p;
       statusShown := if running then InProgress else ReadyToScrape;
       progressShown := progressShown p; warningShown := warningShown p |} in
  if running then setResetHidden true p
  else updateResetButton (countPositive p) p.

Definition enableExportButtons (hasData : bool) (p : Popup) : Popup :=
  let p :=
    {| p_isRunning := p_isRunning p; startHidden := startHidden p;
       stopHidden := stopHidden p; resetButton := resetButton p;
       csvDisabled := negb hasData; excelDisabled := negb hasData;
       jsonDisabled := negb hasData; countShown := countShown p;
       statusShown := statusShown p; progressShown := progressShown p;
       warningShown := warningShown p |} in
  if negb (p_isRunning p) then updateResetButton hasData p else p.

Definition setCount (n : nat) (p : Popup) : Popup :=
  {| p_isRunning := p_isRunning p; startHidden := startHidden p;
     stopHidden := stopHidden p; resetButton := resetButton p;
     csvDisabled := csvDisabled p; excelDisabled := excelDisabled p;
     jsonDisabled := jsonDisabled p; countShown := Some n;
     statusShown := statusShown p; progressShown := progressShown p;
     warningShown := warningShown p |}.

Definition setStatus (line : StatusLine) (p : Popup) : Popup :=
  {| p_isRunning := p_isRunning p; startHidden := startHidden p;
     stopHidden := stopHidden p; resetButton := resetButton p;
     csvDisabled := csvDisabled p; excelDisabled := excelDisabled p;
     jsonDisabled := jsonDisabled p; countShown := countShown p;
     statusShown := line; progressShown := progressShown p;
     warningShown := warningShown p |}.

Definition setProgress (line : ProgressLine) (p : Popup) : Popup :=
  {| p_isRunning := p_isRunning p; startHidden := startHidden p;
     stopHidden := stopHidden p; resetButton := resetButton p;
     csvDisabled := csvDisabled p; excelDisabled := excelDisabled p;
     jsonDisabled := jsonDisabled p; countShown := countShown p;
     statusShown := statusShown p; progressShown := line;
     warningShown := warningShown p |}.

(** The listener of the popup for the messages the engine pushes. *)
Definition received (m : Push) (p : Popup) : Popup :=
  match m with
  | updateCount count =>
      enableExportButtons (0 <? count) (setCount count p)
  | updateProgress message => setProgress (ProgressText message) p
  | scrapingComplete count =>
      let p := setRunningState false p in
      let p := setStatus (DoneWith count) p in
      let p := setCount count p in
      let p := enableExportButtons (0 <? count) p in
      updateResetButton (0 <? count) p
  | scrapingError message =>
      let p := setRunningState false p in
      let p := showWarning (ErrorShown message) p in
      updateResetButton (countPositive p) p
  end.

(** The [count] and [isRunning] fields of a response of the engine;
    a response without the field reads as [undefined], which is not
    above 0, is replaced by 0 by [|| 0], and is falsy. *)
Definition responseCount (r : Response) : option nat :=
  match r with
  | status_stopped count | status_reset count | status_is _ count =>
      Some count
  | _ => None
  end.

Definition responseRunning (r : Response) : bool :=
  match r with
  | status_is running _ => running
  | _ => false
  end.

(** The synchronous stretches of the popup's handlers: no maps tab
    found, or the page cannot be reached (a warning only); the start
    button pressed, and the answer to the start command; the answer to
    the stop command, and to the status query that follows it; the
    answer to the reset command; a message pushed by the engine; the
    answer to the status query made when the popup opens. *)
Inductive PopupEvent :=
| NoMapTab
| ConnectFailed
| StartPressed
| StartAnswered (response : option Response)
| StopAnswered
| StatusAfterStop (response : option Response)
| ResetAnswered
| Received (m : Push)
| Opened (response : option Response).

Definition popupStep (p : Popup) (ev : PopupEvent) : Popup :=
  match ev with
  | NoMapTab => showWarning NavigateFirst p
  | ConnectFailed => showWarning CannotConnect p
  | StartPressed =>
      let p := setRunningState true p in
      let p := setProgress ProgressStarting p in
      let p := enableExportButtons false p in
      updateResetButton false p
  | StartAnswered response =>
      match response with
      | None => showWarning FailedToStart (setRunningState false p)
      | Some _ => p
      end
  | StopAnswered => setRunningState false p
  | StatusAfterStop response =>
      match response with
      | Some r =>
          if 0 <? default 0 (responseCount r)
          then updateResetButton true p else p
      | None => p
      end
  | ResetAnswered =>
      let p := setCount 0 p in
      let p := setProgress ProgressBlank p in
      let p := enableExportButtons false p in
      let p := updateResetButton false p in
      setStatus ReadyToScrape p
  | Received m => received m p
  | Opened response =>
      match response with
      | Some r =>
          let count := default 0 (responseCount r) in
          let p := setCount count p in
          let hasData := 0 <? count in
          let p := enableExportButtons hasData p in
          if responseRunning r then setRunningState true p
          else updateResetButton hasData p
      | None => p
      end
  end.

Definition popupRun (evs : list PopupEvent) (p : Popup) : Popup :=
  foldl popupStep p evs.

(** The popup when its script starts on a page: [let isRunning =
    false], the rest as the page has it. *)
Definition popupLoaded (page : Popup) : Popup :=
  {| p_isRunning := false; startHidden := startHidden page;
     stopHidden := stopHidden page; resetButton := resetButton page;
     csvDisabled := csvDisabled page; excelDisabled := excelDisabled page;
     jsonDisabled := jsonDisabled page; countShown := countShown page;
     statusShown := statusShown page; progressShown := progressShown page;
     warningShown := warningShown page |}.

(** The messages a command made the engine push. *)
Definition pushedBy (before after : Scraper) : list Push :=
  drop (length (outbox before)) (outbox after).

(** A page as the markup could have it: every button shown, count 0. *)
Definition freshPage : Popup :=
  {| p_isRunning := false; startHidden := false; stopHidden := true;
     resetButton := Some true; csvDisabled := true; excelDisabled := true;
     jsonDisabled := true; countShown := Some 0;
     statusShown := StatusInitial; progressShown := ProgressInitial;
     warningShown := None |}.

(** Whether the page has a reset button, and whether it is shown. *)
Definition resetPresent (p : Popup) : bool :=
  match resetButton p with
  | Some _ => true
  | None => false
  end.

Definition resetVisible (p : Popup) : bool :=
  match resetButton p with
  | Some hidden => negb hidden
  | None => false
  end.

(** The page of the popup when the engine starts a run on a page
    without a feed: the click, the error the engine pushes, and the
    answer to the command. *)
Definition startClick (env : RunEnv) (s : Scraper) : list PopupEvent :=
  let '(response, s') := onMessage startScraping env s in
  [StartPressed] ++ (Received <$> pushedBy s s')
    ++ [StartAnswered (Some response)].

(** A click on the stop button: the engine stops and pushes its
    progress line, the popup gets the answer, asks for the status and
    gets that answer. *)
Definition stopClick (env : RunEnv) (s : Scraper) : list PopupEvent :=
  let '(_, s1) := onMessage stopScraping env s in
  let '(status, _) := onMessage getStatus env s1 in
  (Received <$> pushedBy s s1) ++ [StopAnswered; StatusAfterStop (Some status)].

(** ** Traversals in progress

    [start] is asynchronous and the listener does not await it: while
    a traversal is suspended at an [await], the listener handles
    commands, and a [startScraping] it accepts begins another
    traversal on the same instance, whose stretches then alternate
    with those of the first.  Here a traversal is cut at its four
    awaits (lines 383, 389, 495 and 507); what runs between two of
    them is one stretch, and nothing else runs during a stretch.

    The observations of a traversal are those of a [RunEnv].  The
    commands a [CardEnv] or a [CycleEnv] lists for a wait are handled
    at the end of that wait, just before the traversal resumes;
    commands and stretches of other traversals that a schedule places
    in the wait come before them. *)

(** The place in the [for] loop: the index [i], the card in hand, the
    cards after it, [cards.length] and [newDataThisRound]. *)
Record Frame := {
  f_index : nat;
  f_card : CardEnv;
  f_rest : list CardEnv;
  f_total : nat;
  f_new : nat
}.

(** Where a traversal is suspended, with the cycle it is in and the
    cycles to come: in [scrapeCard] at the poll (line 383) or at the
    extra wait (line 389), in the [for] loop at the delay after a card
    (line 495), or in [scrollFeed] (lines 507 and 426).
    [BeyondScript] stands for a traversal back at the head of its
    [while] loop, running, of which the script of observations says no
    more. *)
Inductive Await :=
| AtDetailWait (f : Frame) (c : CycleEnv) (cs : list CycleEnv)
| AtSettle (f : Frame) (c : CycleEnv) (cs : list CycleEnv)
| AtDelay (f : Frame) (c : CycleEnv) (cs : list CycleEnv)
| AtScroll (newDataThisRound : nat) (c : CycleEnv) (cs : list CycleEnv)
| BeyondScript.

(** How a stretch ends: at the next await, or with the loop left. *)
Inductive Next :=
| Suspends (a : Await)
| Leaves (how : Terminal).

(** Lines 521 to 528: what [start] does once the loop is left. *)
Definition conclude (how : Terminal) (s : Scraper) : Scraper :=
  match how with
  | Pending => s
  | FatalError message =>
      let s := sendError (ErrorWith message) (log (LogFatal message) s) in
      sendComplete
        (log (LogComplete (length (scrapedData s))) (setRunning false s))
  | _ =>
      sendComplete
        (log (LogComplete (length (scrapedData s))) (setRunning false s))
  end.

(** Lines 498 to 507: from the end of the [for] loop to the await of
    the scroll. *)
Definition afterFor (newDataThisRound : nat) (c : CycleEnv)
    (cs : list CycleEnv) (st : Loop) : Loop * Next :=
  match fault c with
  | Some message => (st, Leaves (FatalError message))
  | None =>
      if hasReachedEnd c
      then (onEngine (log LogReachedEnd) st, Leaves Exhausted)
      else (onEngine (sendProgress ScrollingForMore) st,
            Suspends (AtScroll newDataThisRound c cs))
  end.

(** Lines 475 to 495 with lines 363 to 383: the [for] loop from index
    [i] up to the first await it reaches.  A card whose key is known
    takes [continue]; for another one [scrapeCard] is called, which
    tests the key again, reads the name shown, clicks and suspends at
    the poll; when it returns or throws at once, the loop suspends at
    the delay. *)
Fixpoint forFrom (i : nat) (rest : list CardEnv) (total : nat)
    (newDataThisRound : nat) (c : CycleEnv) (cs : list CycleEnv)
    (st : Loop) : Loop * Next :=
  match rest with
  | [] => afterFor newDataThisRound c cs st
  | e :: rest' =>
      if negb (isRunning (engine st))
      then afterFor newDataThisRound c cs st
      else
        let st := setCursor (i + 1)
                    (Advance i (lastProcessedIndex st) (i + 1)) st in
        let uniqueUrl := getUniqueUrl (href (card e)) in
        if bool_decide (uniqueUrl ∈ scrapedUrls (engine st))
        then forFrom (S i) rest' total newDataThisRound c cs st
        else
          let st := onEngine (sendProgress (ScrapingCardOf (i + 1) total)) st in
          let st := note (Attempt i (lastProcessedIndex st)) st in
          let f := {| f_index := i; f_card := e; f_rest := rest';
                      f_total := total; f_new := newDataThisRound |} in
          if bool_decide (uniqueUrl ∈ scrapedUrls (engine st))
          then (st, Suspends (AtDelay f c cs))
          else
            match clickThrows e with
            | Some message =>
                (onEngine (log (LogCardError message)) st,
                 Suspends (AtDelay f c cs))
            | None => (st, Suspends (AtDetailWait f c cs))
            end
  end.

(** The loop state when [scrapeCard] is called for the card at index
    [i], the cursor being already advanced. *)
Definition atCard (i total : nat) (st : Loop) : Loop :=
  note (Attempt i (lastProcessedIndex st))
    (onEngine (sendProgress (ScrapingCardOf (i + 1) total)) st).

(** Lines 463 to 475: the test of the [while] loop and the start of a
    cycle. *)
Definition whileHead (cs : list CycleEnv) (st : Loop) : Loop * Next :=
  if negb (isRunning (engine st)) then (st, Leaves UserStop)
  else
    match cs with
    | [] => (st, Suspends BeyondScript)
    | c :: cs' =>
        let visible := length (cards c) in
        let cursor := lastProcessedIndex st in
        let cursor' := if visible <? cursor then 0 else cursor in
        let st := setCursor cursor' (CycleStart cursor visible cursor') st in
        let st := onEngine (sendProgress (ProcessingVisible visible)) st in
        forFrom cursor' (drop cursor' (cards c)) visible 0 c cs' st
    end.

(** Lines 383 to 389: the poll has resolved. *)
Definition afterDetailWait (f : Frame) (st : Loop) : Loop :=
  let e := f_card f in
  let previousName := extractName (docBefore e) in
  let loaded := waitForDetailPanel previousName (ticks e) in
  if loaded then st
  else onEngine (log (LogNotLoaded (getUniqueUrl (href (card e))))) st.

(** Lines 389 to 420 and 489 to 495: the rest of [scrapeCard], and
    the count of the new record in the [for] loop.  The key is not
    tested again before the record is pushed. *)
Definition afterSettle (f : Frame) (st : Loop) : Loop * nat :=
  let e := f_card f in
  let rawUrl := href (card e) in
  let uniqueUrl := getUniqueUrl rawUrl in
  let previousName := extractName (docBefore e) in
  let outerPhone := extractPhoneFromCard (card e) in
  let currentName := extractName (docAfter e) in
  if jsstring_eqb currentName previousName && nonempty previousName
  then (onEngine (log (LogDuplicateContent previousName)) st, f_new f)
  else
    let data := extractAllData (docAfter e) in
    let data :=
      if negb (nonempty (phone data)) && nonempty outerPhone
      then withPhone outerPhone data else data in
    if nonempty (name data)
    then (onEngine (commit uniqueUrl (withSource rawUrl (now e) data)) st,
          S (f_new f))
    else (st, f_new f).

(** Lines 508 to 520: the comparison after the scroll, and back to
    the head of the [while] loop. *)
Definition afterScroll (newDataThisRound : nat) (c : CycleEnv)
    (cs : list CycleEnv) (st : Loop) : Loop * Next :=
  if (afterCount c <=? beforeCount c) && (newDataThisRound =? 0)
  then
    let fails := consecutiveScrollFails st + 1 in
    let st := setFails fails st in
    let st := onEngine (log (LogNoNewCards fails)) st in
    if MAX_SCROLL_FAILS <=? fails
    then (onEngine (log LogMaxScroll) st, Leaves Stalled)
    else whileHead cs st
  else whileHead cs (setFails 0 st).

Definition withNew (newDataThisRound : nat) (f : Frame) : Frame :=
  {| f_index := f_index f; f_card := f_card f; f_rest := f_rest f;
     f_total := f_total f; f_new := newDataThisRound |}.

(** One stretch of a suspended traversal: the commands listed for the
    wait that ends, then the code up to the next await. *)
Definition resume (a : Await) (st : Loop) : Loop * Next :=
  match a with
  | AtDetailWait f c cs =>
      let st := onEngine (interrupts (duringDetailWait (f_card f))) st in
      (afterDetailWait f st, Suspends (AtSettle f c cs))
  | AtSettle f c cs =>
      let st := onEngine (interrupts (duringSettle (f_card f))) st in
      let '(st, newDataThisRound) := afterSettle f st in
      (st, Suspends (AtDelay (withNew newDataThisRound f) c cs))
  | AtDelay f c cs =>
      let st := onEngine (interrupts (duringDelay (f_card f))) st in
      forFrom (S (f_index f)) (f_rest f) (f_total f) (f_new f) c cs st
  | AtScroll newDataThisRound c cs =>
      let st := onEngine (interrupts (duringScroll c)) st in
      afterScroll newDataThisRound c cs st
  | BeyondScript => (st, Suspends BeyondScript)
  end.

(** A suspended traversal: where it waits and the locals of its call
    of [start]. *)
Record Task := {
  point : Await;
  t_fails : nat;
  t_cursor : nat;
  t_history : list Event
}.

(** The instance and the traversals suspended on it. *)
Record World := {
  shared : Scraper;
  pool : list Task
}.

Definition freshWorld : World := {| shared := newScraper; pool := [] |}.

Definition loopOf (t : Task) (s : Scraper) : Loop :=
  {| engine := s; consecutiveScrollFails := t_fails t;
     lastProcessedIndex := t_cursor t; history := t_history t |}.

(** What a stretch leaves: the instance, and the traversal if it is
    suspended again.  A traversal that left its loop concludes in the
    same stretch. *)
Definition outcomeOf (r : Loop * Next) : Scraper * option Task :=
  let '(st, next) := r in
  match next with
  | Suspends a =>
      (engine st,
       Some {| point := a; t_fails := consecutiveScrollFails st;
               t_cursor := lastProcessedIndex st;
               t_history := history st |})
  | Leaves how => (conclude how (engine st), None)
  end.

(** Lines 444 to 463: a call of [start], up to its first await. *)
Definition launch (env : RunEnv) (s : Scraper) : Scraper * option Task :=
  if isRunning s then (log LogAlreadyRunning s, None)
  else if negb (feed env) then (sendError NoSearchResults s, None)
  else
    outcomeOf
      (whileHead (cycles env) (enterLoop (log LogStarted (setRunning true s)))).

(** Lines 604 to 653: the listener, on an instance with traversals
    suspended on it.  An accepted [startScraping] adds a traversal;
    [env] is what that traversal will observe. *)
Definition deliver (request : Request) (env : RunEnv) (w : World)
  : Response * World :=
  let s := shared w in
  match request with
  | startScraping =>
      if isRunning s then (status_already_running, w)
      else
        let '(s, t) := launch env s in
        (status_started,
         {| shared := s; pool := pool w ++ option_list t |})
  | stopScraping =>
      let s := stop s in
      (status_stopped (length (scrapedData s)),
       {| shared := s; pool := pool w |})
  | resetData => (status_reset 0, {| shared := reset s; pool := pool w |})
  | getStatus => (status_is (isRunning s) (length (scrapedData s)), w)
  | export format =>
      if (length (scrapedData s) =? 0) then (status_no_data, w)
      else
        let s :=
          match format with
          | FormatCsv => exportCSV s
          | FormatExcel => exportExcelCSV s
          | FormatJson => exportJSON s
          | FormatOther => s
          end in
        (status_exported, {| shared := s; pool := pool w |})
  | otherAction => (status_unknown_action, w)
  end.

(** What happens next on the page: the listener receives a command,
    or the timer of the [n]-th suspended traversal fires. *)
Inductive Step :=
| Command (request : Request) (env : RunEnv)
| Wake (n : nat).

Definition wake (n : nat) (w : World) : World :=
  match pool w !! n with
  | None => w
  | Some t =>
      let '(s, t') := outcomeOf (resume (point t) (loopOf t (shared w))) in
      {| shared := s;
         pool := match t' with
                 | Some t' => <[n := t']> (pool w)
                 | None => delete n (pool w)
                 end |}
  end.

Definition exec (w : World) (step : Step) : World :=
  match step with
  | Command request env => snd (deliver request env w)
  | Wake n => wake n w
  end.

Definition play (steps : list Step) (w : World) : World :=
  foldl exec w steps.

(** A traversal left alone for [n] stretches: no other traversal and
    no command but those its own script lists. *)
Fixpoint alone (n : nat) (r : Loop * Next) : Loop * Next :=
  match n with
  | 0 => r
  | S n' =>
      match snd r with
      | Suspends a => alone n' (resume a (fst r))
      | Leaves _ => r
      end
  end.

(** [Pending] is how the functions above report a script that ends
    with the loop still running. *)
Definition nextOf (how : Terminal) : Next :=
  match how with
  | Pending => Suspends BeyondScript
  | _ => Leaves how
  end.

(** No [startScraping] is accepted while a traversal is suspended. *)
Fixpoint exclusive (steps : list Step) (w : World) : Prop :=
  match steps with
  | [] => True
  | step :: steps' =>
      match step with
      | Command startScraping env =>
          isRunning (shared w) = false -> feed env = true -> pool w = []
      | _ => True
      end
      /\ exclusive steps' (exec w step)
  end.

(** The key a traversal suspended inside [scrapeCard] is about to
    store is not in the dedup set. *)
Definition keyPending (a : Await) (s : Scraper) : Prop :=
  match a with
  | AtDetailWait f _ _ | AtSettle f _ _ =>
      getUniqueUrl (href (card (f_card f))) ∉ scrapedUrls s
  | _ => True
  end.

(** The start button pressed twice with a stop between, while the
    first traversal waits for the panel of its first card; then the
    timers of both traversals fire, twice each. *)
Definition restartDuringCard : list Step :=
  [Command startScraping {| feed := true; cycles := [quietCycle [placeA_en]] |};
   Command stopScraping noFeed;
   Command startScraping {| feed := true; cycles := [quietCycle [placeA_en]] |};
   Wake 0; Wake 0; Wake 1; Wake 1].

(** The instance with the traversal a stretch leaves, if any. *)
Definition worldOf (r : Loop * Next) : World :=
  {| shared := fst (outcomeOf r); pool := option_list (snd (outcomeOf r)) |}.

(** Two instances with the same record list and dedup set. *)
Definition sameStore (s s' : Scraper) : Prop :=
  scrapedData s' = scrapedData s /\ scrapedUrls s' = scrapedUrls s.

(** A feed with the cards of places A and B, and the start button
    pressed twice with a stop between while the first traversal waits
    for the panel of place A; the first traversal then resumes three
    times. *)
Definition feedAB : RunEnv :=
  {| feed := true; cycles := [quietCycle [placeA_en; placeB]] |}.

Definition restartKeepsGoing : list Step :=
  [Command startScraping feedAB; Command stopScraping noFeed;
   Command startScraping feedAB; Wake 0; Wake 0; Wake 0].

(** One traversal of the feed with place A, stopped after its commit
    and left to end, then a second traversal of the same feed. *)
Definition oneAfterTheOther : list Step :=
  [Command startScraping {| feed := true; cycles := [quietCycle [placeA_en]] |};
   Wake 0; Wake 0; Command stopScraping noFeed; Wake 0; Wake 0;
   Command startScraping {| feed := true; cycles := [quietCycle [placeA_en]] |};
   Wake 0].

(** A stretch that leaves the record list and the dedup set of [s0]
    as they are and, if it suspends inside [scrapeCard], does so with
    a key that is not in the set. *)
Definition tidy (s0 : Scraper) (r : Loop * Next) : Prop :=
  sameStore s0 (engine (fst r))
  /\ match snd r with
     | Suspends a => keyPending a (engine (fst r))
     | Leaves _ => True
     end.

(** The store is consistent, at most one traversal is suspended, and
    if it is suspended inside [scrapeCard] its key is not in the set. *)
Definition guarded (w : World) : Prop :=
  storeConsistent (shared w)
  /\ match pool w with
     | [] => True
     | [t] => keyPending (point t) (shared w)
     | _ => False
     end.

(** The record of place A as a traversal of [placeA_en] stores it. *)
Definition recordA : Place :=
  withSource (href (card placeA_en)) (now placeA_en) (candidate placeA_en).

(** Left alone for [n] stretches from the await [a], the traversal has
    left its loop, not for want of script, without another call of
    [scrapeCard] or any other move of its cursor, and with [isRunning]
    still cleared. *)
Definition endsStopped (n : nat) (st : Loop) (a : Await) : Prop :=
  exists st' how,
    alone n (st, Suspends a) = (st', Leaves how)
    /\ how <> Pending
    /\ history st' = history st
    /\ isRunning (engine st') = false
    /\ isRunning (conclude how (engine st')) = false.

(** * Properties *)

(** ** Strings *)

Lemma nonempty_true (s : jsstring) : nonempty s = true <-> s <> [].
Proof. destruct s; simpl; split; congruence. Qed.

Lemma nonempty_false (s : jsstring) : nonempty s = false <-> s = [].
Proof. destruct s; simpl; split; congruence. Qed.

Lemma jsstring_eqb_eq (a b : jsstring) : jsstring_eqb a b = true <-> a = b.
Proof. unfold jsstring_eqb. apply bool_decide_eq_true. Qed.

Lemma takeWhile_dropWhile p (s : jsstring) :
  takeWhile p s ++ dropWhile p s = s.
Proof.
  induction s as [|c r IH]; simpl; [done|].
  destruct (p c); simpl; [by rewrite IH | done].
Qed.

Lemma takeWhile_all p (s : jsstring) : forallb p (takeWhile p s) = true.
Proof.
  induction s as [|c r IH]; simpl; [done|].
  destruct (p c) eqn:E; simpl; [by rewrite E | done].
Qed.

Lemma takeWhile_app_stop p (a b : jsstring) c :
  forallb p a = true -> p c = false -> takeWhile p (a ++ c :: b) = a.
Proof.
  induction a as [|x a IH]; simpl; intros Ha Hc.
  - by rewrite Hc.
  - apply andb_prop in Ha as [Hx Ha]. rewrite Hx. by rewrite IH.
Qed.

Lemma takeWhile_id p (a : jsstring) :
  forallb p a = true -> takeWhile p a = a.
Proof.
  induction a as [|x a IH]; simpl; [done|].
  intros H. apply andb_prop in H as [Hx Ha]. rewrite Hx. by rewrite IH.
Qed.

(** The canonical key of a URL with a query is the text before the
    question mark. *)
Lemma getUniqueUrl_query (base query : jsstring) :
  QUESTION ∉ base ->
  getUniqueUrl (base ++ QUESTION :: query) = base.
Proof.
  intros Hbase. unfold getUniqueUrl.
  replace (nonempty (base ++ QUESTION :: query)) with true
    by (by destruct base).
  simpl negb. cbv iota. unfold splitHead.
  apply takeWhile_app_stop.
  - apply forallb_forall. intros c' Hin.
    apply negb_true_iff, N.eqb_neq. intros ->.
    apply Hbase. by apply list_elem_of_In.
  - by rewrite N.eqb_refl.
Qed.

Lemma getUniqueUrl_plain (u : jsstring) :
  QUESTION ∉ u -> getUniqueUrl u = u.
Proof.
  intros Hu. unfold getUniqueUrl. destruct u as [|c r]; [done|].
  simpl negb. cbv iota. unfold splitHead. apply takeWhile_id.
  apply forallb_forall. intros c' Hin.
  apply negb_true_iff, N.eqb_neq. intros ->.
  apply Hu. by apply list_elem_of_In.
Qed.

(** [scrapeCard], read along its exits. *)
Lemma scrapeCard_unfold e s :
  scrapeCard e s =
  let key := getUniqueUrl (href (card e)) in
  if bool_decide (key ∈ scrapedUrls s) then (Returns false, s)
  else
    match clickThrows e with
    | Some message => (Throws message, s)
    | None =>
        if jsstring_eqb (extractName (docAfter e)) (extractName (docBefore e))
           && nonempty (extractName (docBefore e))
        then (Returns false,
              log (LogDuplicateContent (extractName (docBefore e)))
                  (afterWaits e s))
        else if nonempty (name (candidate e))
        then (Returns true,
              commit key (withSource (href (card e)) (now e) (candidate e))
                     (afterWaits e s))
        else (Returns false, afterWaits e s)
    end.
Proof. reflexivity. Qed.

Lemma candidate_name e : name (candidate e) = extractName (docAfter e).
Proof. unfold candidate. by destruct (_ && _). Qed.

(** ** The traversal loop, one iteration at a time *)

Lemma forLoop_cons i e rest total nd st :
  forLoop i (e :: rest) total nd st =
  if negb (isRunning (engine st)) then (st, nd)
  else if bool_decide (getUniqueUrl (href (card e)) ∈ scrapedUrls (engine st))
  then forLoop (S i) rest total nd (advance i st)
  else forLoop (S i) rest total
         (tally (resultOfCard i e total (advance i st)) nd)
         (afterCard i e total (advance i st)).
Proof.
  simpl. destruct (negb _); [done|].
  change (engine (setCursor _ _ st)) with (engine st).
  case_bool_decide; [done|].
  unfold afterCard, resultOfCard, advance. simpl.
  by destruct (scrapeCard e _) as [[[]|] eng].
Qed.

Section EngineInvariant.
Variable P : Scraper -> Prop.
Hypothesis P_send : forall m s, P s -> P (send m s).
Hypothesis P_log : forall l s, P s -> P (log l s).
Hypothesis P_interrupts : forall cmds s, P s -> P (interrupts cmds s).
Hypothesis P_scrapeCard : forall e s, P s -> P (snd (scrapeCard e s)).

Lemma afterCard_inv i e total st :
  P (engine st) -> P (engine (afterCard i e total st)).
Proof.
  intros H. unfold afterCard. simpl.
  apply P_interrupts.
  destruct (fst (scrapeCard e _)); simpl;
    [| apply P_log]; by apply P_scrapeCard, P_send.
Qed.

Lemma forLoop_inv rest : forall i total nd st,
  P (engine st) -> P (engine (fst (forLoop i rest total nd st))).
Proof.
  induction rest as [|e rest IH]; intros i total nd st H; [done|].
  rewrite forLoop_cons.
  destruct (negb _); [done|].
  case_bool_decide; apply IH; [done|].
  by apply afterCard_inv.
Qed.

Lemma processVisible_inv c st :
  P (engine st) -> P (engine (fst (processVisible c st))).
Proof.
  intros H. unfold processVisible. apply forLoop_inv. simpl.
  by apply P_send.
Qed.

Lemma cycle_inv c st :
  P (engine st) -> P (engine (fst (cycle c st))).
Proof.
  intros H. unfold cycle.
  pose proof (processVisible_inv c st H) as H'.
  destruct (processVisible c st) as [st' nd]. simpl in H'.
  destruct (fault c); [done|].
  destruct (hasReachedEnd c); simpl; [by apply P_log|].
  destruct (_ && _); simpl.
  - case_match; simpl;
      repeat apply P_log; by apply P_interrupts, P_send.
  - by apply P_interrupts, P_send.
Qed.

Lemma whileLoop_inv cs : forall st,
  P (engine st) -> P (engine (fst (whileLoop cs st))).
Proof.
  induction cs as [|c cs IH]; intros st H; simpl.
  - by destruct (negb _).
  - destruct (negb _); [done|].
    pose proof (cycle_inv c st H) as H'.
    destruct (cycle c st) as [st' [t|]]; simpl in *; [done|].
    by apply IH.
Qed.
End EngineInvariant.

(** ** The store under the operations of the engine *)

Lemma commit_data k d s :
  scrapedData (commit k d s) = scrapedData s ++ [d].
Proof. reflexivity. Qed.

Lemma commit_urls k d s :
  scrapedUrls (commit k d s) = {[k]} ∪ scrapedUrls s.
Proof. reflexivity. Qed.

Lemma commit_outbox k d s :
  outbox (commit k d s)
  = outbox s ++ [updateCount (S (length (scrapedData s)))].
Proof.
  unfold commit, sendCount. simpl. rewrite length_app. simpl.
  by rewrite Nat.add_1_r.
Qed.

(** Commands received while waiting never add a key. *)
Lemma interrupts_no_new_key cmds s k :
  k ∉ scrapedUrls s -> k ∉ scrapedUrls (interrupts cmds s).
Proof.
  unfold interrupts. revert s.
  induction cmds as [|i cmds IH]; simpl; intros s H; [done|].
  apply IH. destruct i; simpl; [done | apply not_elem_of_empty].
Qed.

Lemma afterWaits_no_new_key e s k :
  k ∉ scrapedUrls s -> k ∉ scrapedUrls (afterWaits e s).
Proof.
  intros H. unfold afterWaits.
  apply interrupts_no_new_key.
  destruct (waitForDetailPanel _ _); simpl;
    by apply interrupts_no_new_key.
Qed.

Section StoreInvariant.
(** A property of the store that holds of the empty store and
    survives the commit of a named record under a fresh key holds
    after every command. *)
Variable J : list Place -> gset jsstring -> Prop.
Hypothesis J_empty : J [] ∅.
Hypothesis J_commit : forall data urls d,
  J data urls -> keyOf d ∉ urls -> name d <> [] ->
  J (data ++ [d]) ({[keyOf d]} ∪ urls).

Lemma inv_same_store (s s' : Scraper) :
  scrapedData s' = scrapedData s -> scrapedUrls s' = scrapedUrls s ->
  onStore J s -> onStore J s'.
Proof. unfold onStore. by intros -> ->. Qed.

Lemma inv_new : onStore J newScraper.
Proof. exact J_empty. Qed.

Lemma inv_send m s : onStore J s -> onStore J (send m s).
Proof. by apply inv_same_store. Qed.

Lemma inv_log l s : onStore J s -> onStore J (log l s).
Proof. by apply inv_same_store. Qed.

Lemma inv_setRunning b s : onStore J s -> onStore J (setRunning b s).
Proof. by apply inv_same_store. Qed.

Lemma inv_downloadFile f s : onStore J s -> onStore J (downloadFile f s).
Proof. by apply inv_same_store. Qed.

Lemma inv_reset s : onStore J (reset s).
Proof. exact J_empty. Qed.

Lemma inv_stop s : onStore J s -> onStore J (stop s).
Proof. by apply inv_same_store. Qed.

Lemma inv_interrupts cmds s : onStore J s -> onStore J (interrupts cmds s).
Proof.
  unfold interrupts. revert s.
  induction cmds as [|i cmds IH]; simpl; intros s H; [done|].
  apply IH. destruct i; [by apply inv_stop | apply inv_reset].
Qed.

Lemma inv_afterWaits e s : onStore J s -> onStore J (afterWaits e s).
Proof.
  intros H. unfold afterWaits. apply inv_interrupts.
  destruct (waitForDetailPanel _ _);
    [| apply inv_log]; by apply inv_interrupts.
Qed.

Lemma inv_scrapeCard e s : onStore J s -> onStore J (snd (scrapeCard e s)).
Proof.
  intros H. rewrite scrapeCard_unfold. cbv zeta.
  case_bool_decide as Hkey; [done|].
  destruct (clickThrows e); [done|].
  destruct (_ && _); cbn [snd].
  { by apply inv_log, inv_afterWaits. }
  destruct (nonempty (name (candidate e))) eqn:Hname; cbn [snd].
  - unfold onStore. rewrite commit_data, commit_urls.
    apply (J_commit _ _ (withSource (href (card e)) (now e) (candidate e))).
    + by apply inv_afterWaits.
    + by apply afterWaits_no_new_key.
    + by apply nonempty_true.
  - by apply inv_afterWaits.
Qed.

Lemma inv_start env s : onStore J s -> onStore J (final (start env s)).
Proof.
  intros H. unfold start.
  destruct (isRunning s); cbn [final]; [by apply inv_log|].
  destruct (negb (feed env)); cbn [final]; [by apply inv_send|].
  pose proof (whileLoop_inv (onStore J) inv_send inv_log inv_interrupts
                inv_scrapeCard (cycles env) (loopEntry s)) as H'.
  unfold loopEntry in H'.
  destruct (whileLoop _ _) as [st t]. cbn [fst final] in *.
  assert (onStore J (engine st)) as Hst
    by (by apply H', inv_log, inv_setRunning).
  destruct t; try done;
    repeat first [apply inv_send | apply inv_log
                 | apply inv_setRunning]; done.
Qed.

Lemma inv_onMessage request env s :
  onStore J s -> onStore J (snd (onMessage request env s)).
Proof.
  intros H. destruct request; unfold onMessage; cbv zeta; cbn [snd].
  - destruct (isRunning s); cbn [snd]; [done | by apply inv_start].
  - by apply inv_stop.
  - apply inv_reset.
  - done.
  - destruct (_ =? 0); cbn [snd]; [done|].
    destruct format; try done;
      by apply inv_log, inv_downloadFile.
  - done.
Qed.

Lemma inv_reachable s : reachable s -> onStore J s.
Proof.
  induction 1 as [|request env s _ IH]; [apply inv_new|].
  by apply inv_onMessage.
Qed.
End StoreInvariant.

Lemma keysConsistent_commit data urls d :
  keysConsistent data urls -> keyOf d ∉ urls -> name d <> [] ->
  keysConsistent (data ++ [d]) ({[keyOf d]} ∪ urls).
Proof.
  intros [Hnd Hset] Hfresh _. unfold keysConsistent.
  rewrite fmap_app. simpl. split.
  - apply NoDup_app. repeat split; [done| |apply NoDup_singleton].
    intros x Hx Hx'. apply list_elem_of_singleton in Hx' as ->.
    by apply Hfresh, Hset.
  - intros k'.
    rewrite elem_of_union, elem_of_singleton, elem_of_app,
      list_elem_of_singleton, (Hset k').
    tauto.
Qed.

Lemma keysConsistent_empty : keysConsistent [] ∅.
Proof.
  split; simpl; [constructor|].
  intros k. split; intros H; [by apply not_elem_of_empty in H|].
  by apply not_elem_of_nil in H.
Qed.

Lemma namesPresent_commit data urls d :
  namesPresent data urls -> keyOf d ∉ urls -> name d <> [] ->
  namesPresent (data ++ [d]) ({[keyOf d]} ∪ urls).
Proof.
  intros H _ Hname. apply Forall_app. split; [done|]. by constructor.
Qed.

Lemma namesPresent_empty : namesPresent [] ∅.
Proof. constructor. Qed.

Lemma filter_absent_key {A B} `{EqDecision B} (f : A -> B) (l : list A)
    (k : B) :
  k ∉ f <$> l -> filter (fun x => f x = k) l = [].
Proof.
  induction l as [|x l IH]; [done|].
  rewrite fmap_cons, not_elem_of_cons. intros [Hx Hl].
  rewrite filter_cons_False by congruence. by apply IH.
Qed.

Lemma NoDup_fmap_filter_length {A B} `{EqDecision B} (f : A -> B)
    (l : list A) (k : B) :
  NoDup (f <$> l) -> length (filter (fun x => f x = k) l) <= 1.
Proof.
  induction l as [|x l IH]; intros Hnd; [simpl; lia|].
  rewrite fmap_cons in Hnd. apply NoDup_cons in Hnd as [Hx Hnd].
  destruct (decide (f x = k)) as [Hk|Hk].
  - rewrite filter_cons_True by done.
    rewrite filter_absent_key by (by rewrite <- Hk). simpl. lia.
  - rewrite filter_cons_False by done. by apply IH.
Qed.

(** ** Deduplication and the name gate *)

Lemma scrapeCard_known_key e s :
  getUniqueUrl (href (card e)) ∈ scrapedUrls s ->
  scrapeCard e s = (Returns false, s).
Proof.
  intros H. rewrite scrapeCard_unfold. cbv zeta.
  by rewrite bool_decide_eq_true_2.
Qed.

Lemma scrapeCard_true_iff e s :
  fst (scrapeCard e s) = Returns true
  <-> reachesNameTest e s = true /\ nonempty (name (candidate e)) = true.
Proof.
  rewrite scrapeCard_unfold. unfold reachesNameTest. cbv zeta.
  destruct (bool_decide _); cbn; [intuition congruence|].
  destruct (clickThrows e); cbn; [intuition congruence|].
  destruct (_ && _); cbn; [intuition congruence|].
  destruct (nonempty _); cbn; intuition congruence.
Qed.

Lemma scrapeCard_at_name_test e s :
  reachesNameTest e s = true ->
  scrapeCard e s =
  if nonempty (name (candidate e))
  then (Returns true,
        commit (getUniqueUrl (href (card e)))
               (withSource (href (card e)) (now e) (candidate e))
               (afterWaits e s))
  else (Returns false, afterWaits e s).
Proof.
  unfold reachesNameTest. rewrite scrapeCard_unfold. cbv zeta.
  destruct (bool_decide _); cbn; [done|].
  destruct (clickThrows e); cbn; [done|].
  by destruct (_ && _).
Qed.

Lemma interrupts_nil s : interrupts [] s = s.
Proof. reflexivity. Qed.

(** C2. Name gate: every record in a reachable store has a non-empty
    name, and [scrapeCard] keeps it so; a call that gets to the test of
    the name commits (appends the record, adds its canonical key to the
    dedup set, sends the count) when the extracted name is non-empty
    and otherwise returns false with the instance as the waits left
    it; the call returns true exactly when it gets to that test with a
    non-empty name; and when no command arrives during the waits they
    leave the record list, the dedup set and the outbox untouched. *)
Theorem name_gate :
  (forall s, reachable s -> allNamed s)
  /\ (forall e s, allNamed s -> allNamed (snd (scrapeCard e s)))
  /\ (forall e s,
        reachesNameTest e s = true ->
        let s1 := afterWaits e s in
        let key := getUniqueUrl (href (card e)) in
        let record := withSource (href (card e)) (now e) (candidate e) in
        name record = extractName (docAfter e)
        /\ (name record <> [] ->
            scrapeCard e s = (Returns true, commit key record s1)
            /\ scrapedData (commit key record s1) = scrapedData s1 ++ [record]
            /\ scrapedUrls (commit key record s1) = {[key]} ∪ scrapedUrls s1
            /\ outbox (commit key record s1)
               = outbox s1 ++ [updateCount (S (length (scrapedData s1)))])
        /\ (name record = [] -> scrapeCard e s = (Returns false, s1)))
  /\ (forall e s,
        fst (scrapeCard e s) = Returns true
        <-> reachesNameTest e s = true /\ extractName (docAfter e) <> [])
  /\ (forall e s,
        duringDetailWait e = [] -> duringSettle e = [] ->
        scrapedData (afterWaits e s) = scrapedData s
        /\ scrapedUrls (afterWaits e s) = scrapedUrls s
        /\ outbox (afterWaits e s) = outbox s).
Proof.
  split; [|split; [|split; [|split]]].
  - apply inv_reachable;
      [apply namesPresent_empty | apply namesPresent_commit].
  - intros e s.
    apply (inv_scrapeCard namesPresent namesPresent_empty
             namesPresent_commit).
  - intros e s Hreach s1 key record.
    pose proof (scrapeCard_at_name_test e s Hreach) as Hcall.
    split; [apply candidate_name|]. split.
    + intros Hname. apply nonempty_true in Hname.
      change (name record) with (name (candidate e)) in Hname.
      rewrite Hname in Hcall.
      split; [exact Hcall|]. split; [apply commit_data|].
      split; [apply commit_urls | apply commit_outbox].
    + intros Hname. apply nonempty_false in Hname.
      change (name record) with (name (candidate e)) in Hname.
      by rewrite Hname in Hcall.
  - intros e s. rewrite scrapeCard_true_iff, nonempty_true, candidate_name.
    reflexivity.
  - intros e s Hw Hs. unfold afterWaits. rewrite Hw, Hs.
    rewrite !interrupts_nil. by destruct (waitForDetailPanel _ _).
Qed.

Lemma name_gate_witness :
  allNamed storeWithA
  /\ scrapeCard placeNameless storeWithA
     = (Returns false, afterWaits placeNameless storeWithA)
  /\ scrapedData (afterWaits placeNameless storeWithA)
     = scrapedData storeWithA
  /\ fst (scrapeCard placeA_en newScraper) = Returns true.
Proof.
  destruct name_gate as (Hreach & _ & Hgate & Hiff & Hquiet).
  split; [|split; [|split]].
  - apply Hreach. apply reachable_step, reachable_new.
  - destruct (Hgate placeNameless storeWithA) as (_ & _ & Hempty).
    { vm_compute. reflexivity. }
    apply Hempty. reflexivity.
  - by destruct (Hquiet placeNameless storeWithA) as (Hdata & _ & _).
  - apply Hiff. split; [vm_compute; reflexivity|].
    vm_compute. discriminate.
Defined.

(** ** The stall counter *)

Lemma afterCard_fails i e total st :
  consecutiveScrollFails (afterCard i e total st)
  = consecutiveScrollFails st.
Proof. unfold afterCard. cbv zeta. by destruct (fst _). Qed.

Lemma forLoop_fails rest : forall i total nd st,
  consecutiveScrollFails (fst (forLoop i rest total nd st))
  = consecutiveScrollFails st.
Proof.
  induction rest as [|e rest IH]; intros i total nd st; [done|].
  rewrite forLoop_cons.
  destruct (negb _); [done|].
  case_bool_decide; rewrite IH; [done|]. by rewrite afterCard_fails.
Qed.

Lemma processVisible_fails c st :
  consecutiveScrollFails (fst (processVisible c st))
  = consecutiveScrollFails st.
Proof. unfold processVisible. by rewrite forLoop_fails. Qed.

Lemma cycle_stalls c st :
  stalls c st = true ->
  consecutiveScrollFails (fst (cycle c st)) = consecutiveScrollFails st + 1
  /\ snd (cycle c st)
     = if MAX_SCROLL_FAILS <=? consecutiveScrollFails st + 1
       then Some Stalled else None.
Proof.
  unfold stalls, cycle. intros H.
  pose proof (processVisible_fails c st) as Hf.
  destruct (processVisible c st) as [st1 nd]. cbn [fst snd] in *.
  destruct (fault c); [done|].
  destruct (hasReachedEnd c); [by rewrite andb_false_r in H|].
  cbn [truthy negb andb] in H. rewrite H.
  cbn [onEngine setFails consecutiveScrollFails]. rewrite Hf.
  by destruct (MAX_SCROLL_FAILS <=? _).
Qed.

Lemma cycle_progresses c st :
  progresses c st = true ->
  consecutiveScrollFails (fst (cycle c st)) = 0
  /\ snd (cycle c st) = None.
Proof.
  unfold progresses, cycle. intros H.
  destruct (processVisible c st) as [st1 nd]. cbn [fst snd] in *.
  destruct (fault c); [done|].
  destruct (hasReachedEnd c); [by rewrite andb_false_r in H|].
  cbn [truthy negb andb] in H. apply negb_true_iff in H. by rewrite H.
Qed.

Lemma cycle_not_pending c st : snd (cycle c st) <> Some Pending.
Proof.
  unfold cycle. destruct (processVisible c st) as [st1 nd].
  destruct (fault c); [done|].
  destruct (hasReachedEnd c); [done|].
  destruct (_ && _); [|done].
  by destruct (MAX_SCROLL_FAILS <=? _).
Qed.

Lemma whileLoop_cons_running c cs st :
  isRunning (engine st) = true ->
  whileLoop (c :: cs) st =
  match snd (cycle c st) with
  | Some t => (fst (cycle c st), t)
  | None => whileLoop cs (fst (cycle c st))
  end.
Proof.
  intros H. cbn [whileLoop]. rewrite H. cbn [negb].
  by destruct (cycle c st) as [st' [t|]].
Qed.

(** A script the loop gets through while still running can be
    continued. *)
Lemma whileLoop_resume pre : forall st0 st cs,
  whileLoop pre st0 = (st, Pending) ->
  whileLoop (pre ++ cs) st0 = whileLoop cs st.
Proof.
  induction pre as [|c pre IH]; intros st0 st cs H.
  - cbn [whileLoop] in H. destruct (negb _); [done|].
    by injection H as ->.
  - destruct (isRunning (engine st0)) eqn:Hrun.
    + rewrite <- app_comm_cons, whileLoop_cons_running by done.
      rewrite whileLoop_cons_running in H by done.
      pose proof (cycle_not_pending c st0) as Hnp.
      destruct (snd (cycle c st0)) as [t|]; [|by apply IH].
      injection H as _ ->. done.
    + cbn [whileLoop] in H. by rewrite Hrun in H.
Qed.

Lemma stallRun_terminates cs : forall st rest,
  cs <> [] -> stallRun cs st = true ->
  MAX_SCROLL_FAILS <= consecutiveScrollFails st + length cs ->
  snd (whileLoop (cs ++ rest) st) = Stalled.
Proof.
  induction cs as [|c cs IH]; intros st rest Hne Hrun Hlen; [done|].
  cbn [stallRun] in Hrun.
  apply andb_prop in Hrun as [Hrun Hnext].
  apply andb_prop in Hrun as [Hrunning Hstall].
  rewrite <- app_comm_cons, whileLoop_cons_running by done.
  destruct (cycle_stalls c st Hstall) as [Hfails ->].
  destruct (MAX_SCROLL_FAILS <=? _) eqn:Hmax; [done|].
  apply Nat.leb_gt in Hmax. cbn [length] in Hlen.
  apply IH; [| done | lia].
  intros ->. cbn [length] in Hlen. lia.
Qed.

Lemma countCommits_app a b :
  countCommits (a ++ b) = countCommits a + countCommits b.
Proof.
  induction a as [|m a IH]; [done|]. destruct m; simpl; by rewrite IH.
Qed.

Lemma commitsAnnounced_interrupts cmds : forall s,
  commitsAnnounced (interrupts cmds s) = commitsAnnounced s.
Proof.
  unfold interrupts.
  induction cmds as [|i cmds IH]; intros s; [done|].
  cbn [foldl]. rewrite IH. destruct i; cbn [interrupt]; [|done].
  unfold commitsAnnounced, stop, sendProgress, send. cbn [outbox].
  rewrite countCommits_app. cbn. lia.
Qed.

Lemma commitsAnnounced_afterWaits e s :
  commitsAnnounced (afterWaits e s) = commitsAnnounced s.
Proof.
  unfold afterWaits. cbv zeta. rewrite commitsAnnounced_interrupts.
  destruct (waitForDetailPanel _ _);
    [|change (commitsAnnounced (log ?l ?x)) with (commitsAnnounced x)];
    by rewrite commitsAnnounced_interrupts.
Qed.

Lemma commitsAnnounced_scrapeCard e s :
  commitsAnnounced (snd (scrapeCard e s))
  = tally (fst (scrapeCard e s)) (commitsAnnounced s).
Proof.
  rewrite scrapeCard_unfold. cbv zeta.
  destruct (bool_decide _); [done|].
  destruct (clickThrows e); [done|].
  destruct (_ && _); cbn [fst snd tally].
  { change (commitsAnnounced (log ?l ?x)) with (commitsAnnounced x).
    apply commitsAnnounced_afterWaits. }
  destruct (nonempty _); cbn [fst snd tally].
  - unfold commitsAnnounced at 1. rewrite commit_outbox, countCommits_app.
    fold (commitsAnnounced (afterWaits e s)).
    rewrite commitsAnnounced_afterWaits. cbn. lia.
  - apply commitsAnnounced_afterWaits.
Qed.

Lemma commitsAnnounced_sendProgress message s :
  commitsAnnounced (sendProgress message s) = commitsAnnounced s.
Proof.
  unfold commitsAnnounced, sendProgress, send. cbn [outbox].
  rewrite countCommits_app. cbn. lia.
Qed.

Lemma commitsAnnounced_afterCard i e total st :
  commitsAnnounced (engine (afterCard i e total st))
  = tally (resultOfCard i e total st) (commitsAnnounced (engine st)).
Proof.
  unfold afterCard, resultOfCard. cbv zeta.
  cbn [onEngine note engine lastProcessedIndex].
  rewrite commitsAnnounced_interrupts.
  pose proof (commitsAnnounced_scrapeCard e
                (sendProgress (ScrapingCardOf (i + 1) total) (engine st)))
    as H.
  rewrite commitsAnnounced_sendProgress in H.
  destruct (scrapeCard e _) as [[b|message] eng]; cbn [fst snd] in *; done.
Qed.

Lemma forLoop_commits rest : forall i total nd st,
  commitsAnnounced (engine (fst (forLoop i rest total nd st))) + nd
  = commitsAnnounced (engine st) + snd (forLoop i rest total nd st).
Proof.
  induction rest as [|e rest IH]; intros i total nd st; [done|].
  rewrite forLoop_cons.
  destruct (negb _); [done|].
  case_bool_decide.
  - exact (IH (S i) total nd (advance i st)).
  - specialize (IH (S i) total
                  (tally (resultOfCard i e total (advance i st)) nd)
                  (afterCard i e total (advance i st))).
    rewrite commitsAnnounced_afterCard in IH.
    change (engine (advance i st)) with (engine st) in IH.
    assert (forall r a b, tally r a + b = tally r b + a) as Htally
      by (intros [[]|] a b; cbn [tally]; lia).
    pose proof (Htally (resultOfCard i e total (advance i st)) nd
                  (commitsAnnounced (engine st))).
    lia.
Qed.

Lemma processVisible_commits c st :
  commitsAnnounced (engine (fst (processVisible c st)))
  = commitsAnnounced (engine st) + snd (processVisible c st).
Proof.
  unfold processVisible. cbv zeta.
  match goal with
  | |- context [forLoop ?i ?rest ?total 0 ?st'] =>
      pose proof (forLoop_commits rest i total 0 st') as H
  end.
  cbn [onEngine setCursor engine] in H.
  rewrite commitsAnnounced_sendProgress in H.
  cbn [onEngine setCursor engine]. lia.
Qed.

(** C3. Stall termination: the configured maximum is 3; the count a
    cycle keeps of its commits is the number of count messages it
    pushes; a cycle that
    gets to the comparison after the scroll with no growth of the card
    count and no record committed adds one to the stall counter, and
    ends the loop as stalled exactly when the counter reaches the
    maximum; a cycle that gets there with growth or with a commit sets
    the counter to 0 and loops; so once as many consecutive cycles as
    the maximum stall, with the loop still running at the head of each,
    the loop ends stalled, and [start] reports the run as ended by the
    stall, clears [isRunning] and sends the completion message last. *)
Theorem stall_termination :
  MAX_SCROLL_FAILS = 3
  /\ (forall c st,
        commitsAnnounced (engine (fst (processVisible c st)))
        = commitsAnnounced (engine st) + snd (processVisible c st))
  /\ (forall c st,
        stalls c st = true ->
        consecutiveScrollFails (fst (cycle c st))
        = consecutiveScrollFails st + 1
        /\ snd (cycle c st)
           = if MAX_SCROLL_FAILS <=? consecutiveScrollFails st + 1
             then Some Stalled else None)
  /\ (forall c st,
        progresses c st = true ->
        consecutiveScrollFails (fst (cycle c st)) = 0
        /\ snd (cycle c st) = None)
  /\ (forall cs rest st,
        length cs = MAX_SCROLL_FAILS ->
        stallRun cs st = true ->
        snd (whileLoop (cs ++ rest) st) = Stalled)
  /\ (forall env s pre cs rest st,
        isRunning s = false -> feed env = true ->
        cycles env = pre ++ cs ++ rest ->
        whileLoop pre (loopEntry s) = (st, Pending) ->
        length cs = MAX_SCROLL_FAILS ->
        stallRun cs st = true ->
        outcome (start env s) = Ended Stalled
        /\ isRunning (final (start env s)) = false
        /\ last (outbox (final (start env s)))
           = Some (scrapingComplete (length (scrapedData (final (start env s)))))).
Proof.
  split; [reflexivity|].
  split; [apply processVisible_commits|].
  split; [apply cycle_stalls|].
  split; [apply cycle_progresses|].
  assert (forall cs rest st,
            length cs = MAX_SCROLL_FAILS -> stallRun cs st = true ->
            snd (whileLoop (cs ++ rest) st) = Stalled) as Hloop.
  { intros cs rest st Hlen Hrun. apply stallRun_terminates; [|done|lia].
    intros ->. discriminate Hlen. }
  split; [exact Hloop|].
  intros env s pre cs rest st Hidle Hfeed Hcycles Hpre Hlen Hrun.
  unfold start. rewrite Hidle, Hfeed. cbn [negb].
  fold (loopEntry s).
  rewrite Hcycles, (whileLoop_resume _ _ _ _ Hpre).
  specialize (Hloop cs rest st Hlen Hrun).
  destruct (whileLoop (cs ++ rest) st) as [st' t]. cbn [snd] in Hloop.
  subst t. cbn [outcome final].
  split; [done|]. split; [done|].
  unfold sendComplete, send. cbn [outbox scrapedData log setRunning].
  by rewrite last_snoc.
Qed.

Lemma stall_termination_witness :
  outcome (start stallingRun newScraper) = Ended Stalled
  /\ isRunning (final (start stallingRun newScraper)) = false.
Proof.
  destruct stall_termination as (_ & _ & _ & _ & _ & Hstart).
  destruct (Hstart stallingRun newScraper
              [quietCycle [placeA_en]]
              [quietCycle [placeA_en]; quietCycle [placeA_en];
               quietCycle [placeA_en]]
              []
              (fst (whileLoop [quietCycle [placeA_en]] (loopEntry newScraper))))
    as (Hout & Hidle & _); try (vm_compute; reflexivity).
  split; assumption.
Defined.

(** ** The cursor *)

Lemma replay_snoc state h ev :
  replay state (h ++ [ev]) = stepTo (replay state h) ev.
Proof. unfold replay. by rewrite foldl_app. Qed.

Lemma replay_app state h1 h2 :
  replay state (h1 ++ h2) = replay (replay state h1) h2.
Proof. unfold replay. by rewrite foldl_app. Qed.

Lemma discipline_app h1 : forall state h2,
  discipline state (h1 ++ h2)
  <-> discipline state h1 /\ discipline (replay state h1) h2.
Proof.
  induction h1 as [|ev h1 IH]; intros state h2; simpl.
  - tauto.
  - rewrite IH. tauto.
Qed.

Lemma tracked_event armed armed' ev n st st' :
  tracked armed st ->
  history st' = history st ++ [ev] ->
  lastProcessedIndex st' = n ->
  stepOk (lastProcessedIndex st, armed) ev ->
  stepTo (lastProcessedIndex st, armed) ev = (n, armed') ->
  tracked armed' st'.
Proof.
  intros [Hd Hr] Hh Hc Hok Hto. unfold tracked.
  rewrite Hh, Hc. split.
  - apply discipline_app. split; [done|]. rewrite Hr. simpl. done.
  - by rewrite replay_snoc, Hr.
Qed.

Lemma tracked_same armed st st' :
  history st' = history st ->
  lastProcessedIndex st' = lastProcessedIndex st ->
  tracked armed st -> tracked armed st'.
Proof. unfold tracked. by intros -> ->. Qed.

Lemma afterCard_history i e total st :
  history (afterCard i e total st)
  = history st ++ [Attempt i (lastProcessedIndex st)].
Proof. unfold afterCard. cbv zeta. by destruct (fst _). Qed.

Lemma afterCard_cursor i e total st :
  lastProcessedIndex (afterCard i e total st) = lastProcessedIndex st.
Proof. unfold afterCard. cbv zeta. by destruct (fst _). Qed.

Lemma tracked_advance armed i st :
  tracked armed st -> lastProcessedIndex st = i ->
  tracked true (advance i st).
Proof.
  intros H Hi.
  eapply (tracked_event armed true _ (i + 1) st); [done|done|done| |].
  - simpl. lia.
  - done.
Qed.

Lemma tracked_afterCard i e total st :
  tracked true st -> lastProcessedIndex st = i + 1 ->
  tracked false (afterCard i e total st).
Proof.
  intros H Hi.
  eapply (tracked_event true false _ (i + 1) st);
    [done | apply afterCard_history | by rewrite afterCard_cursor | |].
  - simpl. lia.
  - simpl. by rewrite Hi.
Qed.

Lemma tracked_forLoop rest : forall i total nd st armed,
  tracked armed st -> lastProcessedIndex st = i ->
  exists armed', tracked armed' (fst (forLoop i rest total nd st)).
Proof.
  induction rest as [|e rest IH]; intros i total nd st armed H Hi;
    [by exists armed|].
  rewrite forLoop_cons.
  destruct (negb _); [by exists armed|].
  pose proof (tracked_advance _ _ _ H Hi) as Hadv.
  assert (lastProcessedIndex (advance i st) = i + 1) as Hcur by done.
  case_bool_decide.
  - eapply IH; [exact Hadv|]. rewrite Hcur. lia.
  - eapply IH; [by apply tracked_afterCard|].
    rewrite afterCard_cursor, Hcur. lia.
Qed.

Lemma tracked_processVisible c st armed :
  tracked armed st ->
  exists armed', tracked armed' (fst (processVisible c st)).
Proof.
  intros H. unfold processVisible. cbv zeta.
  eapply tracked_forLoop; [|reflexivity].
  eapply tracked_same; [reflexivity|reflexivity|].
  eapply (tracked_event armed false _ _ st); [done|done|done| |done].
  simpl. done.
Qed.

Lemma cycle_history c st :
  history (fst (cycle c st)) = history (fst (processVisible c st)).
Proof.
  unfold cycle. destruct (processVisible c st) as [st1 nd].
  destruct (fault c); [done|].
  destruct (hasReachedEnd c); [done|].
  destruct (_ && _); [|done].
  by destruct (MAX_SCROLL_FAILS <=? _).
Qed.

Lemma cycle_cursor c st :
  lastProcessedIndex (fst (cycle c st))
  = lastProcessedIndex (fst (processVisible c st)).
Proof.
  unfold cycle. destruct (processVisible c st) as [st1 nd].
  destruct (fault c); [done|].
  destruct (hasReachedEnd c); [done|].
  destruct (_ && _); [|done].
  by destruct (MAX_SCROLL_FAILS <=? _).
Qed.

Lemma tracked_cycle c st armed :
  tracked armed st -> exists armed', tracked armed' (fst (cycle c st)).
Proof.
  intros H. destruct (tracked_processVisible c st armed H) as [a Ha].
  exists a. eapply tracked_same; [apply cycle_history|apply cycle_cursor|done].
Qed.

Lemma tracked_whileLoop cs : forall st armed,
  tracked armed st -> exists armed', tracked armed' (fst (whileLoop cs st)).
Proof.
  induction cs as [|c cs IH]; intros st armed H.
  - exists armed. cbn [whileLoop]. by destruct (negb _).
  - cbn [whileLoop]. destruct (negb _); [by exists armed|].
    destruct (tracked_cycle c st armed H) as [a Ha].
    destruct (cycle c st) as [st' [t|]]; cbn [fst] in *; [by exists a|].
    by eapply IH.
Qed.

Lemma start_discipline env s : discipline (0, false) (steps (start env s)).
Proof.
  unfold start.
  destruct (isRunning s); [done|].
  destruct (negb (feed env)); [done|].
  fold (loopEntry s).
  destruct (tracked_whileLoop (cycles env) (loopEntry s) false) as [a [Ha _]].
  { split; reflexivity. }
  by destruct (whileLoop _ _) as [st t].
Qed.

Lemma forLoop_cursor rest : forall i total nd st,
  lastProcessedIndex st = i ->
  i <= lastProcessedIndex (fst (forLoop i rest total nd st))
       <= i + length rest.
Proof.
  induction rest as [|e rest IH]; intros i total nd st Hi.
  - cbn. lia.
  - rewrite forLoop_cons. cbn [length].
    destruct (negb _); [cbn [fst]; lia|].
    case_bool_decide.
    + specialize (IH (S i) total nd (advance i st)).
      cbn [advance setCursor lastProcessedIndex] in IH. lia.
    + specialize (IH (S i) total
                    (tally (resultOfCard i e total (advance i st)) nd)
                    (afterCard i e total (advance i st))).
      rewrite afterCard_cursor in IH.
      cbn [advance setCursor lastProcessedIndex] in IH. lia.
Qed.

Lemma cycle_cursor_range c st :
  let after := lastProcessedIndex (fst (cycle c st)) in
  after <= length (cards c)
  /\ (length (cards c) < lastProcessedIndex st \/
      lastProcessedIndex st <= after).
Proof.
  cbv zeta. rewrite cycle_cursor. unfold processVisible. cbv zeta.
  match goal with
  | |- context [forLoop ?i ?rest ?total ?nd ?st'] =>
      pose proof (forLoop_cursor rest i total nd st' eq_refl) as H
  end.
  rewrite length_drop in H.
  destruct (length (cards c) <? lastProcessedIndex st) eqn:E.
  - apply Nat.ltb_lt in E. lia.
  - apply Nat.ltb_ge in E. lia.
Qed.

Lemma replay_armed h : forall state,
  snd (replay state h) = true ->
  (h = [] /\ snd state = true)
  \/ exists h' index before after, h = h' ++ [Advance index before after].
Proof.
  induction h as [|ev h IH] using rev_ind; intros state H.
  - by left.
  - right. rewrite replay_snoc in H.
    destruct ev as [b v a|i b a|i c]; [done| |done].
    by exists h, i, b, a.
Qed.

(** Within a stretch of history without a reset, the indices handed to
    [scrapeCard] go strictly up. *)
Lemma discipline_attempts seg : forall state,
  discipline state seg ->
  Forall (fun ev => isReset ev = false) seg ->
  StronglySorted lt (attempts seg)
  /\ Forall (fun j => if snd state then fst state <= j + 1
                      else fst state <= j) (attempts seg).
Proof.
  induction seg as [|ev seg IH]; intros [cur armed] Hd Hnr.
  - split; constructor.
  - destruct Hd as [Hok Hd].
    apply Forall_cons in Hnr as [Hev Hnr].
    destruct (IH _ Hd Hnr) as [Hsorted Hlow].
    destruct ev as [b v a|i b a|i c]; simpl in *.
    + destruct Hok as [-> ->]. rewrite Hev in Hlow. split; [done|].
      eapply Forall_impl; [exact Hlow|]. intros j Hj. simpl in Hj.
      destruct armed; lia.
    + destruct Hok as (-> & -> & ->). split; [done|].
      eapply Forall_impl; [exact Hlow|]. intros j Hj. simpl in Hj.
      destruct armed; lia.
    + destruct Hok as (-> & -> & ->). split.
      * constructor; [done|].
        eapply Forall_impl; [exact Hlow|]. intros j Hj. simpl in Hj. lia.
      * constructor; [lia|].
        eapply Forall_impl; [exact Hlow|]. intros j Hj. simpl in Hj. lia.
Qed.

(** C4. Cursor invariant: the history of every run obeys the cursor
    discipline from cursor 0; under it a step lowers the cursor only at
    a cycle start, to 0, and exactly when the fresh snapshot has fewer
    cards than the cursor says, a cycle start that is no reset keeps
    the cursor, and every assignment in the [for] loop is made at the
    index the cursor points to (index 0 after a reset) and moves the
    cursor one up; over a whole cycle the cursor ends within the
    snapshot and, unless the snapshot was shorter than the cursor, not
    below where it started. *)
Theorem cursor_invariant :
  (forall env s, discipline (0, false) (steps (start env s)))
  /\ (forall state ev,
        stepOk state ev ->
        if isReset ev then fst (stepTo state ev) = 0
        else fst state <= fst (stepTo state ev))
  /\ (forall state before visible after,
        stepOk state (CycleStart before visible after) ->
        (isReset (CycleStart before visible after) = true
         <-> visible < fst state)
        /\ (isReset (CycleStart before visible after) = false ->
            after = fst state))
  /\ (forall state index before after,
        stepOk state (Advance index before after) ->
        index = fst state /\ after = fst state + 1)
  /\ (forall c st,
        lastProcessedIndex (fst (cycle c st)) <= length (cards c)
        /\ (length (cards c) < lastProcessedIndex st
            \/ lastProcessedIndex st <= lastProcessedIndex (fst (cycle c st)))).
Proof.
  split; [apply start_discipline|].
  split; [|split; [|split]].
  - intros [cur armed] [b v a|i b a|i c]; simpl.
    + intros [-> ->]. destruct (v <? cur); lia.
    + intros (-> & -> & ->). lia.
    + lia.
  - intros [cur armed] b v a. simpl. intros [-> ->]. split.
    + apply Nat.ltb_lt.
    + by intros ->.
  - intros [cur armed] i b a. simpl. intros (-> & -> & ->). done.
  - intros c st. apply cycle_cursor_range.
Qed.

Lemma cursor_invariant_witness :
  discipline (0, false) (steps (start shrinkingRun newScraper))
  /\ steps (start shrinkingRun newScraper)
     = [CycleStart 0 3 0; Advance 0 0 1; Attempt 0 1; Advance 1 1 2;
        Attempt 1 2; Advance 2 2 3; Attempt 2 3;
        CycleStart 3 1 0; Advance 0 0 1; Attempt 0 1]
  /\ fst (stepTo (3, false) (CycleStart 3 1 0)) = 0.
Proof.
  destruct cursor_invariant as (Hrun & Hstep & _).
  split; [apply Hrun|]. split; [vm_compute; reflexivity|].
  apply (Hstep (3, false) (CycleStart 3 1 0)). simpl. done.
Defined.

Lemma scrapeCard_throws e s message :
  getUniqueUrl (href (card e)) ∉ scrapedUrls s ->
  clickThrows e = Some message ->
  scrapeCard e s = (Throws message, s).
Proof.
  intros Hkey Hthrow. rewrite scrapeCard_unfold. cbv zeta.
  rewrite bool_decide_eq_false_2 by done. by rewrite Hthrow.
Qed.

(** C5. Never-replay: in the history of every run each call of
    [scrapeCard] for index [i] finds the cursor at [i + 1] and comes
    right after the assignment that put it there; whatever the call
    does, return or throw, and whatever command arrives during it, the
    cursor is still [i + 1] when the iteration is over; a throw leaves
    the instance as it was, and once a stop has cleared [isRunning] the
    [for] loop makes no further call; so within any stretch of a run
    without a reset of the cursor the indices handed to [scrapeCard]
    go strictly up, none being tried twice. *)
Theorem never_replay :
  (forall env s pre i cursorNow post,
      steps (start env s) = pre ++ Attempt i cursorNow :: post ->
      cursorNow = i + 1
      /\ exists pre' before, pre = pre' ++ [Advance i before (i + 1)])
  /\ (forall i e total st,
        lastProcessedIndex (afterCard i e total (advance i st)) = i + 1)
  /\ (forall e s message,
        getUniqueUrl (href (card e)) ∉ scrapedUrls s ->
        clickThrows e = Some message ->
        scrapeCard e s = (Throws message, s))
  /\ (forall i rest total nd st,
        isRunning (engine st) = false ->
        forLoop i rest total nd st = (st, nd))
  /\ (forall env s pre seg post,
        steps (start env s) = pre ++ seg ++ post ->
        Forall (fun ev => isReset ev = false) seg ->
        StronglySorted lt (attempts seg) /\ NoDup (attempts seg)).
Proof.
  split; [|split; [|split; [|split]]].
  - intros env s pre i cursorNow post Hsteps.
    pose proof (start_discipline env s) as Hd. rewrite Hsteps in Hd.
    apply discipline_app in Hd as [Hpre [Hok _]].
    destruct (replay (0, false) pre) as [cur armed] eqn:Hr.
    simpl in Hok. destruct Hok as (-> & -> & Hcur). subst cur.
    split; [done|].
    destruct (replay_armed pre (0, false)) as [[_ Hinit]|Hlast].
    { by rewrite Hr. }
    { discriminate Hinit. }
    destruct Hlast as (pre' & i' & b & a & ->).
    apply discipline_app in Hpre as [_ [Hadv _]].
    rewrite replay_snoc in Hr. simpl in Hr, Hadv.
    injection Hr as Ha. destruct Hadv as (_ & _ & Ha').
    assert (i' = i) as -> by lia. subst a.
    by exists pre', b.
  - intros i e total st. by rewrite afterCard_cursor.
  - apply scrapeCard_throws.
  - intros i [|e rest] total nd st H; [done|].
    rewrite forLoop_cons, H. done.
  - intros env s pre seg post Hsteps Hnr.
    pose proof (start_discipline env s) as Hd. rewrite Hsteps in Hd.
    apply discipline_app in Hd as [_ Hd].
    apply discipline_app in Hd as [Hd _].
    destruct (discipline_attempts seg _ Hd Hnr) as [Hsorted _].
    split; [done|].
    clear -Hsorted. induction Hsorted as [|j l Hl IH Hall]; constructor.
    + intros Hin. apply (proj1 (Forall_forall _ _) Hall) in Hin. lia.
    + done.
Qed.

Lemma never_replay_witness :
  attempts (steps (start roughRun newScraper)) = [0; 1]
  /\ StronglySorted lt (attempts (steps (start roughRun newScraper)))
  /\ outcome (start roughRun newScraper) = Ended UserStop.
Proof.
  destruct never_replay as (_ & _ & _ & _ & Hsorted).
  split; [vm_compute; reflexivity|]. split; [|vm_compute; reflexivity].
  destruct (Hsorted roughRun newScraper []
              (steps (start roughRun newScraper)) []) as [H _].
  - by rewrite app_nil_r.
  - apply Forall_forall. intros ev Hin.
    vm_compute in Hin.
    repeat (apply elem_of_cons in Hin as [->|Hin]; [reflexivity|]).
    by apply not_elem_of_nil in Hin.
  - exact H.
Defined.

(** ** The phone pattern *)

Lemma takeWhile_prefix p (s : jsstring) : exists post, s = takeWhile p s ++ post.
Proof. exists (dropWhile p s). by rewrite takeWhile_dropWhile. Qed.

Lemma takeWhile_app_all p (a b : jsstring) :
  forallb p a = true -> takeWhile p (a ++ b) = a ++ takeWhile p b.
Proof.
  induction a as [|x a IH]; simpl; [done|].
  intros H. apply andb_prop in H as [Hx Ha]. rewrite Hx. by rewrite IH.
Qed.

Lemma lead_not_digit c : is_lead c = true -> is_digit c = false.
Proof.
  unfold is_lead, is_digit. intros H.
  apply orb_prop in H as [H|H]; apply N.eqb_eq in H; by subst c.
Qed.

Lemma phoneCoreAt_shape s m :
  phoneCoreAt s = Some m ->
  coreShape m = true /\ exists post, s = m ++ post.
Proof.
  unfold phoneCoreAt. destruct s as [|d r]; [done|].
  destruct (is_digit d) eqn:Hd; [|done]. cbv zeta.
  destruct (Nat.leb _ _) eqn:Hlen; [|done].
  intros [= <-]. split.
  - unfold coreShape. by rewrite Hd, takeWhile_all, Hlen.
  - destruct (takeWhile_prefix is_phone_body r) as [post Hpost].
    exists post. simpl. by rewrite <- Hpost.
Qed.

Lemma phonePatternAt_shape s m :
  phonePatternAt s = Some m ->
  phoneShape m = true /\ exists post, s = m ++ post.
Proof.
  unfold phonePatternAt. destruct s as [|c r]; [done|].
  destruct (is_lead c) eqn:Hlead.
  - destruct (phoneCoreAt r) as [m'|] eqn:Hcore.
    + intros [= <-]. apply phoneCoreAt_shape in Hcore as [Hshape [post ->]].
      split; [simpl; by rewrite Hlead | by exists post].
    + intros H. simpl in H. by rewrite (lead_not_digit _ Hlead) in H.
  - intros H. apply phoneCoreAt_shape in H as [Hshape [post Hpost]].
    split; [|by exists post].
    destruct m as [|c' m']; [done|].
    rewrite <- app_comm_cons in Hpost. injection Hpost as <- _.
    unfold phoneShape. by rewrite Hlead.
Qed.

Lemma phonePattern_shape text : forall m,
  phonePattern text = Some m ->
  phoneShape m = true /\ exists pre post, text = pre ++ m ++ post.
Proof.
  induction text as [|c r IH]; intros m; cbn [phonePattern].
  - done.
  - destruct (phonePatternAt (c :: r)) as [m'|] eqn:Hat.
    + intros [= <-]. apply phonePatternAt_shape in Hat as [Hshape [post Hpost]].
      split; [done|]. exists [], post. done.
    + intros H. apply IH in H as [Hshape (pre & post & ->)].
      split; [done|]. by exists (c :: pre), post.
Qed.

Lemma coreShape_counts m :
  coreShape m = true -> 7 <= length m /\ 1 <= countDigits m.
Proof.
  destruct m as [|d rest]; [done|]. unfold coreShape. intros H.
  apply andb_prop in H as [H Hlen]. apply andb_prop in H as [Hd _].
  apply Nat.leb_le in Hlen. split; [cbn [length]; lia|].
  unfold countDigits. rewrite filter_cons_True by done. cbn [length]. lia.
Qed.

Lemma phoneShape_counts m :
  phoneShape m = true -> 7 <= length m /\ 1 <= countDigits m.
Proof.
  destruct m as [|c r]; [done|]. unfold phoneShape.
  destruct (is_lead c) eqn:Hlead; [|apply coreShape_counts].
  intros H. apply coreShape_counts in H as [Hlen Hdig]. split.
  - cbn [length]. lia.
  - unfold countDigits in *.
    rewrite filter_cons_False; [done|].
    rewrite (lead_not_digit _ Hlead). done.
Qed.

Lemma phoneCoreAt_complete m post :
  coreShape m = true -> is_Some (phoneCoreAt (m ++ post)).
Proof.
  destruct m as [|d rest]; [done|]. unfold coreShape. intros H.
  apply andb_prop in H as [H Hlen]. apply andb_prop in H as [Hd Hbody].
  rewrite <- app_comm_cons. unfold phoneCoreAt. cbv zeta.
  rewrite Hd, (takeWhile_app_all _ _ _ Hbody), length_app.
  apply Nat.leb_le in Hlen.
  destruct (Nat.leb _ _) eqn:E; [done|]. apply Nat.leb_gt in E. lia.
Qed.

Lemma phonePatternAt_complete m post :
  phoneShape m = true -> is_Some (phonePatternAt (m ++ post)).
Proof.
  destruct m as [|c r]; [done|]. unfold phoneShape.
  rewrite <- app_comm_cons. unfold phonePatternAt.
  destruct (is_lead c); intros H.
  - destruct (phoneCoreAt_complete r post H) as [m' ->]. done.
  - by apply (phoneCoreAt_complete (c :: r) post).
Qed.

Lemma phonePattern_complete pre : forall m post,
  phoneShape m = true -> is_Some (phonePattern (pre ++ m ++ post)).
Proof.
  induction pre as [|c pre IH]; intros m post H.
  - destruct (phonePatternAt_complete m post H) as [m' Hm'].
    rewrite app_nil_l.
    destruct (m ++ post); cbn [phonePattern]; by rewrite Hm'.
  - rewrite <- app_comm_cons. cbn [phonePattern].
    destruct (phonePatternAt _); [done|]. by apply IH.
Qed.

Lemma scanButtons_match bs :
  scanButtons bs <> [] ->
  exists btn m,
    btn ∈ bs
    /\ phonePattern (btn_text btn ++ [SPACE] ++ attrOrEmpty (btn_ariaLabel btn))
       = Some m
    /\ scanButtons bs = trim m.
Proof.
  induction bs as [|btn bs IH]; simpl; [done|].
  destruct (phonePattern _) as [m|] eqn:Hm.
  - intros _. exists btn, m. split; [apply list_elem_of_here|done].
  - intros H. destruct (IH H) as (b & m & Hin & Hb & Hres).
    exists b, m. split; [by apply list_elem_of_further|done].
Qed.

Lemma scanSpans_match ss : forall p,
  scanSpans ss = Some p ->
  exists span,
    span ∈ ss /\ phoneTest (trim span) = true /\ p = cleanPhone (trim span).
Proof.
  induction ss as [|span ss IH]; intros p; simpl; [done|].
  destruct (phoneTest (trim span)) eqn:Ht.
  - intros [= <-]. exists span. split; [apply list_elem_of_here|done].
  - intros H. destruct (IH _ H) as (sp & Hin & Htest & Hp).
    exists sp. split; [by apply list_elem_of_further|done].
Qed.

(** C6, as stated, fails: the fallback scan accepts a price range
    with six digits, in the detail view and on the card. *)
Lemma phone_scan_accepts_six_digits :
  phonePattern (js "100 - 200") = Some (js "100 - 200")
  /\ countDigits (js "100 - 200") = 6
  /\ ~ 7 <= countDigits (js "100 - 200")
  /\ scanButtons (buttons pageWithPrice) = js "100 - 200"
  /\ extractPhone pageWithPrice = js "100 - 200"
  /\ extractPhoneFromCard cardWithPrice = js "100 - 200".
Proof.
  repeat split; try (vm_compute; reflexivity).
  vm_compute. lia.
Qed.

(** C6, amended. Phone digit-pattern: every match of the fallback
    pattern is a piece of the scanned text made of an optional leading
    [+] or [(], one digit, and six or more further characters each of
    which is a digit, white space, a hyphen or a parenthesis; it has at
    least 7 characters and at least 1 digit.  The card-level test
    accepts a text exactly when it contains such a piece; the scan of
    the buttons returns the trimmed match of the first button whose
    text and label contain one, and the scan of the spans the cleaned
    text of the first span that passes the test. *)
Theorem phone_pattern_shape :
  (forall text m,
      phonePattern text = Some m ->
      phoneShape m = true
      /\ (exists pre post, text = pre ++ m ++ post)
      /\ 7 <= length m /\ 1 <= countDigits m)
  /\ (forall text,
        phoneTest text = true
        <-> exists pre m post, text = pre ++ m ++ post /\ phoneShape m = true)
  /\ (forall bs,
        scanButtons bs <> [] ->
        exists btn m,
          btn ∈ bs
          /\ phonePattern
               (btn_text btn ++ [SPACE] ++ attrOrEmpty (btn_ariaLabel btn))
             = Some m
          /\ scanButtons bs = trim m)
  /\ (forall ss p,
        scanSpans ss = Some p ->
        exists span,
          span ∈ ss /\ phoneTest (trim span) = true
          /\ p = cleanPhone (trim span)).
Proof.
  split; [|split; [|split]].
  - intros text m H. apply phonePattern_shape in H as [Hshape Hsub].
    split; [done|]. split; [done|]. by apply phoneShape_counts.
  - intros text. unfold phoneTest. split.
    + destruct (phonePattern text) as [m|] eqn:Hm; [|done]. intros _.
      apply phonePattern_shape in Hm as [Hshape (pre & post & ->)].
      by exists pre, m, post.
    + intros (pre & m & post & -> & Hshape).
      by destruct (phonePattern_complete pre m post Hshape) as [m' ->].
  - apply scanButtons_match.
  - apply scanSpans_match.
Qed.

Lemma phone_pattern_shape_witness :
  phoneShape (js "(555) 123-4567") = true
  /\ 7 <= length (js "(555) 123-4567")
  /\ phoneTest (js "Call (555) 123-4567") = true.
Proof.
  destruct phone_pattern_shape as (Hshape & Htest & _).
  destruct (Hshape (js "Call (555) 123-4567") (js "(555) 123-4567"))
    as (H1 & _ & H2 & _); [vm_compute; reflexivity|].
  split; [exact H1|]. split; [exact H2|].
  apply Htest. exists (js "Call "), (js "(555) 123-4567"), [].
  split; vm_compute; reflexivity.
Defined.

(** ** The detail-panel poll *)

Lemma pollDetail_step p docs tick elapsed :
  pollDetail p docs tick elapsed =
  if detailReady p (docs tick) then true
  else if bool_decide (DETAIL_TIMEOUT <= elapsed + POLL_INTERVAL)%N
       then truthy (findDetailH1 p (docs tick))
       else pollDetail p docs (S tick) (elapsed + POLL_INTERVAL).
Proof.
  rewrite pollDetail_equation_1. unfold pollDetail_unfold_clause_1.
  destruct (detailReady p (docs tick)); [done|].
  unfold pollDetail_unfold_clause_1_clause_2.
  destruct (decide _) as [H|H].
  - by rewrite bool_decide_eq_true_2.
  - by rewrite bool_decide_eq_false_2.
Qed.

Lemma elapsedBefore_succ tick :
  1 <= tick ->
  (elapsedBefore tick + POLL_INTERVAL)%N = elapsedBefore (S tick).
Proof. unfold elapsedBefore, POLL_INTERVAL. lia. Qed.

Lemma poll_gives_up p docs : forall d tick,
  tick + d = lastTick -> 1 <= tick ->
  (forall k, tick <= k <= lastTick -> detailReady p (docs k) = false) ->
  pollDetail p docs tick (elapsedBefore tick)
  = truthy (findDetailH1 p (docs lastTick)).
Proof.
  induction d as [|d IH]; intros tick Hd Htick Hnot;
    rewrite pollDetail_step, (Hnot tick) by lia.
  - rewrite bool_decide_eq_true_2.
    + by replace tick with lastTick by lia.
    + unfold elapsedBefore, DETAIL_TIMEOUT, POLL_INTERVAL, lastTick in *. lia.
  - rewrite bool_decide_eq_false_2.
    + rewrite elapsedBefore_succ by done.
      apply IH; [lia|lia|]. intros k Hk. apply Hnot. lia.
    + unfold elapsedBefore, DETAIL_TIMEOUT, POLL_INTERVAL, lastTick in *. lia.
Qed.

Lemma poll_ready p docs k : forall d tick,
  tick + d = k -> 1 <= tick -> k <= lastTick ->
  detailReady p (docs k) = true ->
  (forall j, tick <= j < k -> detailReady p (docs j) = false) ->
  pollDetail p docs tick (elapsedBefore tick) = true.
Proof.
  induction d as [|d IH]; intros tick Hd Htick Hk Hready Hnot;
    rewrite pollDetail_step.
  - replace tick with k by lia. by rewrite Hready.
  - rewrite (Hnot tick) by lia.
    rewrite bool_decide_eq_false_2.
    + rewrite elapsedBefore_succ by done.
      apply IH; [lia|lia|done|done|]. intros j Hj. apply Hnot. lia.
    + unfold elapsedBefore, DETAIL_TIMEOUT, POLL_INTERVAL, lastTick in *. lia.
Qed.

Lemma truthy_find {A} (f : A -> bool) (l : list A) :
  truthy (List.find f l) = true <-> exists x, x ∈ l /\ f x = true.
Proof.
  induction l as [|x l IH]; simpl.
  - split; [done|]. intros (x & Hin & _). by apply not_elem_of_nil in Hin.
  - destruct (f x) eqn:Hx; simpl.
    + split; [|done]. intros _. exists x. split; [apply list_elem_of_here|done].
    + rewrite IH. split.
      * intros (y & Hin & Hy). exists y.
        split; [by apply list_elem_of_further|done].
      * intros (y & Hin & Hy). apply elem_of_cons in Hin as [->|Hin].
        { congruence. }
        by exists y.
Qed.

Lemma freshH1_spec p h1 :
  freshH1 p h1 = true <-> validTitle h1 = true /\ trim h1 <> p.
Proof.
  unfold freshH1, validTitle. cbv zeta.
  rewrite andb_true_iff, negb_true_iff.
  unfold jsstring_eqb. rewrite bool_decide_eq_false. done.
Qed.

(** C7, as stated, fails: the panel keeps showing the title it showed
    before the click, with a tab strip; a valid title is present when
    the time is up, yet the wait resolves false. *)
Lemma detail_wait_rejects_unchanged_title :
  (forall k, detailReady (js "Cafe A") (stuckPanel k) = false)
  /\ existsb validTitle (h1s (stuckPanel lastTick)) = true
  /\ waitForDetailPanel (js "Cafe A") stuckPanel = false.
Proof.
  split; [intros k; vm_compute; reflexivity|].
  split; vm_compute; reflexivity.
Qed.

(** C7, amended. Detail-ready wait with previous name [p]: the poll
    fires every 100 ms and gives up at the 30th firing, 3000 ms.  It
    resolves true at the first firing that finds a title that is
    non-empty, not a placeholder and different from [p], together with
    an action button, a tab strip or the hotel heading marker.  If no
    firing up to the 30th finds that, it resolves true exactly when the
    document of the 30th firing has a title that is non-empty, not a
    placeholder and different from [p], and false otherwise; a title
    equal to [p] does not count. *)
Theorem detail_ready_timeout :
  (N.of_nat lastTick * POLL_INTERVAL = DETAIL_TIMEOUT)%N
  /\ (forall p docs,
        (forall k, 1 <= k <= lastTick -> detailReady p (docs k) = false) ->
        waitForDetailPanel p docs = truthy (findDetailH1 p (docs lastTick)))
  /\ (forall p docs k,
        1 <= k <= lastTick ->
        detailReady p (docs k) = true ->
        (forall j, 1 <= j < k -> detailReady p (docs j) = false) ->
        waitForDetailPanel p docs = true)
  /\ (forall p d,
        truthy (findDetailH1 p d) = true
        <-> exists h1, h1 ∈ h1s d /\ validTitle h1 = true /\ trim h1 <> p)
  /\ (forall p d,
        detailReady p d = true
        <-> truthy (findDetailH1 p d) = true
            /\ (hasActionButtons d || hasTabs d || hasHotelClass d) = true).
Proof.
  split; [reflexivity|]. split; [|split; [|split]].
  - intros p docs Hnot. unfold waitForDetailPanel.
    apply (poll_gives_up p docs (lastTick - 1) 1); [done|lia|done].
  - intros p docs k Hk Hready Hnot. unfold waitForDetailPanel.
    apply (poll_ready p docs k (k - 1) 1); [lia|lia|lia|done|done].
  - intros p d. unfold findDetailH1. rewrite truthy_find.
    split; intros (h1 & Hin & H); exists h1; split; try done;
      by apply freshH1_spec.
  - intros p d. unfold detailReady.
    destruct (findDetailH1 p d); simpl; intuition congruence.
Qed.

Lemma detail_ready_timeout_witness :
  waitForDetailPanel [] stuckPanel = true
  /\ waitForDetailPanel (js "Cafe A") stuckPanel = false.
Proof.
  destruct detail_ready_timeout as (_ & Htimeout & Hready & _).
  split.
  - apply (Hready [] stuckPanel 1);
      [unfold lastTick; lia | vm_compute; reflexivity | intros j Hj; lia].
  - rewrite Htimeout; [vm_compute; reflexivity|].
    intros k _. vm_compute. reflexivity.
Defined.

(** ** The listener: reset and start *)

(** C8, as stated, fails: the reset command arrives while a run is in
    progress with one record collected; the record list and the dedup
    set are cleared all the same. *)
Lemma reset_clears_while_running :
  reachable runningWithA
  /\ isRunning runningWithA = true
  /\ length (scrapedData runningWithA) = 1
  /\ onMessage resetData noFeed runningWithA
     = (status_reset 0, reset runningWithA)
  /\ scrapedData (reset runningWithA) = []
  /\ scrapedUrls (reset runningWithA) = ∅
  /\ isRunning (reset runningWithA) = true.
Proof.
  split; [apply reachable_step, reachable_new|].
  repeat split; vm_compute; reflexivity.
Qed.

(** C8, amended. Reset: in every state of the engine, running or not,
    the reset command clears the record list and the dedup set and
    answers with status reset and count 0; it does not test
    [isRunning] and leaves it, and the outbox, as they were; a reset
    that arrives while the traversal waits does the same. *)
Theorem reset_clears_in_every_state :
  forall env s,
    onMessage resetData env s = (status_reset 0, reset s)
    /\ scrapedData (reset s) = []
    /\ scrapedUrls (reset s) = ∅
    /\ isRunning (reset s) = isRunning s
    /\ outbox (reset s) = outbox s
    /\ interrupts [IReset] s = reset s.
Proof. intros env s. repeat split. Qed.

(** C10. Start without a feed: when the start command arrives while
    the engine is not running and the page has no feed container, the
    response is still status started; the only message pushed is the
    error notification, so no completion message is sent; [isRunning]
    stays false and the record list and the dedup set are untouched. *)
Theorem start_without_feed :
  forall env s,
    isRunning s = false -> feed env = false ->
    fst (onMessage startScraping env s) = status_started
    /\ outcome (start env s) = MissingFeed
    /\ outbox (snd (onMessage startScraping env s))
       = outbox s ++ [scrapingError NoSearchResults]
    /\ isRunning (snd (onMessage startScraping env s)) = false
    /\ scrapedData (snd (onMessage startScraping env s)) = scrapedData s
    /\ scrapedUrls (snd (onMessage startScraping env s)) = scrapedUrls s
    /\ steps (start env s) = [].
Proof.
  intros env s Hidle Hfeed. unfold onMessage, start.
  rewrite Hidle, Hfeed. cbn. by rewrite Hidle.
Qed.

Lemma start_without_feed_witness :
  fst (onMessage startScraping noFeed newScraper) = status_started
  /\ outbox (snd (onMessage startScraping noFeed newScraper))
     = [scrapingError NoSearchResults]
  /\ isRunning (snd (onMessage startScraping noFeed newScraper)) = false.
Proof.
  destruct (start_without_feed noFeed newScraper eq_refl eq_refl)
    as (Hresp & _ & Hout & Hidle & _).
  split; [exact Hresp|]. split; [exact Hout | exact Hidle].
Defined.

(** ** The tabular export *)

Lemma orEmpty_id v : orEmpty v = v.
Proof. by destruct v. Qed.

Lemma rowOf_fields d : rowOf d = fieldsOf d.
Proof. unfold rowOf, fieldsOf. by rewrite !orEmpty_id. Qed.

Lemma doubleQuotes_app a b :
  doubleQuotes (a ++ b) = doubleQuotes a ++ doubleQuotes b.
Proof.
  induction a as [|c a IH]; [done|]. simpl.
  destruct (c =? QUOTE)%N; simpl; by rewrite IH.
Qed.

Lemma readFrom_cell cell : forall rows row field rest,
  readFrom InQuotes rows row field (doubleQuotes cell ++ rest)
  = readFrom InQuotes rows row (field ++ cell) rest.
Proof.
  induction cell as [|c cell IH]; intros rows row field rest.
  - by rewrite app_nil_r.
  - cbn [doubleQuotes]. destruct (c =? QUOTE)%N eqn:Hc.
    + apply N.eqb_eq in Hc as ->.
      cbn [app readFrom]. rewrite N.eqb_refl.
      rewrite IH. by rewrite <- app_assoc.
    + cbn [app readFrom]. rewrite Hc.
      rewrite IH. by rewrite <- app_assoc.
Qed.

Lemma readFrom_quoted cell rows row field rest :
  readFrom FieldStart rows row field (quoteCell cell ++ rest)
  = readFrom QuoteSeen rows row cell rest.
Proof.
  unfold quoteCell. rewrite <- !app_assoc.
  cbn [app readFrom]. rewrite N.eqb_refl.
  rewrite readFrom_cell. cbn [app readFrom]. by rewrite N.eqb_refl.
Qed.

Lemma csvLine_cons2 x y rest :
  csvLine (x :: y :: rest) = quoteCell x ++ [COMMA] ++ csvLine (y :: rest).
Proof. reflexivity. Qed.

Lemma readFrom_line_then_newline more : forall cell rows row field rest,
  readFrom FieldStart rows row field
    (csvLine (cell :: more) ++ NEWLINE :: rest)
  = readFrom FieldStart (rows ++ [row ++ cell :: more]) [] [] rest.
Proof.
  induction more as [|c2 more IH]; intros cell rows row field rest.
  - change (csvLine [cell]) with (quoteCell cell).
    by rewrite readFrom_quoted.
  - rewrite csvLine_cons2, <- !app_assoc, readFrom_quoted.
    cbn [app readFrom]. change (COMMA =? QUOTE)%N with false.
    rewrite N.eqb_refl. cbv iota.
    rewrite IH. by rewrite <- app_assoc.
Qed.

Lemma readFrom_line_then_end more : forall cell rows row field,
  readFrom FieldStart rows row field (csvLine (cell :: more))
  = Some (rows ++ [row ++ cell :: more]).
Proof.
  induction more as [|c2 more IH]; intros cell rows row field.
  - change (csvLine [cell]) with (quoteCell cell).
    rewrite <- (app_nil_r (quoteCell cell)). by rewrite readFrom_quoted.
  - rewrite csvLine_cons2, readFrom_quoted.
    cbn [app readFrom]. change (COMMA =? QUOTE)%N with false.
    rewrite N.eqb_refl. cbv iota.
    rewrite IH. by rewrite <- app_assoc.
Qed.

Lemma csvOf_cons2 x y rest :
  csvOf (x :: y :: rest) = csvLine x ++ [NEWLINE] ++ csvOf (y :: rest).
Proof. reflexivity. Qed.

Lemma readFrom_table table : forall line rows,
  Forall (fun r => r <> []) (line :: table) ->
  readFrom FieldStart rows [] [] (csvOf (line :: table))
  = Some (rows ++ line :: table).
Proof.
  induction table as [|line2 table IH]; intros line rows Hne;
    apply Forall_cons in Hne as [Hline Hne];
    destruct line as [|cell more]; try done.
  - change (csvOf [cell :: more]) with (csvLine (cell :: more)).
    by rewrite readFrom_line_then_end.
  - rewrite csvOf_cons2. cbn [app].
    rewrite readFrom_line_then_newline.
    rewrite IH by done. by rewrite <- app_assoc.
Qed.

(** C9. Tabular export round-trip: the tabular-plain text is the
    header row Name, Phone, Website, Address, Rating, Reviews, URL
    followed by one row per record in order, rows separated by line
    feeds and fields by commas; every field is wrapped in double
    quotes with each quote inside it doubled; an empty field is
    rendered as the empty string; and reading the text back under that
    quoting rule gives the header row and, for every record in order,
    exactly its seven field values. *)
Theorem tabular_export_round_trip :
  headers = [js "Name"; js "Phone"; js "Website"; js "Address";
             js "Rating"; js "Reviews"; js "URL"]
  /\ (forall s,
        generateCSVContent s
        = join [NEWLINE]
            (csvLine headers :: ((fun d => csvLine (fieldsOf d)) <$> scrapedData s)))
  /\ (forall row,
        csvLine row
        = join [COMMA]
            ((fun cell => [QUOTE] ++ doubleQuotes cell ++ [QUOTE]) <$> row))
  /\ doubleQuotes [] = []
  /\ doubleQuotes [QUOTE] = [QUOTE; QUOTE]
  /\ (forall c, c <> QUOTE -> doubleQuotes [c] = [c])
  /\ (forall a b, doubleQuotes (a ++ b) = doubleQuotes a ++ doubleQuotes b)
  /\ (forall s,
        readCSV (generateCSVContent s)
        = Some (headers :: (fieldsOf <$> scrapedData s))).
Proof.
  split; [reflexivity|]. split; [|split; [|split; [|split; [|split; [|split]]]]].
  - intros s. unfold generateCSVContent, csvOf. rewrite fmap_cons.
    do 2 f_equal. rewrite <- list_fmap_compose.
    apply list_fmap_ext. intros i d _. simpl. by rewrite rowOf_fields.
  - reflexivity.
  - reflexivity.
  - reflexivity.
  - intros c Hc. cbn [doubleQuotes].
    by rewrite (proj2 (N.eqb_neq c QUOTE) Hc).
  - apply doubleQuotes_app.
  - intros s. unfold readCSV, generateCSVContent.
    rewrite readFrom_table.
    + rewrite app_nil_l. do 2 f_equal.
      apply list_fmap_ext. intros i d _. apply rowOf_fields.
    + constructor; [done|].
      apply Forall_fmap, Forall_forall. intros d _. done.
Qed.

Lemma tabular_export_round_trip_witness :
  readCSV (generateCSVContent storeWithA)
  = Some [headers; fieldsOf (withSource
                               (js "https://www.google.com/maps/place/A?hl=en")
                               (js "2024-01-01T00:00:00.000Z")
                               (extractAllData (pageTitled (js "Cafe A"))))]
  /\ doubleQuotes (js "a") = js "a".
Proof.
  destruct tabular_export_round_trip as (_ & _ & _ & _ & _ & Hplain & _ & Hread).
  split.
  - rewrite Hread. vm_compute. reflexivity.
  - apply Hplain. vm_compute. discriminate.
Defined.

(** * Further properties *)

(** ** The canonical key *)

Lemma dropWhile_suffix p (s : jsstring) : exists pre, s = pre ++ dropWhile p s.
Proof. exists (takeWhile p s). by rewrite takeWhile_dropWhile. Qed.

(** X1. The canonical key of a link never contains a question mark, is
    an initial piece of the link, and is its own canonical key. *)
Theorem getUniqueUrl_canonical :
  forall u : jsstring,
    (QUESTION ∉ getUniqueUrl u)
    /\ (exists rest, u = getUniqueUrl u ++ rest)
    /\ getUniqueUrl (getUniqueUrl u) = getUniqueUrl u.
Proof.
  intros u.
  assert (QUESTION ∉ getUniqueUrl u) as Hno.
  { unfold getUniqueUrl. destruct (negb (nonempty u)).
    - apply not_elem_of_nil.
    - unfold splitHead. intros Hin. apply list_elem_of_In in Hin.
      pose proof (takeWhile_all (fun c => negb (c =? QUESTION)%N) u) as Hall.
      rewrite forallb_forall in Hall. specialize (Hall _ Hin).
      by rewrite N.eqb_refl in Hall. }
  split; [done|]. split.
  - unfold getUniqueUrl. destruct u as [|c r]; [by exists []|].
    cbn [nonempty negb]. apply takeWhile_prefix.
  - by apply getUniqueUrl_plain.
Qed.

(** ** The name extractor *)

Lemma validH1_name h1 :
  validH1 h1 = true ->
  trim h1 <> [] /\ isPlaceholder (trim h1) = false
  /\ includes (js "found") (trim h1) = false.
Proof.
  unfold validH1. cbv zeta. intros H.
  apply andb_prop in H as [H Hfound]. apply andb_prop in H as [Hne Hph].
  apply nonempty_true in Hne. apply negb_true_iff in Hph, Hfound. done.
Qed.

(** X2. The name extractor never returns one of the placeholder
    titles, and it returns the empty string exactly when no heading is
    valid and the main region has no usable label (none, an empty one
    or a placeholder). *)
Theorem extractName_never_placeholder :
  forall d,
    isPlaceholder (extractName d) = false
    /\ (extractName d = []
        <-> Forall (fun h1 => validH1 h1 = false) (h1s d)
            /\ match mainLabel d with
               | Some label => label = [] \/ isPlaceholder label = true
               | None => True
               end).
Proof.
  intros d. unfold extractName.
  destruct (List.find validH1 (h1s d)) as [h1|] eqn:Hfind.
  - apply find_some in Hfind as [Hin Hvalid].
    destruct (validH1_name _ Hvalid) as (Hne & Hph & _).
    split; [done|]. split; [done|].
    intros [Hall _]. rewrite Forall_forall in Hall.
    apply list_elem_of_In in Hin. apply Hall in Hin. congruence.
  - assert (Forall (fun h1 => validH1 h1 = false) (h1s d)) as Hall.
    { apply Forall_forall. intros h Hin. apply list_elem_of_In in Hin.
      by apply (find_none _ _ Hfind). }
    destruct (mainLabel d) as [label|]; [|done].
    destruct (nonempty label) eqn:Hne; cbn [andb].
    + destruct (isPlaceholder label) eqn:Hph; cbn [negb].
      * split; [done|]. split; [by intros _; split; [|right]|done].
      * split; [done|]. apply nonempty_true in Hne. split; [done|].
        intros [_ [H|H]]; congruence.
    + apply nonempty_false in Hne. split; [done|].
      split; [by intros _; split; [|left]|done].
Qed.

(** ** Cleaning a phone number *)

Lemma dropWhile_head p (s : jsstring) c :
  head (dropWhile p s) = Some c -> p c = false.
Proof.
  induction s as [|x s IH]; [done|]. simpl.
  destruct (p x) eqn:Hx; [done|]. simpl. by intros [= <-].
Qed.

Lemma last_rev_head (l : jsstring) : last (rev l) = head l.
Proof. destruct l as [|x l]; [done|]. simpl. apply last_snoc. Qed.

Lemma forallb_rev (p : N -> bool) (l : jsstring) :
  forallb p (rev l) = forallb p l.
Proof.
  induction l as [|x l IH]; [done|]. simpl.
  rewrite forallb_app, IH. simpl. rewrite andb_true_r. apply andb_comm.
Qed.

(** [dropWhileEnd] cuts off a run of [p] characters and stops at a
    character that is not one. *)
Lemma dropWhileEnd_split p (s : jsstring) :
  exists cut,
    s = dropWhileEnd p s ++ cut /\ forallb p cut = true
    /\ forall c, last (dropWhileEnd p s) = Some c -> p c = false.
Proof.
  unfold dropWhileEnd. exists (rev (takeWhile p (rev s))). split; [|split].
  - rewrite <- rev_app_distr, takeWhile_dropWhile. by rewrite rev_involutive.
  - rewrite forallb_rev. apply takeWhile_all.
  - intros c. rewrite last_rev_head. apply dropWhile_head.
Qed.

Lemma forallb_app_inv (p : N -> bool) (a b : jsstring) :
  forallb p (a ++ b) = true -> forallb p a = true /\ forallb p b = true.
Proof. rewrite forallb_app. apply andb_prop. Qed.

Lemma trim_split (s : jsstring) :
  exists pre post,
    s = pre ++ trim s ++ post
    /\ forallb is_space pre = true /\ forallb is_space post = true
    /\ (forall c, head (trim s) = Some c -> is_space c = false)
    /\ (forall c, last (trim s) = Some c -> is_space c = false).
Proof.
  unfold trim.
  destruct (dropWhileEnd_split is_space (dropWhile is_space s))
    as (post & Hpost & Hall & Hlast).
  exists (takeWhile is_space s), post.
  split; [|split; [|split; [|split]]]; try done.
  - rewrite <- Hpost. by rewrite takeWhile_dropWhile.
  - apply takeWhile_all.
  - intros c Hc. apply (dropWhile_head is_space s).
    rewrite Hpost. destruct (dropWhileEnd _ _); [done|]. exact Hc.
Qed.

Lemma cleanCoreAt_shape s m :
  cleanCoreAt s = Some m ->
  7 <= length m /\ forallb is_clean_body m = true
  /\ exists post, s = m ++ post.
Proof.
  unfold cleanCoreAt. cbv zeta.
  destruct (Nat.leb _ _) eqn:Hlen; [|done]. intros [= <-].
  apply Nat.leb_le in Hlen. split; [done|]. split; [apply takeWhile_all|].
  apply takeWhile_prefix.
Qed.

Lemma clean_body_phoneChar m :
  forallb is_clean_body m = true -> forallb phoneChar m = true.
Proof.
  rewrite !forallb_forall. intros H c Hc. unfold phoneChar.
  rewrite (H c Hc). apply orb_true_r.
Qed.

Lemma cleanPatternAt_shape s m :
  cleanPatternAt s = Some m ->
  7 <= length m /\ forallb phoneChar m = true
  /\ exists post, s = m ++ post.
Proof.
  unfold cleanPatternAt. destruct s as [|c r]; [done|].
  assert (cleanCoreAt (c :: r) = Some m ->
          7 <= length m /\ forallb phoneChar m = true
          /\ exists post, c :: r = m ++ post) as Hplain.
  { intros H. apply cleanCoreAt_shape in H as (Hlen & Hall & Hpost).
    split; [done|]. split; [by apply clean_body_phoneChar | done]. }
  destruct (is_lead c) eqn:Hlead; [|exact Hplain].
  destruct (cleanCoreAt r) as [m'|] eqn:Hcore; [|exact Hplain].
  intros [= <-]. apply cleanCoreAt_shape in Hcore as (Hlen & Hall & post & ->).
  split; [cbn [length]; lia|]. split; [|by exists post].
  cbn [forallb]. unfold phoneChar at 1. rewrite Hlead. cbn [orb andb].
  by apply clean_body_phoneChar.
Qed.

Lemma cleanPattern_shape text : forall m,
  cleanPattern text = Some m ->
  7 <= length m /\ forallb phoneChar m = true
  /\ exists pre post, text = pre ++ m ++ post.
Proof.
  induction text as [|c r IH]; intros m; cbn [cleanPattern].
  - destruct (cleanPatternAt []) eqn:E; [|done].
    intros [= <-]. apply cleanPatternAt_shape in E as (Hlen & Hall & post & Hp).
    split; [done|]. split; [done|]. by exists [], post.
  - destruct (cleanPatternAt (c :: r)) as [m'|] eqn:Hat.
    + intros [= <-].
      apply cleanPatternAt_shape in Hat as (Hlen & Hall & post & Hp).
      split; [done|]. split; [done|]. by exists [], post.
    + intros H. apply IH in H as (Hlen & Hall & pre & post & ->).
      split; [done|]. split; [done|]. by exists (c :: pre), post.
Qed.

(** What [cleanPhone] returns, for every text. *)
Lemma cleanPhone_result text :
  forallb phoneChar (cleanPhone text) = true
  /\ (exists pre post, text = pre ++ cleanPhone text ++ post)
  /\ (forall c, head (cleanPhone text) = Some c -> is_space c = false)
  /\ (forall c, last (cleanPhone text) = Some c -> is_trailer c = false)
  /\ (length text < 7 -> cleanPhone text = []).
Proof.
  unfold cleanPhone.
  destruct (negb (nonempty text)).
  { repeat split; try done. by exists [], text. }
  destruct (cleanPattern text) as [m|] eqn:Hm.
  2:{ repeat split; try done. by exists [], text. }
  apply cleanPattern_shape in Hm as (Hlen & Hall & pre & post & ->).
  destruct (dropWhileEnd_split is_trailer m) as (cut & Hcut & Hcutall & Hlast).
  set (x := dropWhileEnd is_trailer m) in *.
  destruct (trim_split x) as (a & b & Hx & Ha & Hb & Hhead & Htail).
  assert (b = [] \/ trim x = []) as Hb'.
  { destruct b as [|c b'] using rev_ind; [by left|]. right.
    clear IHb'. specialize (Hlast c).
    rewrite Hx, !app_assoc, last_snoc in Hlast.
    specialize (Hlast eq_refl).
    apply forallb_app_inv in Hb as [_ Hc]. simpl in Hc.
    rewrite andb_true_r in Hc. unfold is_trailer in Hlast.
    by rewrite Hc in Hlast. }
  split; [|split; [|split; [|split]]].
  - rewrite Hcut, Hx in Hall.
    apply forallb_app_inv in Hall as [Hall _].
    apply forallb_app_inv in Hall as [_ Hall].
    by apply forallb_app_inv in Hall as [Hall _].
  - exists (pre ++ a), (b ++ cut ++ post).
    rewrite Hcut. rewrite Hx at 1. by rewrite <- !app_assoc.
  - exact Hhead.
  - intros c Hc. destruct Hb' as [->|Hempty].
    + apply Hlast. rewrite Hx, app_nil_r.
      rewrite last_app, Hc. done.
    + by rewrite Hempty in Hc.
  - rewrite !length_app. lia.
Qed.

(** X3. Cleaning a phone number: whatever the text, the result is a
    piece of it made only of plus signs, parentheses, digits, white
    space, hyphens and dots; it does not start with white space nor
    end with white space, a hyphen or a dot; and a text of fewer than
    7 characters gives the empty string. *)
Theorem cleanPhone_is_clean :
  forall text,
    forallb phoneChar (cleanPhone text) = true
    /\ (exists pre post, text = pre ++ cleanPhone text ++ post)
    /\ (forall c, head (cleanPhone text) = Some c -> is_space c = false)
    /\ (forall c, last (cleanPhone text) = Some c -> is_trailer c = false)
    /\ (length text < 7 -> cleanPhone text = []).
Proof. exact cleanPhone_result. Qed.

Lemma cleanPhone_is_clean_witness :
  cleanPhone (js "12-34") = []
  /\ forallb phoneChar (cleanPhone (js "Call 555-123-4567.")) = true.
Proof.
  split.
  - apply (cleanPhone_is_clean (js "12-34")). vm_compute. lia.
  - apply (cleanPhone_is_clean (js "Call 555-123-4567.")).
Defined.

(** ** What a commit stores *)

Lemma extractPhone_phoneChars d : forallb phoneChar (extractPhone d) = true.
Proof. unfold extractPhone. cbv zeta. apply cleanPhone_result. Qed.

Lemma extractPhoneFromCard_phoneChars c :
  forallb phoneChar (extractPhoneFromCard c) = true.
Proof.
  unfold extractPhoneFromCard. destruct (container c) as [box|]; [|done].
  destruct (scanSpans (spans box)) as [p|] eqn:Hscan.
  - apply scanSpans_match in Hscan as (span & _ & _ & ->).
    apply cleanPhone_result.
  - destruct (ariaPhone box); [apply cleanPhone_result | done].
Qed.

Lemma candidate_phone e :
  phone (candidate e)
  = orElse (extractPhone (docAfter e)) (extractPhoneFromCard (card e)).
Proof.
  unfold candidate, orElse. cbv zeta. cbn [extractAllData phone].
  destruct (nonempty (extractPhone (docAfter e))) eqn:Hd; cbn [negb andb].
  - done.
  - destruct (nonempty (extractPhoneFromCard (card e))) eqn:Ho; cbn [phone withPhone].
    + done.
    + cbn [extractAllData phone].
      apply nonempty_false in Hd, Ho. by rewrite Hd, Ho.
Qed.

(** X4. What a commit stores: when [scrapeCard] returns true, the last
    record of the list is the new one; it holds the link of the entry
    unchanged, the time stamp, the non-empty name read from the panel,
    the phone of the panel or, when that is empty, the phone found on
    the card, made of phone characters only, and the website, address,
    rating and reviews read from the panel; its canonical key is in the
    dedup set. *)
Theorem committed_record :
  forall e s,
    fst (scrapeCard e s) = Returns true ->
    exists d,
      last (scrapedData (snd (scrapeCard e s))) = Some d
      /\ url d = href (card e) /\ scrapedAt d = now e
      /\ name d = extractName (docAfter e) /\ name d <> []
      /\ phone d
         = orElse (extractPhone (docAfter e)) (extractPhoneFromCard (card e))
      /\ forallb phoneChar (phone d) = true
      /\ website d = extractWebsite (docAfter e)
      /\ address d = extractAddress (docAfter e)
      /\ rating d = extractRating (docAfter e)
      /\ reviews d = extractReviews (docAfter e)
      /\ getUniqueUrl (url d) ∈ scrapedUrls (snd (scrapeCard e s)).
Proof.
  intros e s Htrue.
  apply scrapeCard_true_iff in Htrue as [Hreach Hname].
  pose proof (proj1 (nonempty_true _) Hname) as Hnamed.
  rewrite (scrapeCard_at_name_test e s Hreach), Hname. cbn [snd].
  exists (withSource (href (card e)) (now e) (candidate e)).
  rewrite commit_data, commit_urls, last_snoc.
  cbn [withSource url scrapedAt name phone website address rating reviews].
  split; [done|]. split; [done|]. split; [done|].
  split; [apply candidate_name|]. split; [exact Hnamed|].
  split; [apply candidate_phone|]. split.
  { rewrite candidate_phone. unfold orElse.
    destruct (nonempty (extractPhone (docAfter e)));
      [apply extractPhone_phoneChars | apply extractPhoneFromCard_phoneChars]. }
  assert (forall f : Place -> jsstring,
            (forall p d, f (withPhone p d) = f d) ->
            f (candidate e) = f (extractAllData (docAfter e))) as Hfield.
  { intros f Hf. unfold candidate. cbv zeta. by destruct (_ && _). }
  repeat split; try (by apply Hfield).
  apply elem_of_union_l, elem_of_singleton. reflexivity.
Qed.

Lemma committed_record_witness :
  exists d,
    last (scrapedData (snd (scrapeCard placeA_en newScraper))) = Some d
    /\ url d = js "https://www.google.com/maps/place/A?hl=en"
    /\ name d = js "Cafe A".
Proof.
  destruct (committed_record placeA_en newScraper) as (d & Hd & Hurl & _ & Hname & _).
  { vm_compute. reflexivity. }
  exists d. split; [exact Hd|]. split; [exact Hurl|].
  rewrite Hname. vm_compute. reflexivity.
Defined.

(** ** The poll, decided *)

Lemma poll_true_iff p docs : forall d tick,
  tick + d = lastTick -> 1 <= tick ->
  pollDetail p docs tick (elapsedBefore tick) = true
  <-> (exists k, tick <= k <= lastTick /\ detailReady p (docs k) = true)
      \/ truthy (findDetailH1 p (docs lastTick)) = true.
Proof.
  induction d as [|d IH]; intros tick Hd Htick; rewrite pollDetail_step;
    destruct (detailReady p (docs tick)) eqn:Hready.
  - split; [|done]. intros _. left. exists tick. split; [lia|done].
  - rewrite bool_decide_eq_true_2
      by (unfold elapsedBefore, DETAIL_TIMEOUT, POLL_INTERVAL, lastTick in *;
          lia).
    replace tick with lastTick in * by lia. split; [by right|].
    intros [(k & Hk & Hrk)|H]; [|done].
    replace k with lastTick in Hrk by lia. congruence.
  - split; [|done]. intros _. left. exists tick. split; [lia|done].
  - rewrite bool_decide_eq_false_2
      by (unfold elapsedBefore, DETAIL_TIMEOUT, POLL_INTERVAL, lastTick in *;
          lia).
    rewrite elapsedBefore_succ by done. rewrite IH by lia. split.
    + intros [(k & Hk & Hrk)|H]; [left|by right].
      exists k. split; [lia|done].
    + intros [(k & Hk & Hrk)|H]; [left|by right].
      exists k. split; [|done].
      destruct (decide (k = tick)) as [->|Hne]; [congruence|lia].
Qed.

(** X5. The detail-ready wait, decided: it resolves true exactly when
    one of its first 30 firings finds the ready condition or the 30th
    finds a fresh title; so it resolves true only if some firing saw a
    title that is valid and different from the previous name, and two
    pages that look the same at the first 30 firings get the same
    answer. *)
Theorem detail_wait_decision :
  (forall p docs,
      waitForDetailPanel p docs = true
      <-> (exists k, 1 <= k <= lastTick /\ detailReady p (docs k) = true)
          \/ truthy (findDetailH1 p (docs lastTick)) = true)
  /\ (forall p docs,
        waitForDetailPanel p docs = true ->
        exists k h1,
          1 <= k <= lastTick /\ h1 ∈ h1s (docs k)
          /\ validTitle h1 = true /\ trim h1 <> p)
  /\ (forall p docs docs',
        (forall k, 1 <= k <= lastTick -> docs k = docs' k) ->
        waitForDetailPanel p docs = waitForDetailPanel p docs').
Proof.
  assert (forall p docs,
            waitForDetailPanel p docs = true
            <-> (exists k, 1 <= k <= lastTick /\ detailReady p (docs k) = true)
                \/ truthy (findDetailH1 p (docs lastTick)) = true) as Hiff.
  { intros p docs. unfold waitForDetailPanel.
    apply (poll_true_iff p docs (lastTick - 1) 1); [done|lia]. }
  split; [exact Hiff|]. split.
  - intros p docs H. apply Hiff in H.
    assert (exists k, 1 <= k <= lastTick
                      /\ truthy (findDetailH1 p (docs k)) = true)
      as (k & Hk & Hfresh).
    { destruct H as [(k & Hk & Hready)|H].
      - exists k. split; [done|]. unfold detailReady in Hready.
        by destruct (findDetailH1 p (docs k)).
      - exists lastTick. split; [unfold lastTick; lia|done]. }
    unfold findDetailH1 in Hfresh.
    apply truthy_find in Hfresh as (h1 & Hin & Hf).
    apply freshH1_spec in Hf as [Hvalid Hne].
    by exists k, h1.
  - intros p docs docs' Hsame.
    assert (forall b b' : bool, (b = true <-> b' = true) -> b = b') as Hbool.
    { intros [] []; intuition congruence. }
    apply Hbool. rewrite !Hiff.
    rewrite <- (Hsame lastTick) by (unfold lastTick; lia).
    split; (intros [(k & Hk & Hr)|H]; [left|by right]); exists k;
      (split; [done|]); [by rewrite <- Hsame | by rewrite Hsame].
Qed.

Lemma detail_wait_decision_witness :
  exists k h1,
    1 <= k <= lastTick /\ h1 ∈ h1s (stuckPanel k)
    /\ validTitle h1 = true /\ trim h1 <> [].
Proof.
  destruct detail_wait_decision as (_ & Hsound & _).
  apply (Hsound [] stuckPanel). vm_compute. reflexivity.
Defined.

(** ** The poll and the commit *)

Lemma sameButConsole_refl s : sameButConsole s s.
Proof. by repeat split. Qed.

Lemma sameButConsole_log_l l s s' :
  sameButConsole s s' -> sameButConsole (log l s) s'.
Proof. intros H. exact H. Qed.

Lemma sameButConsole_interrupts cmds : forall s s',
  sameButConsole s s' ->
  sameButConsole (interrupts cmds s) (interrupts cmds s').
Proof.
  unfold interrupts.
  induction cmds as [|i cmds IH]; intros s s' H; [done|].
  cbn [foldl]. apply IH.
  destruct H as (Hd & Hu & Hr & Ho & Hdl).
  destruct i; unfold sameButConsole; cbn; by rewrite ?Hd, ?Hu, ?Hr, ?Ho, ?Hdl.
Qed.

Lemma sameButConsole_commit k d s s' :
  sameButConsole s s' -> sameButConsole (commit k d s) (commit k d s').
Proof.
  intros (Hd & Hu & Hr & Ho & Hdl).
  unfold sameButConsole; cbn; by rewrite ?Hd, ?Hu, ?Hr, ?Ho, ?Hdl.
Qed.

Lemma sameButConsole_afterWaits e docs s :
  sameButConsole (afterWaits (withTicks docs e) s) (afterWaits e s).
Proof.
  unfold afterWaits. cbv zeta. cbn [withTicks duringDetailWait duringSettle
    ticks docBefore card].
  apply sameButConsole_interrupts.
  destruct (waitForDetailPanel _ docs), (waitForDetailPanel _ (ticks e));
    unfold sameButConsole; cbn; done.
Qed.

(** X6. The outcome of the detail-ready wait is only logged: whatever
    documents the poll is shown, [scrapeCard] returns the same result
    and leaves the same record list, dedup set, running flag, outbox
    and downloads; at most the console differs. *)
Theorem poll_outcome_only_logged :
  forall e docs s,
    fst (scrapeCard (withTicks docs e) s) = fst (scrapeCard e s)
    /\ sameButConsole (snd (scrapeCard (withTicks docs e) s))
                      (snd (scrapeCard e s)).
Proof.
  intros e docs s. rewrite !scrapeCard_unfold. cbv zeta.
  change (candidate (withTicks docs e)) with (candidate e).
  cbn [withTicks card clickThrows docAfter docBefore now].
  destruct (bool_decide _); [split; [done|apply sameButConsole_refl]|].
  destruct (clickThrows e); [split; [done|apply sameButConsole_refl]|].
  pose proof (sameButConsole_afterWaits e docs s) as Hsame.
  destruct (_ && _); [split; [done|exact Hsame]|].
  destruct (nonempty _); cbn [fst snd]; (split; [done|]);
    [by apply sameButConsole_commit | exact Hsame].
Qed.

(** ** The store only grows *)

Lemma grownFrom_refl s : grownFrom s s.
Proof. split; done. Qed.

Lemma grownFrom_same_store s0 s s' :
  scrapedData s' = scrapedData s -> scrapedUrls s' = scrapedUrls s ->
  grownFrom s0 s -> grownFrom s0 s'.
Proof. unfold grownFrom. by intros -> ->. Qed.

Lemma grownFrom_commit s0 k d s :
  grownFrom s0 s -> grownFrom s0 (commit k d s).
Proof.
  intros [Hdata Hurls]. unfold grownFrom.
  rewrite commit_data, commit_urls. split.
  - by apply prefix_app_r.
  - by apply union_subseteq_r'.
Qed.

Lemma grownFrom_interrupts s0 cmds : forall s,
  resetFree cmds = true -> grownFrom s0 s ->
  grownFrom s0 (interrupts cmds s).
Proof.
  unfold interrupts, resetFree.
  induction cmds as [|i cmds IH]; intros s Hfree H; [done|].
  cbn [forallb] in Hfree. apply andb_prop in Hfree as [Hi Hfree].
  cbn [foldl]. apply IH; [done|]. destruct i; [|done].
  by apply (grownFrom_same_store s0 s).
Qed.

Lemma grownFrom_afterWaits s0 e s :
  resetFree (duringDetailWait e) = true ->
  resetFree (duringSettle e) = true ->
  grownFrom s0 s -> grownFrom s0 (afterWaits e s).
Proof.
  intros Hw Hs H. unfold afterWaits. cbv zeta.
  apply grownFrom_interrupts; [done|].
  destruct (waitForDetailPanel _ _).
  - by apply grownFrom_interrupts.
  - eapply grownFrom_same_store; [reflexivity|reflexivity|].
    by apply grownFrom_interrupts.
Qed.

Lemma grownFrom_scrapeCard s0 e s :
  resetFree (duringDetailWait e) = true ->
  resetFree (duringSettle e) = true ->
  grownFrom s0 s -> grownFrom s0 (snd (scrapeCard e s)).
Proof.
  intros Hw Hs H. rewrite scrapeCard_unfold. cbv zeta.
  destruct (bool_decide _); [done|].
  destruct (clickThrows e); [done|].
  pose proof (grownFrom_afterWaits s0 e s Hw Hs H) as Hafter.
  destruct (_ && _); [exact Hafter|].
  destruct (nonempty _); cbn [snd]; [by apply grownFrom_commit | done].
Qed.

Lemma grownFrom_afterCard s0 i e total st :
  cardResetFree e = true ->
  grownFrom s0 (engine st) ->
  grownFrom s0 (engine (afterCard i e total st)).
Proof.
  unfold cardResetFree. intros Hfree H.
  apply andb_prop in Hfree as [Hfree Hdelay].
  apply andb_prop in Hfree as [Hw Hs].
  unfold afterCard. cbv zeta. cbn [onEngine note engine].
  apply grownFrom_interrupts; [done|].
  assert (grownFrom s0
            (snd (scrapeCard e
                    (sendProgress (ScrapingCardOf (i + 1) total) (engine st)))))
    as Hcard.
  { apply grownFrom_scrapeCard; [done|done|].
    by apply (grownFrom_same_store s0 (engine st)). }
  destruct (fst _); [exact Hcard|].
  by apply (grownFrom_same_store s0 _ _ eq_refl eq_refl).
Qed.

Lemma grownFrom_forLoop s0 rest : forall i total nd st,
  forallb cardResetFree rest = true ->
  grownFrom s0 (engine st) ->
  grownFrom s0 (engine (fst (forLoop i rest total nd st))).
Proof.
  induction rest as [|e rest IH]; intros i total nd st Hfree H; [done|].
  cbn [forallb] in Hfree. apply andb_prop in Hfree as [He Hfree].
  rewrite forLoop_cons.
  destruct (negb _); [done|].
  case_bool_decide; apply IH; try done.
  by apply grownFrom_afterCard.
Qed.

Lemma forallb_drop {A} (f : A -> bool) n (l : list A) :
  forallb f l = true -> forallb f (drop n l) = true.
Proof.
  revert n. induction l as [|x l IH]; intros [|n] H; try done.
  cbn [forallb] in H. apply andb_prop in H as [_ H]. by apply IH.
Qed.

Lemma grownFrom_cycle s0 c st :
  cycleResetFree c = true ->
  grownFrom s0 (engine st) ->
  grownFrom s0 (engine (fst (cycle c st))).
Proof.
  unfold cycleResetFree. intros Hfree H.
  apply andb_prop in Hfree as [Hcards Hscroll].
  assert (grownFrom s0 (engine (fst (processVisible c st)))) as Hvis.
  { unfold processVisible. cbv zeta.
    apply grownFrom_forLoop; [by apply forallb_drop|].
    by apply (grownFrom_same_store s0 (engine st)). }
  unfold cycle. destruct (processVisible c st) as [st1 nd]. cbn [fst] in Hvis.
  destruct (fault c); [done|].
  destruct (hasReachedEnd c); [done|].
  assert (grownFrom s0
            (interrupts (duringScroll c)
               (sendProgress ScrollingForMore (engine st1)))) as Hscrolled.
  { apply grownFrom_interrupts; [done|].
    by apply (grownFrom_same_store s0 (engine st1)). }
  destruct (_ && _); [|done].
  by destruct (MAX_SCROLL_FAILS <=? _).
Qed.

Lemma grownFrom_whileLoop s0 cs : forall st,
  forallb cycleResetFree cs = true ->
  grownFrom s0 (engine st) ->
  grownFrom s0 (engine (fst (whileLoop cs st))).
Proof.
  induction cs as [|c cs IH]; intros st Hfree H; cbn [whileLoop].
  - by destruct (negb _).
  - cbn [forallb] in Hfree. apply andb_prop in Hfree as [Hc Hfree].
    destruct (negb _); [done|].
    pose proof (grownFrom_cycle s0 c st Hc H) as H'.
    destruct (cycle c st) as [st' [t|]]; cbn [fst] in *; [done|].
    by apply IH.
Qed.

(** X7. The store only grows: as long as no reset command arrives, a
    call of [scrapeCard] and a whole run keep every record that was
    there, in place at the front of the list, and every key of the
    dedup set; records are only ever appended. *)
Theorem store_append_only :
  (forall e s,
      resetFree (duringDetailWait e) = true ->
      resetFree (duringSettle e) = true ->
      grownFrom s (snd (scrapeCard e s)))
  /\ (forall env s,
        runResetFree env = true ->
        grownFrom s (final (start env s))
        /\ length (scrapedData s) <= length (scrapedData (final (start env s)))).
Proof.
  split.
  - intros e s Hw Hs. apply grownFrom_scrapeCard; [done|done|].
    apply grownFrom_refl.
  - intros env s Hfree.
    assert (grownFrom s (final (start env s))) as H.
    { unfold start.
      destruct (isRunning s);
        [by apply (grownFrom_same_store s s), grownFrom_refl|].
      destruct (negb (feed env));
        [by apply (grownFrom_same_store s s), grownFrom_refl|].
      fold (loopEntry s).
      pose proof (grownFrom_whileLoop s (cycles env) (loopEntry s) Hfree
                    (grownFrom_refl s)) as Hloop.
      destruct (whileLoop _ _) as [st t]. cbn [fst final] in *.
      destruct t; by apply (grownFrom_same_store s (engine st)). }
    split; [exact H|]. destruct H as [Hprefix _].
    by apply prefix_length.
Qed.

Lemma store_append_only_witness :
  grownFrom storeWithA
    (final (start stallingRun (setRunning false storeWithA))).
Proof.
  destruct store_append_only as (_ & Hrun).
  destruct (Hrun stallingRun (setRunning false storeWithA)) as [H _].
  { vm_compute. reflexivity. }
  exact H.
Defined.

(** ** The stall counter, bounded *)

Lemma cycle_fails_cases c st :
  consecutiveScrollFails st < MAX_SCROLL_FAILS ->
  (snd (cycle c st) = Some Stalled
   /\ consecutiveScrollFails (fst (cycle c st)) = MAX_SCROLL_FAILS)
  \/ (snd (cycle c st) <> Some Stalled
      /\ consecutiveScrollFails (fst (cycle c st)) < MAX_SCROLL_FAILS).
Proof.
  intros Hlt. unfold cycle.
  pose proof (processVisible_fails c st) as Hf.
  destruct (processVisible c st) as [st1 nd]. cbn [fst] in Hf.
  destruct (fault c); [right; cbn; split; [done|lia]|].
  destruct (hasReachedEnd c); [right; cbn; split; [done|lia]|].
  destruct (_ && _); [|right; cbn; split; [done|unfold MAX_SCROLL_FAILS; lia]].
  cbn [onEngine setFails consecutiveScrollFails]. rewrite Hf.
  destruct (MAX_SCROLL_FAILS <=? _) eqn:Hmax; cbn.
  - left. apply Nat.leb_le in Hmax. split; [done|lia].
  - right. apply Nat.leb_gt in Hmax. split; [done|lia].
Qed.

Lemma whileLoop_fails_cases cs : forall st,
  consecutiveScrollFails st < MAX_SCROLL_FAILS ->
  (snd (whileLoop cs st) = Stalled
   /\ consecutiveScrollFails (fst (whileLoop cs st)) = MAX_SCROLL_FAILS)
  \/ (snd (whileLoop cs st) <> Stalled
      /\ consecutiveScrollFails (fst (whileLoop cs st)) < MAX_SCROLL_FAILS).
Proof.
  induction cs as [|c cs IH]; intros st Hlt; cbn [whileLoop].
  - destruct (negb _); right; by split.
  - destruct (negb _); [right; by split|].
    pose proof (cycle_fails_cases c st Hlt) as Hc.
    destruct (cycle c st) as [st' [t|]]; cbn [fst snd] in *.
    + destruct Hc as [[[= ->] Hf]|[Hne Hf]]; [by left|right].
      split; [congruence|done].
    + destruct Hc as [[Hs _]|[_ Hf]]; [done|]. by apply IH.
Qed.

(** X8. The stall counter is bounded by the configured maximum: at the
    end of every run it is at most 3, and it is 3 exactly when the run
    ended by the stall. *)
Theorem stall_counter_bounded :
  forall env s,
    failsAtEnd (start env s) <= MAX_SCROLL_FAILS
    /\ (outcome (start env s) = Ended Stalled
        <-> failsAtEnd (start env s) = MAX_SCROLL_FAILS).
Proof.
  intros env s. unfold start.
  destruct (isRunning s); [cbn; split; [lia|done]|].
  destruct (negb (feed env)); [cbn; split; [lia|done]|].
  fold (loopEntry s).
  destruct (whileLoop_fails_cases (cycles env) (loopEntry s)) as [[Ht Hf]|[Ht Hf]].
  { cbn. unfold MAX_SCROLL_FAILS. lia. }
  - destruct (whileLoop _ _) as [st t]. cbn [fst snd] in *. subst t.
    cbn [outcome failsAtEnd]. split; [lia|done].
  - destruct (whileLoop _ _) as [st t]. cbn [fst snd] in *.
    cbn [outcome failsAtEnd]. split; [lia|]. split; [congruence|lia].
Qed.

(** ** How a run ends *)

Lemma whileLoop_pending_running cs : forall st,
  snd (whileLoop cs st) = Pending ->
  isRunning (engine (fst (whileLoop cs st))) = true.
Proof.
  induction cs as [|c cs IH]; intros st; cbn [whileLoop].
  - by destruct (isRunning (engine st)) eqn:Hrun; cbn [negb fst snd].
  - destruct (isRunning (engine st)) eqn:Hrun; cbn [negb fst snd]; [|done].
    pose proof (cycle_not_pending c st) as Hnp.
    destruct (cycle c st) as [st' [t|]]; cbn [fst snd] in *.
    + intros ->. done.
    + apply IH.
Qed.

(** X9. How a run ends: a run started on a page with a feed, read to
    the end of its script, either is at the head of its loop with
    [isRunning] set, the script saying no more, or has ended; when it
    has ended, for whatever reason, [isRunning] is cleared and the
    last message pushed is the completion message carrying the length
    of the record list; after a fatal error the error message is
    pushed just before it. *)
Theorem run_completion :
  forall env s,
    isRunning s = false -> feed env = true ->
    exists t,
      outcome (start env s) = Ended t
      /\ (t = Pending -> isRunning (final (start env s)) = true)
      /\ (t <> Pending ->
          isRunning (final (start env s)) = false
          /\ last (outbox (final (start env s)))
             = Some (scrapingComplete
                       (length (scrapedData (final (start env s))))))
      /\ (forall message,
            t = FatalError message ->
            exists out,
              outbox (final (start env s))
              = out ++ [scrapingError (ErrorWith message);
                        scrapingComplete
                          (length (scrapedData (final (start env s))))]).
Proof.
  intros env s Hidle Hfeed. unfold start. rewrite Hidle, Hfeed. cbn [negb].
  fold (loopEntry s).
  pose proof (whileLoop_pending_running (cycles env) (loopEntry s)) as Hpend.
  destruct (whileLoop _ _) as [st t]. cbn [fst snd] in Hpend.
  exists t. cbn [outcome final]. split; [done|]. split; [|split].
  - intros ->. by apply Hpend.
  - intros Hne. destruct t; try done;
      (split; [done|]); unfold sendComplete, send; cbn [outbox];
      by rewrite last_snoc.
  - intros message ->. exists (outbox (engine st)).
    unfold sendComplete, sendError, send. cbn. by rewrite <- app_assoc.
Qed.

Lemma run_completion_witness :
  exists t,
    outcome (start roughRun newScraper) = Ended t
    /\ (t <> Pending -> isRunning (final (start roughRun newScraper)) = false).
Proof.
  destruct (run_completion roughRun newScraper eq_refl eq_refl)
    as (t & Hout & _ & Hend & _).
  exists t. split; [exact Hout|]. intros Hne. by destruct (Hend Hne).
Defined.

(** ** Stopping *)

Lemma interrupts_stay_stopped cmds : forall s,
  isRunning s = false -> isRunning (interrupts cmds s) = false.
Proof.
  unfold interrupts.
  induction cmds as [|i cmds IH]; intros s H; [done|].
  cbn [foldl]. apply IH. by destruct i.
Qed.

Lemma whileLoop_stopped cs st :
  isRunning (engine st) = false -> whileLoop cs st = (st, UserStop).
Proof. intros H. destruct cs; cbn [whileLoop]; by rewrite H. Qed.

(** ** Entries already collected *)

Lemma attempts_app h1 h2 : attempts (h1 ++ h2) = attempts h1 ++ attempts h2.
Proof.
  induction h1 as [|ev h1 IH]; [done|]. destruct ev; simpl; by rewrite IH.
Qed.

Lemma forLoop_all_known rest : forall i total nd st,
  Forall (fun e => getUniqueUrl (href (card e)) ∈ scrapedUrls (engine st)) rest ->
  engine (fst (forLoop i rest total nd st)) = engine st
  /\ snd (forLoop i rest total nd st) = nd
  /\ attempts (history (fst (forLoop i rest total nd st)))
     = attempts (history st).
Proof.
  induction rest as [|e rest IH]; intros i total nd st Hknown; [done|].
  apply Forall_cons in Hknown as [He Hknown].
  rewrite forLoop_cons.
  destruct (negb _); [done|].
  rewrite bool_decide_eq_true_2 by done.
  destruct (IH (S i) total nd (advance i st) Hknown) as (Heng & Hnd & Hatt).
  rewrite Heng, Hnd, Hatt. split; [done|]. split; [done|].
  unfold advance, setCursor. cbn [history].
  rewrite attempts_app. cbn. by rewrite app_nil_r.
Qed.

(** X11. Entries already collected are skipped without interaction:
    the pass of a cycle over its snapshot, when the snapshot holds
    only entries whose canonical key is in the dedup set, calls
    [scrapeCard] for none of them and commits nothing; all that pass
    does to the instance is push the progress message that precedes
    the [for] loop. *)
Theorem known_cards_are_skipped :
  forall c st,
    Forall (fun e => getUniqueUrl (href (card e)) ∈ scrapedUrls (engine st))
           (cards c) ->
    engine (fst (processVisible c st))
    = sendProgress (ProcessingVisible (length (cards c))) (engine st)
    /\ snd (processVisible c st) = 0
    /\ attempts (history (fst (processVisible c st)))
       = attempts (history st).
Proof.
  intros c st Hknown. unfold processVisible. cbv zeta.
  match goal with
  | |- context [forLoop ?i ?rest ?total 0 ?st'] =>
      destruct (forLoop_all_known rest i total 0 st') as (Heng & Hnd & Hatt)
  end.
  { cbn [onEngine setCursor engine sendProgress send scrapedUrls].
    apply Forall_drop. exact Hknown. }
  rewrite Heng, Hnd, Hatt. split; [done|]. split; [done|].
  cbn [onEngine setCursor history]. rewrite attempts_app. cbn.
  by rewrite app_nil_r.
Qed.

Lemma known_cards_are_skipped_witness :
  snd (processVisible (quietCycle [placeA_en; placeA_fr]) (enterLoop storeWithA))
  = 0.
Proof.
  destruct (known_cards_are_skipped (quietCycle [placeA_en; placeA_fr])
              (enterLoop storeWithA)) as (_ & H & _).
  - repeat constructor; apply (bool_decide_unpack _); vm_compute; exact I.
  - exact H.
Defined.

(** ** The export command *)

Lemma generateCSVContent_fields s :
  generateCSVContent s = csvOf (headers :: (fieldsOf <$> scrapedData s)).
Proof.
  unfold generateCSVContent. do 2 f_equal.
  apply list_fmap_ext. intros i d _. apply rowOf_fields.
Qed.

Lemma readCSV_generate s :
  readCSV (generateCSVContent s)
  = Some (headers :: (fieldsOf <$> scrapedData s)).
Proof.
  rewrite generateCSVContent_fields. unfold readCSV.
  rewrite readFrom_table; [done|].
  constructor; [done|]. apply Forall_fmap, Forall_forall. by intros d _.
Qed.

(** X12. The export command: with an empty record list the answer is
    no-data and nothing happens; otherwise the answer is exported, the
    record list, dedup set, running flag and outbox are untouched, and
    exactly one file is handed to the browser for the formats csv,
    excel and json (none for any other format): the csv file reads
    back to the header and the records, the excel file is the same text
    behind a byte-order mark, the json file is made from the record
    list. *)
Theorem export_command :
  forall format env s,
    (scrapedData s = [] ->
     onMessage (export format) env s = (status_no_data, s))
    /\ (scrapedData s <> [] ->
        let s' := snd (onMessage (export format) env s) in
        fst (onMessage (export format) env s) = status_exported
        /\ scrapedData s' = scrapedData s /\ scrapedUrls s' = scrapedUrls s
        /\ isRunning s' = isRunning s /\ outbox s' = outbox s
        /\ match format with
           | FormatCsv =>
               exists text,
                 downloads s'
                 = downloads s
                   ++ [{| dl_content := TextFile text;
                          dl_filename := js "google-maps-data.csv";
                          dl_mimeType := js "text/csv;charset=utf-8" |}]
                 /\ readCSV text
                    = Some (headers :: (fieldsOf <$> scrapedData s))
           | FormatExcel =>
               exists text,
                 downloads s'
                 = downloads s
                   ++ [{| dl_content := TextFile (BOM :: text);
                          dl_filename := js "google-maps-data-excel.csv";
                          dl_mimeType := js "text/csv;charset=utf-8" |}]
                 /\ readCSV text
                    = Some (headers :: (fieldsOf <$> scrapedData s))
           | FormatJson =>
               downloads s'
               = downloads s
                 ++ [{| dl_content := JsonOf (scrapedData s);
                        dl_filename := js "google-maps-data.json";
                        dl_mimeType := js "application/json" |}]
           | FormatOther => downloads s' = downloads s
           end).
Proof.
  intros format env s. unfold onMessage. split.
  - intros ->. done.
  - intros Hne. destruct (scrapedData s) as [|d data] eqn:Hdata; [done|].
    cbn [length Nat.eqb]. cbv zeta. cbn [fst snd].
    split; [done|].
    unfold exportCSV, exportExcelCSV, exportJSON, downloadFile, log.
    destruct format;
      cbn [scrapedData scrapedUrls isRunning outbox downloads];
      rewrite ?Hdata; (split; [done|]); (split; [done|]);
      (split; [done|]); (split; [done|]); try done.
    + exists (generateCSVContent s). split; [done|].
      by rewrite readCSV_generate, Hdata.
    + exists (generateCSVContent s). split; [done|].
      by rewrite readCSV_generate, Hdata.
Qed.

Lemma export_command_witness :
  onMessage (export FormatCsv) noFeed newScraper = (status_no_data, newScraper)
  /\ fst (onMessage (export FormatJson) noFeed storeWithA) = status_exported.
Proof.
  split.
  - by apply (export_command FormatCsv noFeed newScraper).
  - apply (export_command FormatJson noFeed storeWithA).
    vm_compute. discriminate.
Defined.

(** X13. The tabular text tells record lists apart by their exported
    fields and by nothing else: two instances export the same text
    exactly when their records have, in order, the same name, phone,
    website, address, rating, reviews and link; the time stamp of a
    record is not exported. *)
Theorem export_tells_records_apart :
  forall s1 s2,
    generateCSVContent s1 = generateCSVContent s2
    <-> fieldsOf <$> scrapedData s1 = fieldsOf <$> scrapedData s2.
Proof.
  intros s1 s2. split.
  - intros H. pose proof (readCSV_generate s1) as H1.
    rewrite H, readCSV_generate in H1. by injection H1.
  - intros H. by rewrite !generateCSVContent_fields, H.
Qed.

(** ** The rating and the review count *)

Lemma runBeforeWordAt_run cls nocase word s m :
  runBeforeWordAt cls nocase word s = Some m ->
  forallb cls m = true /\ m <> [].
Proof.
  unfold runBeforeWordAt. cbv zeta.
  destruct (nonempty (takeWhile cls s)) eqn:Hne; [|done].
  destruct (if nocase then _ else _); [|done].
  intros [= <-]. split; [apply takeWhile_all | by apply nonempty_true].
Qed.

Lemma runBeforeWord_run cls nocase word text : forall m,
  runBeforeWord cls nocase word text = Some m ->
  forallb cls m = true /\ m <> [].
Proof.
  induction text as [|c r IH]; intros m; cbn [runBeforeWord];
    destruct (runBeforeWordAt _ _ _ _) as [m'|] eqn:Hat.
  - intros [= <-]. by apply runBeforeWordAt_run in Hat.
  - done.
  - intros [= <-]. by apply runBeforeWordAt_run in Hat.
  - apply IH.
Qed.

Lemma stripCommas_digits m :
  forallb is_count_char m = true -> forallb is_digit (stripCommas m) = true.
Proof.
  unfold stripCommas. induction m as [|c m IH]; [done|].
  cbn [forallb List.filter]. intros H. apply andb_prop in H as [Hc Hm].
  destruct (c =? COMMA)%N eqn:Hcomma; cbn [negb]; [by apply IH|].
  cbn [forallb]. rewrite IH by done. unfold is_count_char in Hc.
  apply orb_prop in Hc as [->|Hc]; [done|].
  unfold COMMA in Hcomma. congruence.
Qed.

Lemma bareCount_run text m :
  bareCount text = Some m -> forallb is_count_char m = true.
Proof.
  unfold bareCount. cbv zeta.
  destruct (nonempty _); [|done].
  destruct (dropWhile _ _) as [|c [|c' r]]; try done.
  - intros [= <-]. apply takeWhile_all.
  - destruct (c =? 41)%N; [|done]. intros [= <-]. apply takeWhile_all.
Qed.

Lemma reviewsFromLabels_digits labels : forall r,
  Panel.reviewsFromLabels labels = Some r -> forallb is_digit r = true.
Proof.
  induction labels as [|label rest IH]; intros r; cbn; [done|].
  destruct (runBeforeWord _ _ _ label) as [m|] eqn:Hm; [|apply IH].
  intros [= <-]. apply stripCommas_digits.
  by apply runBeforeWord_run in Hm as [Hm _].
Qed.

Lemma reviewsFromSpans_digits texts : forall r,
  Panel.reviewsFromSpans texts = Some r ->
  forallb is_digit r = true /\ parsesPositive r = true.
Proof.
  induction texts as [|span rest IH]; intros r; cbn; [done|].
  destruct (bareCount (trim span)) as [m|] eqn:Hm; [|apply IH].
  destruct (parsesPositive (stripCommas m)) eqn:Hpos; [|apply IH].
  intros [= <-]. split; [|done].
  apply stripCommas_digits. by apply bareCount_run in Hm.
Qed.

(** X14. The rating read from the panel is made of digits and dots
    only, whatever the page shows; when the star element is there, the
    rating is what stands before the word star in its label, or
    nothing, and the hidden span is not consulted. *)
Theorem rating_is_numeric :
  forall v,
    forallb is_rating_char (Panel.extractRating v) = true
    /\ (forall label,
          starLabel v = Some label ->
          Panel.extractRating v <> [] ->
          runBeforeWord is_rating_char true (js "star") label
          = Some (Panel.extractRating v)).
Proof.
  intros v. unfold Panel.extractRating. split.
  - destruct (starLabel v) as [label|].
    + destruct (runBeforeWord _ _ _ label) as [m|] eqn:Hm; [|done].
      by apply runBeforeWord_run in Hm as [Hm _].
    + destruct (hiddenSpan v) as [span|]; [|done]. cbv zeta.
      destruct (isDigitDotDigit (trim span)) eqn:Hd; [|done].
      destruct (trim span) as [|a [|dot [|b [|x r]]]]; try done.
      unfold isDigitDotDigit in Hd. apply andb_prop in Hd as [Hd Hb].
      apply andb_prop in Hd as [Ha Hdot].
      cbn [forallb]. unfold is_rating_char.
      rewrite Ha, Hb, Hdot. by rewrite orb_true_r.
  - intros label ->.
    destruct (runBeforeWord _ _ _ label); intros H; [reflexivity|].
    by destruct H.
Qed.

Lemma rating_is_numeric_witness :
  Panel.extractRating
    {| starLabel := Some (js "4.5 stars 1,234 Reviews"); hiddenSpan := None;
       reviewLabels := []; spanTexts := []; anchors := [];
       endEl := None; endAlt := None |}
  = js "4.5".
Proof.
  destruct (rating_is_numeric
              {| starLabel := Some (js "4.5 stars 1,234 Reviews");
                 hiddenSpan := None; reviewLabels := []; spanTexts := [];
                 anchors := []; endEl := None; endAlt := None |})
    as [_ H].
  specialize (H _ eq_refl). cbn [starLabel] in H.
  assert (forall a b : jsstring, Some a = Some b -> b = a) as Hinj
    by (by intros a b [= ->]).
  apply Hinj. rewrite <- H; [vm_compute; reflexivity|].
  vm_compute. discriminate.
Defined.

(** X15. The review count read from the panel is made of digits only,
    the thousands separators being removed, whatever the page shows;
    and a count taken from the bare text of a span, the last resort,
    has a digit that is not 0. *)
Theorem reviews_are_digits :
  forall v,
    forallb is_digit (Panel.extractReviews v) = true
    /\ (forall r,
          Panel.reviewsFromSpans (spanTexts v) = Some r ->
          forallb is_digit r = true /\ parsesPositive r = true).
Proof.
  intros v. split; [|apply reviewsFromSpans_digits].
  unfold Panel.extractReviews. cbv zeta.
  assert (forall label m,
            runBeforeWord is_count_char true (js "review") label = Some m ->
            forallb is_digit (stripCommas m) = true) as Hstar.
  { intros label m Hm. apply stripCommas_digits.
    by apply runBeforeWord_run in Hm as [Hm _]. }
  destruct (starLabel v) as [label|].
  - destruct (runBeforeWord _ _ _ label) as [m|] eqn:Hm; [by eapply Hstar|].
    destruct (Panel.reviewsFromLabels _) as [r|] eqn:Hl;
      [by eapply reviewsFromLabels_digits|].
    destruct (Panel.reviewsFromSpans _) as [r|] eqn:Hs; [|done].
    by apply reviewsFromSpans_digits in Hs as [Hs _].
  - destruct (Panel.reviewsFromLabels _) as [r|] eqn:Hl;
      [by eapply reviewsFromLabels_digits|].
    destruct (Panel.reviewsFromSpans _) as [r|] eqn:Hs; [|done].
    by apply reviewsFromSpans_digits in Hs as [Hs _].
Qed.

Lemma reviews_are_digits_witness :
  Panel.reviewsFromSpans [js "Open"; js "(1,234)"] = Some (js "1234")
  /\ parsesPositive (js "1234") = true.
Proof.
  split; [vm_compute; reflexivity|].
  destruct (reviews_are_digits
              {| starLabel := None; hiddenSpan := None; reviewLabels := [];
                 spanTexts := [js "Open"; js "(1,234)"]; anchors := [];
                 endEl := None; endAlt := None |}) as [_ H].
  apply (H (js "1234")). vm_compute. reflexivity.
Defined.

(** ** The website, the address and the end of the list *)

Lemma afterPrefix_spec pat : forall s rest,
  afterPrefix pat s = Some rest <-> s = pat ++ rest.
Proof.
  induction pat as [|a pat IH]; intros s rest; cbn [afterPrefix].
  - cbn. split; [by intros [= ->] | by intros ->].
  - destruct s as [|b s]; [done|].
    destruct (a =? b)%N eqn:Hab.
    + apply N.eqb_eq in Hab as ->. rewrite IH. cbn.
      split; [by intros -> | by intros [= ->]].
    + apply N.eqb_neq in Hab. split; [done|]. cbn. by intros [= <- _].
Qed.

Lemma afterPrefixNoCase_spec pat : forall s rest,
  afterPrefixNoCase pat s = Some rest
  <-> exists p, s = p ++ rest /\ upcase <$> p = upcase <$> pat.
Proof.
  induction pat as [|a pat IH]; intros s rest; cbn [afterPrefixNoCase].
  - split.
    + intros [= ->]. by exists [].
    + intros (p & -> & Hp). apply fmap_nil_inv in Hp as ->. done.
  - destruct s as [|b s].
    + split; [done|]. intros (p & Hs & Hp).
      destruct p; [done|]. done.
    + destruct (upcase a =? upcase b)%N eqn:Hab.
      * apply N.eqb_eq in Hab. rewrite IH. split.
        -- intros (p & -> & Hp). exists (b :: p). split; [done|].
           cbn. by rewrite Hp, Hab.
        -- intros (p & Hs & Hp). destruct p as [|b' p]; [done|].
           cbn in Hs, Hp. injection Hs as <- ->. injection Hp as _ Hp.
           by exists p.
      * apply N.eqb_neq in Hab. split; [done|].
        intros (p & Hs & Hp). destruct p as [|b' p]; [done|].
        cbn in Hs, Hp. injection Hs as <- _. injection Hp as Hb _.
        congruence.
Qed.

Lemma urlAt_shape s m :
  urlAt s = Some m ->
  startsWith (js "http") m = true
  /\ forallb (fun c => negb (is_space c)) m = true
  /\ exists post, s = m ++ post.
Proof.
  unfold urlAt.
  destruct (afterPrefix (js "http") s) as [rest|] eqn:Hhttp; [|done].
  apply afterPrefix_spec in Hhttp as ->.
  assert (forall scheme rest' : jsstring,
            startsWith (js "http") scheme = true ->
            forallb (fun c => negb (is_space c)) (scheme ++ js "://") = true ->
            js "http" ++ rest = scheme ++ rest' ->
            match afterPrefix (js "://") rest' with
            | Some tail =>
                let run := takeWhile (fun c => negb (is_space c)) tail in
                if nonempty run then Some (scheme ++ js "://" ++ run) else None
            | None => None
            end = Some m ->
            startsWith (js "http") m = true
            /\ forallb (fun c => negb (is_space c)) m = true
            /\ exists post, js "http" ++ rest = m ++ post) as Hcont.
  { intros scheme rest' Hscheme Hclean Hsplit.
    destruct (afterPrefix (js "://") rest') as [tail|] eqn:Htail; [|done].
    apply afterPrefix_spec in Htail as ->. cbv zeta.
    destruct (nonempty _); [|done]. intros Hm.
    apply (inj Some) in Hm. rewrite <- Hm. split; [|split].
    - destruct scheme as [|h [|t [|t' [|p scheme]]]]; try done.
    - rewrite forallb_app in Hclean. apply andb_prop in Hclean as [H1 H2].
      rewrite !forallb_app, H1, H2. apply takeWhile_all.
    - destruct (takeWhile_prefix (fun c => negb (is_space c)) tail)
        as [post Hpost].
      exists post. rewrite Hsplit. rewrite Hpost at 1.
      by rewrite <- !app_assoc. }
  destruct rest as [|c r].
  - by apply (Hcont (js "http") []).
  - destruct (c =? 115)%N eqn:Hc.
    + apply N.eqb_eq in Hc as ->. by apply (Hcont (js "https") r).
    + by apply (Hcont (js "http") (c :: r)).
Qed.

Lemma urlIn_shape label : forall m,
  urlIn label = Some m ->
  startsWith (js "http") m = true
  /\ forallb (fun c => negb (is_space c)) m = true
  /\ exists pre post, label = pre ++ m ++ post.
Proof.
  induction label as [|c r IH]; intros m; cbn [urlIn];
    destruct (urlAt _) as [m'|] eqn:Hat.
  - intros [= <-]. apply urlAt_shape in Hat as (H1 & H2 & post & H3).
    split; [done|]. split; [done|]. by exists [], post.
  - done.
  - intros [= <-]. apply urlAt_shape in Hat as (H1 & H2 & post & H3).
    split; [done|]. split; [done|]. by exists [], post.
  - intros H. apply IH in H as (H1 & H2 & pre & post & ->).
    split; [done|]. split; [done|]. by exists (c :: pre), post.
Qed.

Lemma firstExternal_result l :
  Panel.firstExternal l = []
  \/ exists link,
       link ∈ l /\ a_inMain link = true /\ Panel.firstExternal l = a_href link
       /\ startsWith (js "http") (a_href link) = true
       /\ includes (js "google.com") (a_href link) = false
       /\ includes (js "gstatic.com") (a_href link) = false.
Proof.
  induction l as [|link l IH]; [by left|]. cbn [Panel.firstExternal].
  destruct (a_inMain link && truthy (a_hrefAttr link)
            && Panel.isExternal (a_href link)) eqn:Hok.
  - right. exists link. split; [apply list_elem_of_here|].
    apply andb_prop in Hok as [Hok Hext]. apply andb_prop in Hok as [Hmain _].
    unfold Panel.isExternal in Hext.
    apply andb_prop in Hext as [Hext Hhttp].
    apply andb_prop in Hext as [Hext Hgs].
    apply andb_prop in Hext as [_ Hgo].
    apply negb_true_iff in Hgs, Hgo. done.
  - destruct IH as [->|(a & Hin & Ha)]; [by left|right].
    exists a. split; [by apply list_elem_of_further | done].
Qed.

(** X16. The website fallbacks: when the page has neither an authority
    link nor an authority button, the website is empty or the address
    of a link inside the main region that starts with http and
    contains neither google.com nor gstatic.com; and a web address
    taken out of a label starts with http, holds no white space and is
    a piece of that label. *)
Theorem website_fallbacks :
  (forall bs v,
      Panel.anchorFor (js "authority") (anchors v) = None ->
      Panel.buttonFor (js "authority") bs = None ->
      Panel.extractWebsite bs v = []
      \/ exists link,
           link ∈ anchors v /\ a_inMain link = true
           /\ Panel.extractWebsite bs v = a_href link
           /\ startsWith (js "http") (a_href link) = true
           /\ includes (js "google.com") (a_href link) = false
           /\ includes (js "gstatic.com") (a_href link) = false)
  /\ (forall label m,
        urlIn label = Some m ->
        startsWith (js "http") m = true
        /\ forallb (fun c => negb (is_space c)) m = true
        /\ exists pre post, label = pre ++ m ++ post).
Proof.
  split.
  - intros bs v Hlink Hbtn. unfold Panel.extractWebsite.
    rewrite Hlink, Hbtn. apply firstExternal_result.
  - intros label m. apply urlIn_shape.
Qed.

Lemma website_fallbacks_witness :
  Panel.extractWebsite []
    {| starLabel := None; hiddenSpan := None; reviewLabels := [];
       spanTexts := [];
       anchors := [{| a_dataItemId := None;
                      a_hrefAttr := Some (js "/maps/about");
                      a_href := js "https://www.google.com/maps/about";
                      a_inMain := true |};
                   {| a_dataItemId := None;
                      a_hrefAttr := Some (js "https://cafe-a.example/");
                      a_href := js "https://cafe-a.example/";
                      a_inMain := true |}];
       endEl := None; endAlt := None |}
  = js "https://cafe-a.example/".
Proof.
  destruct website_fallbacks as [Hscan _].
  match goal with
  | |- Panel.extractWebsite ?bs ?v = _ =>
      destruct (Hscan bs v eq_refl eq_refl) as [H|(link & _ & _ & H & _)]
  end.
  - vm_compute in H. discriminate H.
  - vm_compute. reflexivity.
Defined.

Lemma startsWith_refl (w : jsstring) : startsWith w w = true.
Proof. induction w as [|c w IH]; [done|]. cbn. by rewrite N.eqb_refl. Qed.

Lemma includes_self (w : jsstring) : includes w w = true.
Proof. destruct w; cbn [includes]; by rewrite startsWith_refl. Qed.

(** X17. The address read from the panel has no white space at either
    end, and it is empty when no button carries an item id containing
    the word address. *)
Theorem address_is_trimmed :
  forall bs,
    (forall c, head (Panel.extractAddress bs) = Some c -> is_space c = false)
    /\ (forall c, last (Panel.extractAddress bs) = Some c -> is_space c = false)
    /\ (Forall (fun b => Panel.idHas (js "address") (btn_dataItemId b) = false) bs ->
        Panel.extractAddress bs = []).
Proof.
  intros bs. unfold Panel.extractAddress.
  split; [|split].
  - destruct (Panel.buttonFor _ bs) as [b|]; [|done]. cbv zeta.
    unfold orElse. intros c.
    destruct (nonempty _); intros H;
      match type of H with
      | head (trim ?x) = _ =>
          destruct (trim_split x) as (_ & _ & _ & _ & _ & Hh & _); by apply Hh
      end.
  - destruct (Panel.buttonFor _ bs) as [b|]; [|done]. cbv zeta.
    unfold orElse. intros c.
    destruct (nonempty _); intros H;
      match type of H with
      | last (trim ?x) = _ =>
          destruct (trim_split x) as (_ & _ & _ & _ & _ & _ & Hl); by apply Hl
      end.
  - intros Hnone. unfold Panel.buttonFor.
    assert (forall f, (forall b, f b = true ->
                         Panel.idHas (js "address") (btn_dataItemId b) = true) ->
                      List.find f bs = None) as Hfind.
    { intros f Hf. destruct (List.find f bs) as [b|] eqn:E; [|done].
      apply find_some in E as [Hin Hb]. apply list_elem_of_In in Hin.
      rewrite Forall_forall in Hnone. specialize (Hnone b Hin).
      rewrite (Hf b Hb) in Hnone. done. }
    rewrite Hfind, Hfind; [done|done|].
    intros b. unfold Panel.idIs, Panel.idHas.
    destruct (btn_dataItemId b) as [id|]; [|done].
    intros H. apply jsstring_eqb_eq in H as ->. apply includes_self.
Qed.

Lemma address_is_trimmed_witness :
  Panel.extractAddress
    [{| btn_dataItemId := Some (js "phone:tel:5551234567");
        btn_ariaLabel := Some (js "Phone: 555 123 4567");
        btn_text := js "555 123 4567" |}]
  = [].
Proof.
  match goal with
  | |- Panel.extractAddress ?bs = _ =>
      destruct (address_is_trimmed bs) as (_ & _ & H)
  end.
  apply H. repeat constructor.
Defined.

Lemma endPhraseAt_spec s :
  endPhraseAt s = true
  <-> exists you c tail post,
        s = you ++ c :: tail ++ post
        /\ upcase <$> you = js "YOU" /\ isLineTerminator c = false
        /\ upcase <$> tail = js "VE REACHED THE END".
Proof.
  unfold endPhraseAt. split.
  - destruct (afterPrefixNoCase (js "you") s) as [[|c r]|] eqn:Hyou; try done.
    intros H. apply andb_prop in H as [Hc Htail].
    apply negb_true_iff in Hc.
    destruct (afterPrefixNoCase _ r) as [post|] eqn:Hr; [|done].
    apply afterPrefixNoCase_spec in Hyou as (you & -> & Hy).
    apply afterPrefixNoCase_spec in Hr as (tail & -> & Ht).
    by exists you, c, tail, post.
  - intros (you & c & tail & post & -> & Hy & Hc & Ht).
    assert (afterPrefixNoCase (js "you") (you ++ c :: tail ++ post)
            = Some (c :: tail ++ post)) as ->.
    { apply afterPrefixNoCase_spec. by exists you. }
    assert (afterPrefixNoCase (js "ve reached the end") (tail ++ post)
            = Some post) as ->.
    { apply afterPrefixNoCase_spec. by exists tail. }
    by rewrite Hc.
Qed.

Lemma endPhrase_spec text :
  endPhrase text = true
  <-> exists pre you c tail post,
        text = pre ++ you ++ c :: tail ++ post
        /\ upcase <$> you = js "YOU" /\ isLineTerminator c = false
        /\ upcase <$> tail = js "VE REACHED THE END".
Proof.
  induction text as [|x text IH]; cbn [endPhrase].
  - rewrite orb_false_r, endPhraseAt_spec. split.
    + intros (you & c & tail & post & H). by exists [], you, c, tail, post.
    + intros (pre & you & c & tail & post & Hs & H).
      destruct pre; [|done]. by exists you, c, tail, post.
  - rewrite orb_true_iff, endPhraseAt_spec, IH. split.
    + intros [(you & c & tail & post & H)|(pre & you & c & tail & post & -> & H)].
      * by exists [], you, c, tail, post.
      * by exists (x :: pre), you, c, tail, post.
    + intros (pre & you & c & tail & post & Hs & H).
      destruct pre as [|x' pre].
      * left. by exists you, c, tail, post.
      * right. injection Hs as -> ->. by exists pre, you, c, tail, post.
Qed.

(** X18. The end of the list: the test holds exactly when the text of
    one of its two candidate elements contains the words you, then any
    one character that is not a line terminator (a straight or a curly
    apostrophe, for one), then ve reached the end, in any mix of upper
    and lower case. *)
Theorem end_of_list_phrase :
  forall v,
    Panel.hasReachedEnd v = true
    <-> exists text,
          (endEl v = Some text \/ endAlt v = Some text)
          /\ exists pre you c tail post,
               text = pre ++ you ++ c :: tail ++ post
               /\ upcase <$> you = js "YOU" /\ isLineTerminator c = false
               /\ upcase <$> tail = js "VE REACHED THE END".
Proof.
  intros v. unfold Panel.hasReachedEnd, Panel.showsEnd. split.
  - destruct (endEl v) as [t|].
    + destruct (endPhrase t) eqn:Ht.
      * intros _. exists t. split; [by left|]. by apply endPhrase_spec.
      * destruct (endAlt v) as [a|]; [|done].
        destruct (endPhrase a) eqn:Ha; [|done].
        intros _. exists a. split; [by right|]. by apply endPhrase_spec.
    + destruct (endAlt v) as [a|]; [|done].
      destruct (endPhrase a) eqn:Ha; [|done].
      intros _. exists a. split; [by right|]. by apply endPhrase_spec.
  - intros (text & Hel & Hphrase). apply endPhrase_spec in Hphrase.
    destruct Hel as [->| ->].
    + by rewrite Hphrase.
    + rewrite Hphrase. by destruct (endEl v) as [t|]; [destruct (endPhrase t)|].
Qed.

(** ** The popup *)

Ltac popup_unfold :=
  cbv [popupStep received setRunningState enableExportButtons
       updateResetButton setResetHidden setCount setStatus setProgress
       showWarning countPositive resetVisible resetPresent popupLoaded
       p_isRunning resetButton countShown startHidden stopHidden
       csvDisabled excelDisabled jsonDisabled statusShown progressShown
       warningShown negb andb orb].

Ltac popup_atoms :=
  repeat (popup_unfold;
          match goal with
          | H : responseRunning ?r = _ |- context [responseRunning ?r] =>
              rewrite H
          | H : (0 <? ?k) = _ |- context [0 <? ?k] => rewrite H
          | |- context [responseRunning ?r] =>
              let E := fresh "E" in destruct (responseRunning r) eqn:E
          | |- context [0 <? ?k] =>
              let E := fresh "E" in destruct (0 <? k) eqn:E
          end).

Lemma popupStep_reset_gated p ev :
  (p_isRunning p = true -> resetVisible p = false) ->
  p_isRunning (popupStep p ev) = true ->
  resetVisible (popupStep p ev) = false.
Proof.
  destruct p as [run sh th rb c x j [k'|] st pr w];
    destruct ev as [| | | [r|] | | [r|] | | [k|m|k|m] | [r|]];
    popup_unfold; try done;
    popup_atoms; popup_unfold; try done;
    destruct run; popup_unfold; try done;
    destruct rb as [[]|]; popup_unfold; try done; auto.
Qed.

Lemma popupRun_snoc evs ev p :
  popupRun (evs ++ [ev]) p = popupStep (popupRun evs p) ev.
Proof. unfold popupRun. by rewrite foldl_app. Qed.

(** X19. The reset button is never offered while the popup takes a
    run to be in progress: from the moment its script is loaded, and
    after any sequence of clicks, answers and pushed messages, the
    button is hidden (or absent) whenever the [isRunning] of the popup
    is set. *)
Theorem reset_hidden_while_running :
  forall page evs,
    p_isRunning (popupRun evs (popupLoaded page)) = true ->
    resetVisible (popupRun evs (popupLoaded page)) = false.
Proof.
  intros page evs. induction evs as [|ev evs IH] using rev_ind; [done|].
  rewrite popupRun_snoc. by apply popupStep_reset_gated.
Qed.

Lemma reset_hidden_while_running_witness :
  resetVisible (popupRun [Received (updateCount 2); StartPressed]
                  (popupLoaded freshPage)) = false.
Proof.
  apply (reset_hidden_while_running freshPage
           [Received (updateCount 2); StartPressed]).
  reflexivity.
Defined.

Lemma popupStep_controls p ev :
  startHidden p = p_isRunning p /\ stopHidden p = negb (p_isRunning p)
  /\ excelDisabled p = csvDisabled p /\ jsonDisabled p = csvDisabled p ->
  startHidden (popupStep p ev) = p_isRunning (popupStep p ev)
  /\ stopHidden (popupStep p ev) = negb (p_isRunning (popupStep p ev))
  /\ excelDisabled (popupStep p ev) = csvDisabled (popupStep p ev)
  /\ jsonDisabled (popupStep p ev) = csvDisabled (popupStep p ev).
Proof.
  destruct p as [run sh th rb c x j [k'|] st pr w];
    destruct ev as [| | | [r|] | | [r|] | | [k|m|k|m] | [r|]];
    popup_unfold; intros (-> & -> & -> & ->); try done;
    popup_atoms; popup_unfold; try done;
    destruct run; popup_unfold; done.
Qed.

(** X20. The controls of the popup stay consistent: on a page whose
    markup shows the start button, hides the stop button and has the
    three export buttons in the same state, after any sequence of
    clicks, answers and pushed messages the start button is hidden
    exactly when the popup takes a run to be in progress, the stop
    button exactly when it does not, and the three export buttons are
    enabled or disabled together. *)
Theorem controls_consistent :
  forall page evs,
    startHidden page = false -> stopHidden page = true ->
    excelDisabled page = csvDisabled page ->
    jsonDisabled page = csvDisabled page ->
    let p := popupRun evs (popupLoaded page) in
    startHidden p = p_isRunning p
    /\ stopHidden p = negb (p_isRunning p)
    /\ excelDisabled p = csvDisabled p
    /\ jsonDisabled p = csvDisabled p.
Proof.
  intros page evs Hs Ht Hx Hj. cbv zeta.
  induction evs as [|ev evs IH] using rev_ind; [done|].
  rewrite popupRun_snoc. by apply popupStep_controls.
Qed.

Lemma controls_consistent_witness :
  let p := popupRun [StartPressed; Received (scrapingComplete 3)]
             (popupLoaded freshPage) in
  startHidden p = p_isRunning p
  /\ stopHidden p = negb (p_isRunning p)
  /\ excelDisabled p = csvDisabled p
  /\ jsonDisabled p = csvDisabled p.
Proof.
  apply (controls_consistent freshPage
           [StartPressed; Received (scrapingComplete 3)]);
    reflexivity.
Defined.

Lemma popupStep_export_count p ev :
  (csvDisabled p = false -> countPositive p = true) ->
  csvDisabled (popupStep p ev) = false ->
  countPositive (popupStep p ev) = true.
Proof.
  destruct p as [run sh th rb c x j [k'|] st pr w];
    destruct ev as [| | | [r|] | | [r|] | | [k|m|k|m] | [r|]];
    popup_unfold; try done;
    popup_atoms; popup_unfold; try done;
    destruct run; popup_unfold; try done; intuition congruence.
Qed.

(** X21. Export is offered only for a positive count: on a page whose
    markup has the CSV button disabled, after any sequence of clicks,
    answers and pushed messages, the button is enabled only while the
    count the popup shows is above zero. *)
Theorem export_needs_a_count :
  forall page evs,
    csvDisabled page = true ->
    let p := popupRun evs (popupLoaded page) in
    csvDisabled p = false -> countPositive p = true.
Proof.
  intros page evs Hc. cbv zeta.
  induction evs as [|ev evs IH] using rev_ind.
  - cbn. by rewrite Hc.
  - rewrite popupRun_snoc. by apply popupStep_export_count.
Qed.

Lemma export_needs_a_count_witness :
  countPositive (popupRun [Received (updateCount 2)] (popupLoaded freshPage))
  = true.
Proof.
  apply (export_needs_a_count freshPage [Received (updateCount 2)]);
    reflexivity.
Defined.

(** ** The engine as the popup sees it *)

Lemma outbox_interrupts s0 cmds : forall s,
  outbox s0 `prefix_of` outbox s ->
  outbox s0 `prefix_of` outbox (interrupts cmds s).
Proof.
  unfold interrupts.
  induction cmds as [|i cmds IH]; intros s H; [done|].
  cbn [foldl]. apply IH. destruct i; [|done].
  unfold interrupt, stop, sendProgress, send. cbn [outbox].
  by apply prefix_app_r.
Qed.

Lemma outbox_afterWaits s0 e s :
  outbox s0 `prefix_of` outbox s ->
  outbox s0 `prefix_of` outbox (afterWaits e s).
Proof.
  intros H. unfold afterWaits. apply outbox_interrupts.
  destruct (waitForDetailPanel _ _); [|unfold log; cbn [outbox]];
    by apply outbox_interrupts.
Qed.

Lemma outbox_scrapeCard s0 e s :
  outbox s0 `prefix_of` outbox s ->
  outbox s0 `prefix_of` outbox (snd (scrapeCard e s)).
Proof.
  intros H. rewrite scrapeCard_unfold. cbv zeta.
  case_bool_decide; [done|].
  destruct (clickThrows e); [done|].
  destruct (_ && _); cbn [snd].
  { unfold log. cbn [outbox]. by apply outbox_afterWaits. }
  destruct (nonempty _); cbn [snd].
  - rewrite commit_outbox. by apply prefix_app_r, outbox_afterWaits.
  - by apply outbox_afterWaits.
Qed.

Lemma outbox_whileLoop s0 cs st :
  outbox s0 `prefix_of` outbox (engine st) ->
  outbox s0 `prefix_of` outbox (engine (fst (whileLoop cs st))).
Proof.
  apply (whileLoop_inv (fun s => outbox s0 `prefix_of` outbox s)).
  - intros m s H. unfold send. cbn [outbox]. by apply prefix_app_r.
  - intros l s H. exact H.
  - intros cmds s H. by apply outbox_interrupts.
  - intros e s H. by apply outbox_scrapeCard.
Qed.

(** The messages of a run that ended: the completion message comes
    last. *)
Lemma start_pushes env s :
  isRunning s = false -> feed env = true ->
  outcome (start env s) <> Ended Pending ->
  exists earlier,
    pushedBy s (final (start env s))
    = earlier ++ [scrapingComplete
                    (length (scrapedData (final (start env s))))].
Proof.
  intros Hidle Hfeed. unfold pushedBy, start. rewrite Hidle, Hfeed.
  cbn [negb]. fold (loopEntry s).
  pose proof (outbox_whileLoop s (cycles env) (loopEntry s)) as Hpre.
  destruct (whileLoop _ _) as [st t]. cbn [fst outcome final] in *.
  destruct Hpre as [k Hk]; [done|].
  intros Hne.
  destruct t; try done;
    unfold sendComplete, sendError, send, log, setRunning;
    cbn [outbox scrapedData]; rewrite Hk, <- ?app_assoc, drop_app_length;
    [by exists k | by exists k | by exists k |].
  exists (k ++ [scrapingError (ErrorWith message)]).
  by rewrite <- app_assoc.
Qed.

Lemma popupStep_present p ev :
  resetPresent (popupStep p ev) = resetPresent p.
Proof.
  destruct p as [run sh th rb c x j [k'|] st pr w];
    destruct ev as [| | | [r|] | | [r|] | | [k|m|k|m] | [r|]];
    popup_unfold; try done;
    popup_atoms; popup_unfold; try done;
    destruct run; popup_unfold; try done;
    by destruct rb.
Qed.

Lemma popupRun_present evs p :
  resetPresent (popupRun evs p) = resetPresent p.
Proof.
  induction evs as [|ev evs IH] using rev_ind; [done|].
  by rewrite popupRun_snoc, popupStep_present.
Qed.

Lemma received_complete n p :
  let q := received (scrapingComplete n) p in
  p_isRunning q = false /\ startHidden q = false /\ stopHidden q = true
  /\ countShown q = Some n /\ statusShown q = DoneWith n
  /\ csvDisabled q = negb (0 <? n) /\ excelDisabled q = negb (0 <? n)
  /\ jsonDisabled q = negb (0 <? n)
  /\ resetVisible q = resetPresent p && (0 <? n).
Proof.
  destruct p as [run sh th rb c x j [k'|] st pr w];
    popup_unfold; popup_atoms; popup_unfold; by destruct rb.
Qed.

(** X22. The end of a run as the popup shows it: when a run started on
    a page with a feed has ended, for whatever reason, a popup that
    received the messages the run pushed, whatever it showed before,
    is no longer running, shows the start button and hides the stop
    button, shows the number of records the engine holds both as the
    count and in the status line, enables the three export buttons
    exactly when that number is above zero, and shows the reset button
    exactly when the page has one and that number is above zero. *)
Theorem completed_run_shown :
  forall env s p0,
    isRunning s = false -> feed env = true ->
    outcome (start env s) <> Ended Pending ->
    let n := length (scrapedData (final (start env s))) in
    let p := popupRun (Received <$> pushedBy s (final (start env s))) p0 in
    p_isRunning p = false /\ startHidden p = false /\ stopHidden p = true
    /\ countShown p = Some n /\ statusShown p = DoneWith n
    /\ csvDisabled p = negb (0 <? n) /\ excelDisabled p = negb (0 <? n)
    /\ jsonDisabled p = negb (0 <? n)
    /\ resetVisible p = resetPresent p0 && (0 <? n).
Proof.
  intros env s p0 Hidle Hfeed Hend. cbv zeta.
  destruct (start_pushes env s Hidle Hfeed Hend) as [earlier ->].
  rewrite fmap_app. cbn [fmap list_fmap]. rewrite popupRun_snoc.
  cbn [popupStep].
  rewrite <- (popupRun_present (Received <$> earlier) p0).
  apply received_complete.
Qed.

Lemma completed_run_shown_witness :
  let n := length (scrapedData (final (start roughRun newScraper))) in
  let p := popupRun
             (Received <$> pushedBy newScraper (final (start roughRun newScraper)))
             (popupLoaded freshPage) in
  p_isRunning p = false /\ countShown p = Some n.
Proof.
  destruct (completed_run_shown roughRun newScraper (popupLoaded freshPage)
              eq_refl eq_refl)
    as (H1 & _ & _ & H4 & _).
  - vm_compute. discriminate.
  - exact (conj H1 H4).
Defined.

(** X23. A start that finds no result list, as the popup shows it:
    after the click, the error the engine pushes and the answer to the
    command, the popup is not running, shows the start button again
    with the status line back to ready, shows the engine's error text
    as the warning, and keeps the count it showed; the export buttons,
    disabled by the click, stay disabled whatever the count is; the
    reset button is shown exactly when the page has one and the count
    shown is above zero. *)
Theorem failed_start_shown :
  forall env s p0,
    isRunning s = false -> feed env = false ->
    let p := popupRun (startClick env s) p0 in
    p_isRunning p = false /\ startHidden p = false /\ stopHidden p = true
    /\ statusShown p = ReadyToScrape
    /\ warningShown p = Some (ErrorShown NoSearchResults)
    /\ countShown p = countShown p0
    /\ csvDisabled p = true /\ excelDisabled p = true
    /\ jsonDisabled p = true
    /\ resetVisible p = resetPresent p0 && countPositive p0.
Proof.
  intros env s p0 Hidle Hfeed. cbv zeta.
  unfold startClick, onMessage, start. rewrite Hidle, Hfeed.
  cbn [negb final]. unfold pushedBy, sendError, send. cbn [outbox].
  rewrite drop_app_length. cbn [fmap list_fmap app].
  unfold popupRun. cbn [foldl].
  destruct p0 as [run sh th rb c x j [k'|] st pr w];
    popup_unfold; popup_atoms; popup_unfold; by destruct rb.
Qed.

Lemma failed_start_shown_witness :
  let p := popupRun (startClick noFeed (stop storeWithA))
             (popupLoaded freshPage) in
  p_isRunning p = false
  /\ warningShown p = Some (ErrorShown NoSearchResults)
  /\ csvDisabled p = true.
Proof.
  destruct (failed_start_shown noFeed (stop storeWithA)
              (popupLoaded freshPage) eq_refl eq_refl)
    as (H1 & _ & _ & _ & H5 & _ & H7 & _).
  exact (conj H1 (conj H5 H7)).
Defined.

(** X24. A click on the stop button, as the popup shows it: whatever
    the engine and the popup were doing, after the engine has handled
    the command, its progress line has arrived and the two answers
    have come back, the engine is not running, the popup is not
    running, shows the start button, hides the stop button and shows
    the line saying the user stopped the run; the reset button is
    shown exactly when the page has one and either the count shown or
    the number of records the engine holds is above zero. *)
Theorem stop_click_shown :
  forall env s p0,
    let p := popupRun (stopClick env s) p0 in
    isRunning (snd (onMessage stopScraping env s)) = false
    /\ p_isRunning p = false /\ startHidden p = false /\ stopHidden p = true
    /\ progressShown p = ProgressText StoppedByUser
    /\ resetVisible p
       = resetPresent p0
         && (countPositive p0 || (0 <? length (scrapedData s))).
Proof.
  intros env s p0. cbv zeta. split; [done|].
  unfold stopClick, onMessage. cbv zeta.
  unfold pushedBy, stop, sendProgress, send, log, setRunning.
  cbn [outbox scrapedData isRunning].
  rewrite drop_app_length. cbn [fmap list_fmap app].
  unfold popupRun. cbn [foldl].
  destruct p0 as [run sh th rb c x j [k'|] st pr w];
    popup_unfold; cbv [responseCount default id from_option];
    popup_atoms; popup_unfold; by destruct rb.
Qed.

(** X25. The popup opens in step with the engine: when the script of
    the popup has loaded and the answer to its status query has come
    back, the popup takes a run to be in progress exactly when the
    engine is running, shows the number of records the engine holds,
    enables the export buttons exactly when that number is above zero,
    and shows the reset button exactly when the page has one, the
    number is above zero and the engine is not running. *)
Theorem popup_opens_in_step :
  forall env s page,
    let n := length (scrapedData s) in
    let p := popupStep (popupLoaded page)
               (Opened (Some (fst (onMessage getStatus env s)))) in
    p_isRunning p = isRunning s
    /\ countShown p = Some n
    /\ csvDisabled p = negb (0 <? n) /\ excelDisabled p = negb (0 <? n)
    /\ jsonDisabled p = negb (0 <? n)
    /\ resetVisible p = resetPresent page && (0 <? n) && negb (isRunning s).
Proof.
  intros env s page. cbv zeta. unfold onMessage. cbn [fst].
  destruct page as [run sh th rb c x j cnt st pr w].
  popup_unfold. cbv [responseCount responseRunning default id from_option].
  destruct (isRunning s); popup_atoms; popup_unfold; by destruct rb.
Qed.

(** ** Traversals in progress *)

Lemma alone_leaves n st how : alone n (st, Leaves how) = (st, Leaves how).
Proof. by destruct n. Qed.

Lemma alone_add n m r : alone (n + m) r = alone m (alone n r).
Proof.
  revert r. induction n as [|n IH]; intros [st next]; [done|].
  cbn [Nat.add alone snd fst]. destruct next as [a|how].
  - apply IH.
  - by rewrite alone_leaves.
Qed.

Lemma onEngine_same st : onEngine (fun _ => engine st) st = st.
Proof. by destruct st. Qed.

(** The three stretches of [scrapeCard], put end to end, are
    [scrapeCard]. *)
Lemma scrapeCard_staged f st :
  getUniqueUrl (href (card (f_card f))) ∉ scrapedUrls (engine st) ->
  clickThrows (f_card f) = None ->
  afterSettle f
    (onEngine (interrupts (duringSettle (f_card f)))
       (afterDetailWait f
          (onEngine (interrupts (duringDetailWait (f_card f))) st)))
  = (onEngine (fun _ => snd (scrapeCard (f_card f) (engine st))) st,
     tally (fst (scrapeCard (f_card f) (engine st))) (f_new f)).
Proof.
  intros Hkey Hclick. rewrite scrapeCard_unfold. cbv zeta.
  rewrite bool_decide_eq_false_2 by done. rewrite Hclick.
  unfold afterSettle, afterDetailWait, afterWaits, candidate. cbv zeta.
  destruct st as [s fails cursor h]. cbn [engine onEngine].
  destruct (waitForDetailPanel _ _); cbn [engine onEngine];
    destruct (_ && _); cbn [fst snd tally onEngine engine]; try done;
    destruct (nonempty (name _)); cbn [fst snd tally onEngine engine]; done.
Qed.

Lemma scrapeCard_returns e s :
  clickThrows e = None -> exists scraped, fst (scrapeCard e s) = Returns scraped.
Proof.
  intros Hclick. rewrite scrapeCard_unfold. cbv zeta. rewrite Hclick.
  case_bool_decide; [by eexists|].
  destruct (_ && _); [by eexists|].
  destruct (nonempty _); by eexists.
Qed.

Lemma forFrom_cons i e rest total nd c cs st :
  forFrom i (e :: rest) total nd c cs st =
  if negb (isRunning (engine st)) then afterFor nd c cs st
  else if bool_decide (getUniqueUrl (href (card e)) ∈ scrapedUrls (engine st))
  then forFrom (S i) rest total nd c cs (advance i st)
  else
    let st1 := atCard i total (advance i st) in
    let f := {| f_index := i; f_card := e; f_rest := rest;
                f_total := total; f_new := nd |} in
    match clickThrows e with
    | Some message =>
        (onEngine (log (LogCardError message)) st1, Suspends (AtDelay f c cs))
    | None => (st1, Suspends (AtDetailWait f c cs))
    end.
Proof.
  cbn [forFrom]. destruct (negb _); [done|].
  change (engine (setCursor _ _ st)) with (engine st).
  case_bool_decide as Hkey; [done|].
  cbn [engine onEngine note setCursor scrapedUrls sendProgress send].
  by rewrite bool_decide_eq_false_2.
Qed.

Lemma afterCard_unfold i e total st :
  afterCard i e total st =
  let st1 := atCard i total st in
  let r := scrapeCard e (engine st1) in
  onEngine (interrupts (duringDelay e))
    match fst r with
    | Throws message =>
        onEngine (log (LogCardError message)) (onEngine (fun _ => snd r) st1)
    | Returns _ => onEngine (fun _ => snd r) st1
    end.
Proof. reflexivity. Qed.

Lemma resultOfCard_unfold i e total st :
  resultOfCard i e total st = fst (scrapeCard e (engine (atCard i total st))).
Proof. reflexivity. Qed.

Lemma forFrom_alone c cs rest : forall i total nd st,
  exists n,
    alone n (forFrom i rest total nd c cs st)
    = afterFor (snd (forLoop i rest total nd st)) c cs
        (fst (forLoop i rest total nd st)).
Proof.
  induction rest as [|e rest IH]; intros i total nd st; [by exists 0|].
  rewrite forLoop_cons, forFrom_cons.
  destruct (negb (isRunning (engine st))); [by exists 0|].
  case_bool_decide as Hkey; [apply IH|].
  rewrite afterCard_unfold, resultOfCard_unfold. cbv zeta.
  assert (getUniqueUrl (href (card e))
          ∉ scrapedUrls (engine (atCard i total (advance i st))))
    as Hkey1 by done.
  generalize dependent (atCard i total (advance i st)). intros st1 Hkey1.
  destruct (clickThrows e) as [message|] eqn:Hclick.
  - assert (scrapeCard e (engine st1) = (Throws message, engine st1)) as ->.
    { rewrite scrapeCard_unfold. cbv zeta.
      rewrite bool_decide_eq_false_2 by done. by rewrite Hclick. }
    cbn [fst snd tally]. rewrite onEngine_same.
    destruct (IH (S i) total nd
                (onEngine (interrupts (duringDelay e))
                   (onEngine (log (LogCardError message)) st1))) as [n Hn].
    exists (S n). exact Hn.
  - pose proof (scrapeCard_staged
                  {| f_index := i; f_card := e; f_rest := rest;
                     f_total := total; f_new := nd |} st1 Hkey1 Hclick)
      as Hstaged.
    cbn [f_card f_new] in Hstaged.
    destruct (IH (S i) total
                (tally (fst (scrapeCard e (engine st1))) nd)
                (onEngine (interrupts (duringDelay e))
                   (onEngine (fun _ => snd (scrapeCard e (engine st1))) st1)))
      as [n Hn].
    exists (S (S (S n))).
    cbn [alone snd fst resume f_card].
    rewrite Hstaged.
    cbn [alone snd fst resume withNew f_card f_index f_rest f_total f_new].
    rewrite Hn.
    destruct (scrapeCard_returns e (engine st1) Hclick) as [scraped Hret].
    by rewrite Hret.
Qed.

Lemma whileHead_alone cs : forall st,
  exists n,
    alone n (whileHead cs st)
    = (fst (whileLoop cs st), nextOf (snd (whileLoop cs st))).
Proof.
  induction cs as [|c cs IH]; intros st; unfold whileHead;
    cbn [whileLoop]; destruct (negb (isRunning (engine st)));
    try (by exists 0).
  unfold cycle, processVisible. cbv zeta.
  match goal with
  | |- context [forFrom ?i ?rest ?total ?nd c cs ?st'] =>
      destruct (forFrom_alone c cs rest i total nd st') as [n Hn];
      set (r := forFrom i rest total nd c cs st') in *;
      destruct (forLoop i rest total nd st') as [st2 nd2]
  end.
  cbn [fst snd] in Hn. unfold afterFor in Hn.
  destruct (fault c) as [message|]; [by exists n|].
  destruct (hasReachedEnd c); [by exists n|].
  set (st3 := onEngine (interrupts (duringScroll c))
                (onEngine (sendProgress ScrollingForMore) st2)).
  assert (forall m, alone (n + S m) r = alone m (afterScroll nd2 c cs st3))
    as Hscroll by (intros m; by rewrite alone_add, Hn).
  unfold afterScroll in Hscroll.
  destruct ((afterCount c <=? beforeCount c) && (nd2 =? 0)).
  - cbv zeta in Hscroll.
    destruct (MAX_SCROLL_FAILS <=? consecutiveScrollFails st3 + 1).
    + exists (n + 1). by rewrite Hscroll.
    + match goal with
      | |- context [whileLoop cs ?st'] => destruct (IH st') as [m Hm]
      end.
      exists (n + S m). rewrite Hscroll, Hm. by destruct (whileLoop cs _).
  - match goal with
    | |- context [whileLoop cs ?st'] => destruct (IH st') as [m Hm]
    end.
    exists (n + S m). rewrite Hscroll, Hm. by destruct (whileLoop cs _).
Qed.

Lemma loopOf_task a st :
  loopOf {| point := a; t_fails := consecutiveScrollFails st;
            t_cursor := lastProcessedIndex st; t_history := history st |}
         (engine st) = st.
Proof. by destruct st. Qed.

Lemma worldOf_suspends st a :
  worldOf (st, Suspends a)
  = {| shared := engine st;
       pool := [{| point := a; t_fails := consecutiveScrollFails st;
                   t_cursor := lastProcessedIndex st;
                   t_history := history st |}] |}.
Proof. reflexivity. Qed.

Lemma wake_worldOf r : wake 0 (worldOf r) = worldOf (alone 1 r).
Proof.
  destruct r as [st [a|how]]; [|done].
  rewrite worldOf_suspends. unfold wake.
  cbn [pool shared lookup list_lookup point]. rewrite loopOf_task.
  cbn [alone fst snd]. unfold worldOf.
  by destruct (outcomeOf (resume a st)) as [s' [t|]].
Qed.

Lemma play_alone n : forall r,
  play (replicate n (Wake 0)) (worldOf r) = worldOf (alone n r).
Proof.
  induction n as [|n IH]; intros r; [done|].
  change (play (replicate (S n) (Wake 0)) (worldOf r))
    with (play (replicate n (Wake 0)) (wake 0 (worldOf r))).
  rewrite wake_worldOf, IH. f_equal.
  change (S n) with (1 + n). by rewrite alone_add.
Qed.

Lemma start_concludes env s :
  isRunning s = false -> feed env = true ->
  final (start env s)
  = conclude (snd (whileLoop (cycles env) (loopEntry s)))
      (engine (fst (whileLoop (cycles env) (loopEntry s))))
  /\ outcome (start env s) = Ended (snd (whileLoop (cycles env) (loopEntry s))).
Proof.
  intros Hidle Hfeed. unfold start. rewrite Hidle, Hfeed. cbn [negb].
  fold (loopEntry s). destruct (whileLoop _ _) as [st t]. cbn [fst snd final outcome].
  split; [|done]. by destruct t.
Qed.

Lemma worldOf_nextOf st how :
  worldOf (st, nextOf how)
  = {| shared := conclude how (engine st);
       pool := match how with
               | Pending =>
                   [{| point := BeyondScript;
                       t_fails := consecutiveScrollFails st;
                       t_cursor := lastProcessedIndex st;
                       t_history := history st |}]
               | _ => []
               end |}.
Proof. by destruct how. Qed.

(** X26. A traversal left alone is [start]: for every instance and
    every script, when the listener is given the start command and the
    traversal it begins is then resumed often enough, with no other
    traversal on the instance and no command but those of its script,
    the instance is the one [start] returns and the answer is the one
    the listener gives; the traversal is then over, unless the script
    ended with the loop still running. *)
Theorem traversal_alone_is_start :
  forall env s,
    exists n,
      let w := play (Command startScraping env :: replicate n (Wake 0))
                 {| shared := s; pool := [] |} in
      fst (deliver startScraping env {| shared := s; pool := [] |})
      = fst (onMessage startScraping env s)
      /\ shared w = snd (onMessage startScraping env s)
      /\ (outcome (start env s) <> Ended Pending -> pool w = [])
      /\ (outcome (start env s) = Ended Pending ->
          exists t, pool w = [t] /\ point t = BeyondScript).
Proof.
  intros env s.
  destruct (isRunning s) eqn:Hidle.
  { exists 0. unfold play. cbn [foldl exec replicate].
    unfold deliver, onMessage, start. cbn [shared]. rewrite Hidle.
    cbn [snd fst shared pool outcome]. repeat split; done. }
  destruct (feed env) eqn:Hfeed.
  2: { exists 0. unfold play. cbn [foldl exec replicate].
       unfold deliver, onMessage, launch, start. cbn [shared].
       rewrite Hidle, Hfeed.
       cbn [negb snd fst shared pool final outcome app option_list].
       repeat split; done. }
  destruct (whileHead_alone (cycles env) (loopEntry s)) as [n Hn].
  destruct (start_concludes env s Hidle Hfeed) as [Hfinal Hout].
  exists n. cbv zeta.
  assert (exec {| shared := s; pool := [] |} (Command startScraping env)
          = worldOf (whileHead (cycles env) (loopEntry s))) as Hfirst.
  { unfold exec, deliver, launch. cbn [shared pool]. rewrite Hidle, Hfeed.
    cbn [negb]. fold (loopEntry s). unfold worldOf.
    by destruct (outcomeOf _) as [s' t]. }
  change (play (Command startScraping env :: replicate n (Wake 0))
            {| shared := s; pool := [] |})
    with (play (replicate n (Wake 0))
            (exec {| shared := s; pool := [] |} (Command startScraping env))).
  rewrite Hfirst, play_alone, Hn, worldOf_nextOf.
  unfold deliver, onMessage. cbn [shared]. rewrite Hidle.
  rewrite Hout, Hfinal. cbn [shared pool fst snd].
  split; [by destruct (launch env s)|]. split; [done|].
  split.
  - intros Hne. destruct (snd (whileLoop _ _)); try done.
  - intros [= ->]. by eexists.
Qed.

(** ** One traversal at a time *)

Lemma afterFor_tidy nd c cs st : tidy (engine st) (afterFor nd c cs st).
Proof.
  unfold afterFor, tidy.
  destruct (fault c); [by split|].
  destruct (hasReachedEnd c); by split.
Qed.

Lemma forFrom_tidy c cs rest : forall i total nd st,
  tidy (engine st) (forFrom i rest total nd c cs st).
Proof.
  induction rest as [|e rest IH]; intros i total nd st;
    [apply afterFor_tidy|].
  rewrite forFrom_cons.
  destruct (negb _); [apply afterFor_tidy|].
  case_bool_decide as Hkey; [apply (IH (S i) total nd (advance i st))|].
  cbv zeta. destruct (clickThrows e); by split.
Qed.

Lemma whileHead_tidy cs st : tidy (engine st) (whileHead cs st).
Proof.
  unfold whileHead. destruct (negb _); [by split|].
  destruct cs as [|c cs]; [by split|]. cbv zeta.
  match goal with
  | |- tidy _ (forFrom ?i ?rest ?total ?nd c cs ?st') =>
      apply (forFrom_tidy c cs rest i total nd st')
  end.
Qed.

Lemma afterScroll_tidy nd c cs st : tidy (engine st) (afterScroll nd c cs st).
Proof.
  unfold afterScroll. destruct (_ && _); cbv zeta.
  - destruct (MAX_SCROLL_FAILS <=? _); [by split|].
    match goal with
    | |- tidy _ (whileHead cs ?st') => apply (whileHead_tidy cs st')
    end.
  - apply (whileHead_tidy cs (setFails 0 st)).
Qed.

Lemma interrupts_consistent cmds s :
  storeConsistent s -> storeConsistent (interrupts cmds s).
Proof.
  apply (inv_interrupts keysConsistent keysConsistent_empty).
Qed.

Lemma conclude_store how s : sameStore s (conclude how s).
Proof. by destruct how. Qed.

(** A stretch of a traversal that is the only one keeps the store
    consistent. *)
Lemma resume_guarded a st :
  storeConsistent (engine st) -> keyPending a (engine st) ->
  storeConsistent (engine (fst (resume a st)))
  /\ match snd (resume a st) with
     | Suspends a' => keyPending a' (engine (fst (resume a st)))
     | Leaves _ => True
     end.
Proof.
  intros Hstore Hkey. destruct a as [f c cs|f c cs|f c cs|nd c cs|].
  - cbn [resume keyPending fst snd] in *. unfold afterDetailWait. cbv zeta.
    destruct (waitForDetailPanel _ _); cbn [engine onEngine]; split;
      try (by apply interrupts_consistent);
      try (by apply interrupts_no_new_key).
  - cbn [resume keyPending] in *. unfold afterSettle. cbv zeta.
    destruct (_ && _); cbn [fst snd engine onEngine keyPending].
    { split; [|done].
      by apply (interrupts_consistent (duringSettle (f_card f)) (engine st)). }
    destruct (nonempty (name _)) eqn:Hname;
      cbn [fst snd engine onEngine keyPending]; (split; [|done]).
    + unfold storeConsistent, onStore. rewrite commit_data, commit_urls.
      apply (keysConsistent_commit _ _
               (withSource (href (card (f_card f))) (now (f_card f)) _)).
      * by apply interrupts_consistent.
      * by apply interrupts_no_new_key.
      * by apply nonempty_true.
    + by apply interrupts_consistent.
  - cbn [resume].
    match goal with
    | |- context [forFrom ?i ?rest ?total ?nd c cs ?st'] =>
        destruct (forFrom_tidy c cs rest i total nd st') as [[Hd Hu] Hnext]
    end.
    cbn [engine onEngine] in Hd, Hu. split; [|done].
    unfold storeConsistent, onStore. rewrite Hd, Hu.
    by apply interrupts_consistent.
  - cbn [resume].
    match goal with
    | |- context [afterScroll nd c cs ?st'] =>
        destruct (afterScroll_tidy nd c cs st') as [[Hd Hu] Hnext]
    end.
    cbn [engine onEngine] in Hd, Hu. split; [|done].
    unfold storeConsistent, onStore. rewrite Hd, Hu.
    by apply interrupts_consistent.
  - done.
Qed.

Lemma outcomeOf_guarded r :
  storeConsistent (engine (fst r)) ->
  match snd r with
  | Suspends a => keyPending a (engine (fst r))
  | Leaves _ => True
  end ->
  storeConsistent (fst (outcomeOf r))
  /\ match snd (outcomeOf r) with
     | Some t => keyPending (point t) (fst (outcomeOf r))
     | None => True
     end.
Proof.
  destruct r as [st [a|how]]; cbn [fst snd outcomeOf point]; [done|].
  intros Hstore _. split; [|done].
  destruct (conclude_store how (engine st)) as [Hd Hu].
  unfold storeConsistent, onStore. by rewrite Hd, Hu.
Qed.

Lemma wake_guarded n w : guarded w -> guarded (wake n w).
Proof.
  intros [Hstore Hpool]. unfold wake.
  destruct (pool w) as [|t [|t' rest]] eqn:Hp; [| |done].
  { rewrite lookup_nil. unfold guarded. by rewrite Hp. }
  destruct n as [|n]; cbn [lookup list_lookup].
  2: { destruct n; cbn [lookup list_lookup]; unfold guarded; by rewrite Hp. }
  destruct (resume_guarded (point t) (loopOf t (shared w)) Hstore Hpool)
    as [Hstore' Hnext].
  destruct (outcomeOf_guarded _ Hstore' Hnext) as [Hs Ht].
  destruct (outcomeOf _) as [s' [t'|]]; cbn [fst snd] in *;
    unfold guarded; cbn [shared pool]; by rewrite ?Hp.
Qed.

Lemma command_guarded request env w :
  guarded w ->
  (request = startScraping -> isRunning (shared w) = false ->
   feed env = true -> pool w = []) ->
  guarded (exec w (Command request env)).
Proof.
  intros [Hstore Hpool] Hexcl. unfold exec, deliver. cbv zeta.
  destruct request; cbn [snd].
  - destruct (isRunning (shared w)) eqn:Hrun; [done|].
    unfold launch. rewrite Hrun.
    destruct (feed env) eqn:Hfeed; cbn [negb].
    + rewrite (Hexcl eq_refl eq_refl eq_refl). cbn [app].
      destruct (whileHead_tidy (cycles env)
                  (enterLoop (log LogStarted (setRunning true (shared w)))))
        as [[Hd Hu] Hnext].
      cbn [engine enterLoop] in Hd, Hu.
      assert (storeConsistent
                (engine (fst (whileHead (cycles env)
                     (enterLoop (log LogStarted
                                   (setRunning true (shared w)))))))) as Hs.
      { unfold storeConsistent, onStore. by rewrite Hd, Hu. }
      destruct (outcomeOf_guarded _ Hs Hnext) as [Hs' Ht].
      destruct (outcomeOf _) as [s' [t'|]]; cbn [fst snd] in *; by split.
    + cbn [snd]. split; [done|]. cbn [shared pool].
      rewrite app_nil_r.
      destruct (pool w) as [|t [|t' rest]]; try done.
  - split; [done|]. cbn [shared pool].
    destruct (pool w) as [|t [|t' rest]]; try done.
  - split; [apply keysConsistent_empty|]. cbn [shared pool].
    destruct (pool w) as [|t [|t' rest]]; try done.
    destruct (point t); cbn [keyPending]; try done; apply not_elem_of_empty.
  - done.
  - destruct (_ =? 0); cbn [snd]; [done|].
    split; [by destruct format|]. cbn [shared pool].
    destruct (pool w) as [|t [|t' rest]]; try done.
    by destruct format.
  - done.
Qed.

Lemma exclusive_guarded steps : forall w,
  guarded w -> exclusive steps w -> guarded (play steps w).
Proof.
  induction steps as [|step steps IH]; intros w Hw Hex; [done|].
  destruct Hex as [Hnow Hlater].
  change (play (step :: steps) w) with (play steps (exec w step)).
  apply IH; [|done].
  destruct step as [request env|n].
  - apply command_guarded; [done|]. intros ->. exact Hnow.
  - by apply wake_guarded.
Qed.

(** C1. Two traversals store one key twice: the start command, the
    stop command and the start command again, all three handled while
    the first traversal waits for the panel of its first card, are all
    accepted; both traversals have tested the key of that card before
    either stores it, neither tests it again, and when both have
    resumed the record list holds the record of place A twice, so two
    records share a canonical key and the store is not consistent. *)
Theorem two_traversals_store_one_key_twice :
  let w := play restartDuringCard freshWorld in
  fst (deliver startScraping
         {| feed := true; cycles := [quietCycle [placeA_en]] |}
         (play (take 2 restartDuringCard) freshWorld))
  = status_started
  /\ scrapedData (shared w) = [recordA; recordA]
  /\ ~ NoDup (keyOf <$> scrapedData (shared w))
  /\ ~ storeConsistent (shared w).
Proof.
  cbv zeta.
  assert (scrapedData (shared (play restartDuringCard freshWorld))
          = [recordA; recordA]) as Hdata by (vm_compute; reflexivity).
  assert (~ NoDup (keyOf <$> scrapedData
                              (shared (play restartDuringCard freshWorld))))
    as Hdup.
  { rewrite Hdata. cbn [fmap list_fmap]. intros Hnd.
    apply NoDup_cons in Hnd as [Hnotin _]. apply Hnotin, list_elem_of_here. }
  split; [vm_compute; reflexivity|].
  split; [done|]. split; [done|].
  intros [Hnd _]. by apply Hdup.
Qed.

(** X27. One traversal at a time never stores a key twice: on every
    schedule of commands and resumptions in which no start command is
    accepted while a traversal is still suspended, from the fresh
    instance on, no two records share a canonical key, the dedup set
    is the set of the keys of the records, and no key has more than
    one record. *)
Theorem one_traversal_at_a_time :
  forall steps,
    exclusive steps freshWorld ->
    let w := play steps freshWorld in
    storeConsistent (shared w)
    /\ length (pool w) <= 1
    /\ forall k, length (filter (fun d => keyOf d = k)
                           (scrapedData (shared w))) <= 1.
Proof.
  intros steps Hex. cbv zeta.
  destruct (exclusive_guarded steps freshWorld) as [Hstore Hpool];
    [split; [apply keysConsistent_empty|done] | done |].
  split; [done|]. split.
  - destruct (pool _) as [|t [|t' rest]]; cbn [length]; try done; lia.
  - intros k. destruct Hstore as [Hnd _].
    by apply NoDup_fmap_filter_length.
Qed.

Lemma one_traversal_at_a_time_witness :
  storeConsistent (shared (play oneAfterTheOther freshWorld))
  /\ length (scrapedData (shared (play oneAfterTheOther freshWorld))) = 1.
Proof.
  destruct (one_traversal_at_a_time oneAfterTheOther) as [Hstore _].
  - unfold oneAfterTheOther. cbn [exclusive].
    repeat split; done.
  - split; [exact Hstore|]. vm_compute. reflexivity.
Defined.

(** ** The store under any interleaving *)

Section WorldInvariant.
(** A property of the store that holds of the empty store and
    survives the commit of a named record, under whatever key, holds
    on every schedule. *)
Variable J : list Place -> gset jsstring -> Prop.
Hypothesis J_empty : J [] ∅.
Hypothesis J_commit : forall data urls k d,
  J data urls -> name d <> [] -> J (data ++ [d]) ({[k]} ∪ urls).

Lemma same_onStore s s' : sameStore s s' -> onStore J s -> onStore J s'.
Proof. unfold onStore. by intros [-> ->]. Qed.

Lemma any_interrupts cmds s : onStore J s -> onStore J (interrupts cmds s).
Proof.
  unfold interrupts. revert s.
  induction cmds as [|i cmds IH]; intros s H; [done|].
  cbn [foldl]. apply IH. by destruct i.
Qed.

Lemma any_resume a st :
  onStore J (engine st) -> onStore J (engine (fst (resume a st))).
Proof.
  intros H. destruct a as [f c cs|f c cs|f c cs|nd c cs|]; cbn [resume].
  - cbn [fst]. unfold afterDetailWait. cbv zeta.
    destruct (waitForDetailPanel _ _); cbn [engine onEngine];
      by apply any_interrupts.
  - unfold afterSettle. cbv zeta.
    destruct (_ && _); cbn [fst engine onEngine];
      [by apply any_interrupts|].
    destruct (nonempty (name _)) eqn:Hname; cbn [fst engine onEngine];
      [|by apply any_interrupts].
    unfold onStore. rewrite commit_data, commit_urls.
    apply J_commit; [by apply any_interrupts | by apply nonempty_true].
  - match goal with
    | |- context [forFrom ?i ?rest ?total ?nd c cs ?st'] =>
        destruct (forFrom_tidy c cs rest i total nd st') as [Hsame _]
    end.
    apply (same_onStore _ _ Hsame). by apply any_interrupts.
  - match goal with
    | |- context [afterScroll nd c cs ?st'] =>
        destruct (afterScroll_tidy nd c cs st') as [Hsame _]
    end.
    apply (same_onStore _ _ Hsame). by apply any_interrupts.
  - done.
Qed.

Lemma any_outcomeOf r :
  onStore J (engine (fst r)) -> onStore J (fst (outcomeOf r)).
Proof.
  destruct r as [st [a|how]]; cbn [fst outcomeOf]; [done|].
  apply same_onStore, conclude_store.
Qed.

Lemma any_exec w step : onStore J (shared w) -> onStore J (shared (exec w step)).
Proof.
  intros H. destruct step as [request env|n]; cbn [exec].
  - unfold deliver. cbv zeta. destruct request; cbn [snd shared]; try done.
    + destruct (isRunning (shared w)) eqn:Hrun; [done|].
      unfold launch. rewrite Hrun.
      destruct (negb (feed env)); [done|].
      pose proof (whileHead_tidy (cycles env)
                    (enterLoop (log LogStarted (setRunning true (shared w)))))
        as [Hsame _].
      pose proof (any_outcomeOf _ (same_onStore _ _ Hsame H)) as Hout.
      by destruct (outcomeOf _) as [s' t'].
    + destruct (_ =? 0); cbn [snd shared]; [done|]. by destruct format.
  - unfold wake. destruct (pool w !! n) as [t|]; [|done].
    pose proof (any_outcomeOf _ (any_resume (point t) (loopOf t (shared w)) H))
      as Hout.
    by destruct (outcomeOf _) as [s' t'].
Qed.

Lemma any_play steps : forall w,
  onStore J (shared w) -> onStore J (shared (play steps w)).
Proof.
  induction steps as [|step steps IH]; intros w H; [done|].
  apply (IH (exec w step)). by apply any_exec.
Qed.
End WorldInvariant.

(** X28. The name gate under any interleaving: whatever commands the
    listener receives and however the traversals it starts alternate,
    from the fresh instance on, every record of the list has a
    non-empty name. *)
Theorem named_under_interleaving :
  forall steps, allNamed (shared (play steps freshWorld)).
Proof.
  intros steps.
  apply (any_play namesPresent); [apply Forall_nil_2 | | apply Forall_nil_2].
  intros data urls k d Hdata Hname. unfold namesPresent.
  apply Forall_app. split; [done|]. by apply Forall_singleton.
Qed.

(** ** Stopping a traversal *)

Lemma stopped_forFrom i rest total nd c cs st :
  isRunning (engine st) = false ->
  forFrom i rest total nd c cs st = afterFor nd c cs st.
Proof.
  intros H. destruct rest as [|e rest]; [done|].
  cbn [forFrom]. by rewrite H.
Qed.

Lemma stopped_whileHead cs st :
  isRunning (engine st) = false -> whileHead cs st = (st, Leaves UserStop).
Proof. intros H. unfold whileHead. by rewrite H. Qed.

Ltac stopped_done :=
  eexists _, _; split; [reflexivity|]; repeat split; try done.

Lemma stopped_at_scroll nd c cs st :
  isRunning (engine st) = false ->
  endsStopped 1 st (AtScroll nd c cs).
Proof.
  intros H. unfold endsStopped. cbn [alone snd fst resume].
  pose proof (interrupts_stay_stopped (duringScroll c) (engine st) H) as H'.
  unfold afterScroll. destruct (_ && _); cbv zeta.
  - destruct (MAX_SCROLL_FAILS <=? _).
    + stopped_done.
    + rewrite stopped_whileHead by done. stopped_done.
  - rewrite stopped_whileHead by done. stopped_done.
Qed.

Lemma stopped_at_delay f c cs st :
  isRunning (engine st) = false ->
  endsStopped 2 st (AtDelay f c cs).
Proof.
  intros H. unfold endsStopped.
  pose proof (interrupts_stay_stopped (duringDelay (f_card f)) (engine st) H)
    as H'.
  change (alone 2 (st, Suspends (AtDelay f c cs)))
    with (alone 1 (resume (AtDelay f c cs) st)).
  cbn [resume]. rewrite stopped_forFrom by done. unfold afterFor.
  destruct (fault c); [stopped_done|].
  destruct (hasReachedEnd c); [stopped_done|].
  destruct (stopped_at_scroll (f_new f) c cs
              (onEngine (sendProgress ScrollingForMore)
                 (onEngine (interrupts (duringDelay (f_card f))) st)))
    as (st' & how & Halone & Hrest); [done|].
  exists st', how. split; [exact Halone | exact Hrest].
Qed.

Lemma afterSettle_keeps f st :
  isRunning (engine (fst (afterSettle f st))) = isRunning (engine st)
  /\ history (fst (afterSettle f st)) = history st.
Proof.
  unfold afterSettle. cbv zeta.
  destruct (_ && _); [done|]. by destruct (nonempty (name _)).
Qed.

Lemma stopped_at_settle f c cs st :
  isRunning (engine st) = false ->
  endsStopped 3 st (AtSettle f c cs).
Proof.
  intros H. unfold endsStopped.
  pose proof (interrupts_stay_stopped (duringSettle (f_card f)) (engine st) H)
    as H'.
  change (alone 3 (st, Suspends (AtSettle f c cs)))
    with (alone 2 (resume (AtSettle f c cs) st)).
  cbn [resume].
  destruct (afterSettle_keeps f
              (onEngine (interrupts (duringSettle (f_card f))) st))
    as [Hrun Hhist].
  destruct (afterSettle f _) as [st2 nd2]. cbn [fst] in Hrun, Hhist.
  destruct (stopped_at_delay (withNew nd2 f) c cs st2)
    as (st' & how & Halone & Hhow & Hh & Hrest); [by rewrite Hrun|].
  exists st', how. split; [exact Halone|]. split; [done|].
  split; [|done]. by rewrite Hh, Hhist.
Qed.

Lemma stopped_at_detail_wait f c cs st :
  isRunning (engine st) = false ->
  endsStopped 4 st (AtDetailWait f c cs).
Proof.
  intros H. unfold endsStopped.
  pose proof (interrupts_stay_stopped (duringDetailWait (f_card f))
                (engine st) H) as H'.
  change (alone 4 (st, Suspends (AtDetailWait f c cs)))
    with (alone 3 (resume (AtDetailWait f c cs) st)).
  cbn [resume].
  destruct (stopped_at_settle f c cs
              (afterDetailWait f
                 (onEngine (interrupts (duringDetailWait (f_card f))) st)))
    as (st' & how & Halone & Hhow & Hh & Hrest).
  { unfold afterDetailWait. cbv zeta. by destruct (waitForDetailPanel _ _). }
  exists st', how. split; [exact Halone|]. split; [done|].
  split; [|done]. rewrite Hh. unfold afterDetailWait. cbv zeta.
  by destruct (waitForDetailPanel _ _).
Qed.

Lemma endsStopped_more n st a : endsStopped n st a -> endsStopped (S n) st a.
Proof.
  intros (st' & how & Halone & Hrest). exists st', how. split; [|done].
  change (S n) with (1 + n). rewrite Nat.add_comm, alone_add, Halone.
  apply alone_leaves.
Qed.

(** X10. Stopping ends a traversal, unless another start is accepted:
    the stop command clears [isRunning]; a suspended traversal that
    finds [isRunning] cleared whenever it resumes (no start command is
    accepted meanwhile, and the traversal is left alone) leaves its
    loop within four stretches, wherever it was suspended, without
    another call of [scrapeCard], and concludes with [isRunning]
    cleared; a cycle that ends with [isRunning] cleared is the last
    cycle of the run, and a loop entered with [isRunning] cleared does
    nothing.  A start accepted after the stop sets [isRunning] again,
    and the stopped traversal goes on: in [restartKeepsGoing] the
    first traversal, stopped while it waits for the panel of its first
    card, calls [scrapeCard] for the second card as well. *)
Theorem stop_ends_the_run :
  (forall env w, isRunning (shared (exec w (Command stopScraping env))) = false)
  /\ (forall a st,
        isRunning (engine st) = false -> a <> BeyondScript ->
        endsStopped 4 st a)
  /\ (forall c cs st,
        isRunning (engine st) = true ->
        isRunning (engine (fst (cycle c st))) = false ->
        fst (whileLoop (c :: cs) st) = fst (cycle c st)
        /\ snd (whileLoop (c :: cs) st) <> Pending)
  /\ (forall cs st,
        isRunning (engine st) = false -> whileLoop cs st = (st, UserStop))
  /\ (isRunning (shared (play (take 2 restartKeepsGoing) freshWorld)) = false
      /\ (attempts ∘ t_history <$> pool (play (take 2 restartKeepsGoing) freshWorld))
         = [[0]]
      /\ (attempts ∘ t_history <$> pool (play restartKeepsGoing freshWorld))
         = [[0; 1]; [0]]).
Proof.
  split; [done|]. split; [|split; [|split]].
  - intros a st Hrun Hscript. destruct a as [f c cs|f c cs|f c cs|nd c cs|].
    + by apply stopped_at_detail_wait.
    + by apply endsStopped_more, stopped_at_settle.
    + by do 2 apply endsStopped_more; apply stopped_at_delay.
    + by do 3 apply endsStopped_more; apply stopped_at_scroll.
    + done.
  - intros c cs st Hrun Hstopped.
    rewrite whileLoop_cons_running by done.
    pose proof (cycle_not_pending c st) as Hnp.
    destruct (snd (cycle c st)) as [t|]; cbn [fst snd].
    + split; [done|congruence].
    + rewrite whileLoop_stopped by done. done.
  - apply whileLoop_stopped.
  - repeat split; vm_compute; reflexivity.
Qed.

Lemma stop_ends_the_run_witness :
  endsStopped 4
    (enterLoop (stop runningWithA))
    (AtDelay {| f_index := 0; f_card := placeA_en; f_rest := [placeB];
                f_total := 2; f_new := 1 |}
             (quietCycle [placeA_en; placeB]) [])
  /\ whileLoop (cycles stallingRun) (enterLoop newScraper)
     = (enterLoop newScraper, UserStop).
Proof.
  destruct stop_ends_the_run as (_ & Hends & _ & Hidle & _).
  split.
  - apply Hends; [reflexivity | discriminate].
  - apply Hidle. reflexivity.
Defined.

(** ** The test of the key *)

Lemma afterSettle_marks f st :
  snd (afterSettle f st) = S (f_new f) ->
  getUniqueUrl (href (card (f_card f)))
  ∈ scrapedUrls (engine (fst (afterSettle f st))).
Proof.
  unfold afterSettle. cbv zeta.
  destruct (_ && _); cbn [fst snd]; [lia|].
  destruct (nonempty (name _)); cbn [fst snd engine onEngine]; [|lia].
  intros _. rewrite commit_urls.
  apply elem_of_union_l, elem_of_singleton. reflexivity.
Qed.

(** X29. The test of the key: a call of [scrapeCard] for an entry
    whose canonical key is in the dedup set returns false at once and
    leaves the instance as it was; two links that differ only after
    the question mark have the same key; the stretch of [scrapeCard]
    that stores a record puts its key in the dedup set, so a call
    made right after a committing call, for a link with the same key,
    returns false. *)
Theorem known_key_is_refused :
  (forall e s,
     getUniqueUrl (href (card e)) ∈ scrapedUrls s ->
     scrapeCard e s = (Returns false, s))
  /\ (forall base q1 q2 : jsstring,
        QUESTION ∉ base ->
        getUniqueUrl (base ++ QUESTION :: q1) = base
        /\ getUniqueUrl (base ++ QUESTION :: q2) = base)
  /\ (forall f st,
        snd (afterSettle f st) = S (f_new f) ->
        getUniqueUrl (href (card (f_card f)))
        ∈ scrapedUrls (engine (fst (afterSettle f st))))
  /\ (forall e1 e2 s,
        getUniqueUrl (href (card e1)) = getUniqueUrl (href (card e2)) ->
        fst (scrapeCard e1 s) = Returns true ->
        scrapeCard e2 (snd (scrapeCard e1 s))
        = (Returns false, snd (scrapeCard e1 s))).
Proof.
  split; [apply scrapeCard_known_key|].
  split; [intros base q1 q2 H; split; by apply getUniqueUrl_query|].
  split; [apply afterSettle_marks|].
  intros e1 e2 s Hkey Htrue.
  apply scrapeCard_known_key.
  apply scrapeCard_true_iff in Htrue as [Hreach Hname].
  rewrite (scrapeCard_at_name_test _ _ Hreach), Hname. cbn [snd].
  rewrite commit_urls, <- Hkey.
  apply elem_of_union_l, elem_of_singleton. reflexivity.
Qed.

Lemma known_key_is_refused_witness :
  scrapeCard placeA_fr (stop storeWithA) = (Returns false, stop storeWithA)
  /\ getUniqueUrl (href (card placeA_en)) = getUniqueUrl (href (card placeA_fr)).
Proof.
  destruct known_key_is_refused as (Hskip & Hquery & _ & _).
  split.
  - apply Hskip. apply (bool_decide_unpack _). vm_compute. exact I.
  - destruct (Hquery (js "https://www.google.com/maps/place/A")
                (js "hl=en") (js "hl=fr")) as [Hen Hfr].
    { apply (bool_decide_unpack _). vm_compute. exact I. }
    exact (eq_trans Hen (eq_sym Hfr)).
Defined.
